(** * indoor_mapper: a shallow embedding of [indoor_mapper.py]

    The program keeps a graph of visited places (nodes with one branch slot
    per absolute direction) together with a visit log, identifies the place
    the explorer has just reached, and runs a breadth-first search to tell
    them where to turn next.  The development follows the source top to
    bottom: the [Direction] enumeration, the JSON hooks and [dump_dbfile],
    [letter_dir], and the three commands of [main]. *)

From Stdlib Require Import List ZArith String Ascii Bool Lia DecimalString
  FinFun Sorted.
Import ListNotations.
Open Scope string_scope.
Open Scope list_scope.
Open Scope Z_scope.

(** ** Exceptions and the error monad

    Python exceptions that the program can raise and never catches end the
    invocation.  [OutOfFuel] and [NotModelled] are not Python exceptions:
    the first marks a loop of the model that used up its iteration bound,
    the second a value whose shape lies outside the database schema that the
    typed part of the model covers.  Python goes on with such a value where
    the model stops: an answer [NotModelled] says nothing about the
    program. *)

Inductive exn : Type :=
| IndexError
| KeyError
| ValueError
| TypeError
| AttributeError
| FileNotFoundError
| OutOfFuel
| NotModelled.

Inductive result (A : Type) : Type :=
| Ok (a : A)
| Raise (e : exn).
Arguments Ok {A} a.
Arguments Raise {A} e.

Definition bind {A B} (m : result A) (k : A -> result B) : result B :=
  match m with
  | Ok a => k a
  | Raise e => Raise e
  end.

Notation "x <- m ;; k" := (bind m (fun x => k))
  (at level 61, m at next level, right associativity).
Notation "' p <- m ;; k" := (bind m (fun x => match x with p => k end))
  (at level 61, p pattern, m at next level, right associativity).

Definition of_option {A} (e : exn) (o : option A) : result A :=
  match o with
  | Some a => Ok a
  | None => Raise e
  end.

(** ** Direction (lines 8-27) *)

Definition DIRECTIONS : string := "wdsa".

Inductive Direction : Type :=
| forward
| right
| backward
| left.

Definition value (d : Direction) : Z :=
  match d with
  | forward => 0
  | right => 1
  | backward => 2
  | left => 3
  end.

Definition name (d : Direction) : string :=
  match d with
  | forward => "forward"
  | right => "right"
  | backward => "backward"
  | left => "left"
  end.

(** [Direction(v)]: the member with value [v]; [ValueError] otherwise. *)
Definition Direction_of_value (v : Z) : result Direction :=
  match v with
  | 0 => Ok forward
  | 1 => Ok right
  | 2 => Ok backward
  | 3 => Ok left
  | _ => Raise ValueError
  end.

(** [Direction[s]]: the member named [s]; [KeyError] otherwise. *)
Definition Direction_of_name (s : string) : result Direction :=
  if String.eqb s "forward" then Ok forward
  else if String.eqb s "right" then Ok right
  else if String.eqb s "backward" then Ok backward
  else if String.eqb s "left" then Ok left
  else Raise KeyError.

Definition Direction_eqb (a b : Direction) : bool := Z.eqb (value a) (value b).

(** [__add__] and [__sub__] as written: arithmetic modulo 4 on the values,
    then the enumeration's constructor, which is where an error could come
    from. *)
Definition dunder_add (a b : Direction) : result Direction :=
  Direction_of_value ((value a + value b) mod 4).

Definition dunder_sub (a b : Direction) : result Direction :=
  Direction_of_value ((value a - value b) mod 4).

(** The constructor never fails on a residue modulo 4, so the rest of the
    development uses the total operators [add] and [sub]; [dunder_add_total]
    and [dunder_sub_total] relate them to the definitions above. *)
Definition add (a b : Direction) : Direction :=
  match dunder_add a b with
  | Ok d => d
  | Raise _ => a
  end.

Definition sub (a b : Direction) : Direction :=
  match dunder_sub a b with
  | Ok d => d
  | Raise _ => a
  end.

Definition opposite (a : Direction) : Direction := add a backward.

(** [DIRECTIONS[self.value]]: a one-character string. *)
Definition letter (a : Direction) : result string :=
  match String.get (Z.to_nat (value a)) DIRECTIONS with
  | Some c => Ok (String c EmptyString)
  | None => Raise IndexError
  end.

(** [letter_dir] (lines 48-49).  [str.index] searches for a substring and
    raises [ValueError] when there is none. *)
Definition str_index (hay needle : string) : result Z :=
  match String.index 0 needle hay with
  | Some n => Ok (Z.of_nat n)
  | None => Raise ValueError
  end.

Definition letter_dir (s : string) : result Direction :=
  i <- str_index DIRECTIONS s ;;
  Direction_of_value i.

(** ** Python containers

    A [dict] is an association list in insertion order with distinct keys:
    assigning to a key that is present replaces its value in place, assigning
    to a new key appends.  A list is indexed the way Python indexes it:
    negative indices count from the end, anything else out of range raises
    [IndexError]. *)

Section Dict.
Context {K V : Type} (eqb : K -> K -> bool).

Fixpoint dict_get (k : K) (d : list (K * V)) : option V :=
  match d with
  | [] => None
  | (k', v) :: r => if eqb k k' then Some v else dict_get k r
  end.

Definition dict_mem (k : K) (d : list (K * V)) : bool :=
  match dict_get k d with
  | Some _ => true
  | None => false
  end.

Fixpoint dict_set (k : K) (v : V) (d : list (K * V)) : list (K * V) :=
  match d with
  | [] => [(k, v)]
  | (k', v') :: r =>
      if eqb k k' then (k', v) :: r else (k', v') :: dict_set k v r
  end.

(** The dict built by assigning the pairs one after the other. *)
Definition dict_of_pairs (l : list (K * V)) : list (K * V) :=
  fold_left (fun d kv => dict_set (fst kv) (snd kv) d) l [].

Definition dict_keys (d : list (K * V)) : list K := map fst d.
End Dict.

Definition py_len {A} (l : list A) : Z := Z.of_nat (List.length l).

(** The position that index [i] denotes in a list of length [n]. *)
Definition py_pos (n : nat) (i : Z) : result nat :=
  if (0 <=? i) && (i <? Z.of_nat n) then Ok (Z.to_nat i)
  else if (i <? 0) && (0 <=? i + Z.of_nat n) then Ok (Z.to_nat (i + Z.of_nat n))
  else Raise IndexError.

Definition py_get {A} (l : list A) (i : Z) : result A :=
  p <- py_pos (List.length l) i ;;
  of_option IndexError (nth_error l p).

Fixpoint update_nth {A} (p : nat) (f : A -> A) (l : list A) : list A :=
  match l, p with
  | [], _ => []
  | x :: r, O => f x :: r
  | x :: r, S p' => x :: update_nth p' f r
  end.

(** [l[i]] is read and the object found there is changed by [f]. *)
Definition py_modify {A} (l : list A) (i : Z) (f : A -> A) : result (list A) :=
  p <- py_pos (List.length l) i ;;
  Ok (update_nth p f l).

(** [l[-1]] *)
Definition py_last {A} (l : list A) : result A := py_get l (-1).

(** [l[:-1]] *)
Definition py_init {A} (l : list A) : list A := removelast l.

(** A set of directions.  The members hash to their values 0..3, so CPython
    keeps such a set in a table of eight slots with every member in the slot
    of its value and iterates it in that order: the model keeps the members
    in ascending order of value, without repetition. *)
Definition all_directions : list Direction := [forward; right; backward; left].

Definition set_of (l : list Direction) : list Direction :=
  filter (fun d => existsb (Direction_eqb d) l) all_directions.

Definition set_add (d : Direction) (s : list Direction) : list Direction :=
  set_of (d :: s).

Fixpoint dirs_eqb (a b : list Direction) : bool :=
  match a, b with
  | [], [] => true
  | x :: a', y :: b' => Direction_eqb x y && dirs_eqb a' b'
  | _, _ => false
  end.

(** [d.keys() == s] for a dict keyed by directions and a set [s]. *)
Definition keys_eq_set (ks s : list Direction) : bool :=
  dirs_eqb (set_of ks) (set_of s).

Definition string_of_Z (z : Z) : string := NilZero.string_of_int (Z.to_int z).

(** [' '.join(l)] *)
Definition join_space (l : list string) : string := String.concat " " l.

Fixpoint mapM {A B} (f : A -> result B) (l : list A) : result (list B) :=
  match l with
  | [] => Ok []
  | x :: r => y <- f x ;; ys <- mapM f r ;; Ok (y :: ys)
  end.

(** ** Python values

    What [json.load] returns and [json.dump] accepts: dicts keyed by strings
    or, once the decoder's hook has run, by directions.  A JSON document is
    such a value without directions; the members of an object are kept as the
    text lists them.  The file is taken to hold the document: the characters
    that [json.dump] writes and [json.load] parses are not modelled, nor are
    floats and booleans, which the database does not contain. *)

Inductive pykey : Type :=
| KStr (s : string)
| KDir (d : Direction).

#[local] Set Warnings "-register-all".
Inductive pyval : Type :=
| PNone
| PInt (z : Z)
| PStr (s : string)
| PDir (d : Direction)
| PList (l : list pyval)
| PDict (m : list (pykey * pyval)).

Definition pykey_eqb (a b : pykey) : bool :=
  match a, b with
  | KStr s, KStr t => String.eqb s t
  | KDir d, KDir e => Direction_eqb d e
  | _, _ => false
  end.

Definition pyval_of_key (k : pykey) : pyval :=
  match k with
  | KStr s => PStr s
  | KDir d => PDir d
  end.

Abbreviation pydict := (list (pykey * pyval)).
Abbreviation py_lookup k d := (dict_get pykey_eqb k d).
Abbreviation py_assign k v d := (dict_set pykey_eqb k v d).

(** ** MyDecoder (lines 29-38) *)

(** [Direction[v]]: a lookup in the table of member names. *)
Definition Direction_getitem (v : pyval) : result Direction :=
  match v with
  | PStr s => Direction_of_name s
  | PList _ | PDict _ => Raise TypeError
  | _ => Raise KeyError
  end.

(** [{Direction[d]: v for d, v in items}] *)
Fixpoint direction_keys (items acc : pydict) : result pydict :=
  match items with
  | [] => Ok acc
  | (k, v) :: r =>
      d <- Direction_getitem (pyval_of_key k) ;;
      direction_keys r (py_assign (KDir d) v acc)
  end.

Definition object_hook (obj : pydict) : result pyval :=
  if dict_mem pykey_eqb (KStr "afterturn") obj then
    v <- of_option KeyError (py_lookup (KStr "afterturn") obj) ;;
    d <- Direction_getitem v ;;
    Ok (PDict (py_assign (KStr "afterturn") (PDir d) obj))
  else if dict_mem pykey_eqb (KStr "branches") obj then
    b <- of_option KeyError (py_lookup (KStr "branches") obj) ;;
    match b with
    | PDict items =>
        new <- direction_keys items [] ;;
        Ok (PDict (py_assign (KStr "branches") (PDict new) obj))
    | _ => Raise AttributeError
    end
  else Ok (PDict obj).

(** [json.load(f, cls=MyDecoder)] on a parsed document: every object becomes
    a dict (a repeated member name keeps its first position and its last
    value) and is then passed through [object_hook], innermost first. *)
Fixpoint json_load (j : pyval) : result pyval :=
  match j with
  | PList l =>
      l' <- (fix go (l : list pyval) : result (list pyval) :=
               match l with
               | [] => Ok []
               | x :: r => x' <- json_load x ;; r' <- go r ;; Ok (x' :: r')
               end) l ;;
      Ok (PList l')
  | PDict m =>
      m' <- (fix go (m : pydict) : result pydict :=
               match m with
               | [] => Ok []
               | (k, v) :: r =>
                   v' <- json_load v ;; r' <- go r ;; Ok ((k, v') :: r')
               end) m ;;
      object_hook (dict_of_pairs pykey_eqb m')
  | _ => Ok j
  end.

(** [json.dump]: a key that is not a string is an [int] here (an [IntEnum]
    member) and is written as its decimal value, as is a member used as a
    value. *)
Definition json_key (k : pykey) : string :=
  match k with
  | KStr s => s
  | KDir d => string_of_Z (value d)
  end.

Fixpoint json_dump (v : pyval) : pyval :=
  match v with
  | PDir d => PInt (value d)
  | PList l => PList (map json_dump l)
  | PDict m =>
      PDict ((fix go (m : pydict) : pydict :=
                match m with
                | [] => []
                | (k, v) :: r => (KStr (json_key k), json_dump v) :: go r
                end) m)
  | _ => v
  end.

(** ** The database

    In memory the database is a dict with the two lists ['nodes'] and
    ['log'].  The commands work on it through the fields below; [extras]
    holds whatever else a node dict carries besides ['branches'] and
    ['description'], in insertion order.  A node id is a Python [int]: it can
    come from the operator and may be negative. *)

Record Node : Type := mkNode {
  branches : list (Direction * option Z);
  description : string;
  extras : list (pykey * Z)
}.

Record LogEntry : Type := mkLogEntry {
  afterturn : Direction;
  time_enter : string;
  node : Z
}.

Record DB : Type := mkDB {
  nodes : list Node;
  log : list LogEntry
}.

Definition pyval_of_id (v : option Z) : pyval :=
  match v with
  | None => PNone
  | Some z => PInt z
  end.

(** The dict that a node is, and back. *)
Definition node_to_py (n : Node) : pydict :=
  (KStr "branches",
   PDict (map (fun b => (KDir (fst b), pyval_of_id (snd b))) (branches n)))
  :: (KStr "description", PStr (description n))
  :: map (fun e => (fst e, PInt (snd e))) (extras n).

Definition entry_to_py (e : LogEntry) : pydict :=
  [ (KStr "afterturn", PDir (afterturn e));
    (KStr "time_enter", PStr (time_enter e));
    (KStr "node", PInt (node e)) ].

Definition branch_of_py (kv : pykey * pyval) : result (Direction * option Z) :=
  match kv with
  | (KDir d, PNone) => Ok (d, None)
  | (KDir d, PInt z) => Ok (d, Some z)
  | _ => Raise NotModelled
  end.

Definition extra_of_py (kv : pykey * pyval) : result (pykey * Z) :=
  match kv with
  | (k, PInt z) => Ok (k, z)
  | _ => Raise NotModelled
  end.

Definition is_schema_key (k : pykey) : bool :=
  pykey_eqb k (KStr "branches") || pykey_eqb k (KStr "description").

(** The typed view of a dict covers the dicts whose items come in the order
    in which the program makes them, which is the order in which it writes
    and reads them back (a Python dict keeps the order of insertion, and
    [json] follows it both ways): ['branches'], ['description'] and then
    whatever else the node carries; ['afterturn'], ['time_enter'], ['node'];
    ['nodes'], ['log'].  Any other dict is outside the view. *)
Definition key_is (s : string) (k : pykey) : bool := pykey_eqb k (KStr s).

Definition node_of_py (v : pyval) : result Node :=
  match v with
  | PDict ((kb, PDict items) :: (kd, PStr s) :: rest) =>
      if key_is "branches" kb && key_is "description" kd
         && forallb (fun kv => negb (is_schema_key (fst kv))) rest
      then
        bs <- mapM branch_of_py items ;;
        ex <- mapM extra_of_py rest ;;
        Ok (mkNode bs s ex)
      else Raise NotModelled
  | _ => Raise NotModelled
  end.

Definition entry_of_py (v : pyval) : result LogEntry :=
  match v with
  | PDict [(ka, PDir d); (kt, PStr t); (kn, PInt n)] =>
      if key_is "afterturn" ka && key_is "time_enter" kt && key_is "node" kn
      then Ok (mkLogEntry d t n)
      else Raise NotModelled
  | _ => Raise NotModelled
  end.

Definition db_of_py (v : pyval) : result DB :=
  match v with
  | PDict [(kn, PList ns); (kl, PList es)] =>
      if key_is "nodes" kn && key_is "log" kl then
        ns' <- mapM node_of_py ns ;;
        es' <- mapM entry_of_py es ;;
        Ok (mkDB ns' es')
      else Raise NotModelled
  | _ => Raise NotModelled
  end.

(** What [json.load(f, cls=MyDecoder)] gives the commands: an exception of
    the decoder, the database in its typed view, or [NotModelled] for a
    document that the decoder accepts and the typed view does not cover. *)
Definition load (j : pyval) : result DB :=
  v <- json_load j ;;
  db_of_py v.

(** ** dump_dbfile (lines 40-46)

    [dump_dbfile] rebinds [db] to a deep copy and then assigns into the node
    and entry dicts of that copy.  To tell the copy from the caller's
    database, those dicts live in a store and the two lists of the database
    hold their addresses; an address that the store lacks cannot arise in
    Python and is reported as [NotModelled]. *)

Abbreviation loc := nat.
Abbreviation store := (list pydict).

Record dbref : Type := mkDbref {
  ref_nodes : list loc;
  ref_log : list loc
}.

Definition deref (h : store) (l : loc) : result pydict :=
  of_option NotModelled (nth_error h l).

Fixpoint memo_get (l : loc) (memo : list (loc * loc)) : option loc :=
  match memo with
  | [] => None
  | (a, b) :: r => if Nat.eqb l a then Some b else memo_get l r
  end.

(** [deepcopy] of a list of dicts: each dict is copied to a fresh address,
    once; the memo sends a dict met again to the copy already made. *)
Fixpoint deepcopy_refs (h : store) (memo : list (loc * loc)) (ls : list loc)
  : result (store * list (loc * loc) * list loc) :=
  match ls with
  | [] => Ok (h, memo, [])
  | l :: r =>
      match memo_get l memo with
      | Some l' =>
          '(h', memo', r') <- deepcopy_refs h memo r ;;
          Ok (h', memo', l' :: r')
      | None =>
          c <- deref h l ;;
          let l' := List.length h in
          '(h', memo', r') <- deepcopy_refs (h ++ [c]) ((l, l') :: memo) r ;;
          Ok (h', memo', l' :: r')
      end
  end.

Definition deepcopy (h : store) (db : dbref) : result (store * dbref) :=
  '(h1, memo1, ns) <- deepcopy_refs h [] (ref_nodes db) ;;
  '(h2, _, es) <- deepcopy_refs h1 memo1 (ref_log db) ;;
  Ok (h2, mkDbref ns es).

(** [{d.name: v for d, v in items}] *)
Fixpoint name_keys (items acc : pydict) : result pydict :=
  match items with
  | [] => Ok acc
  | (KDir d, v) :: r => name_keys r (py_assign (KStr (name d)) v acc)
  | (KStr _, _) :: _ => Raise AttributeError
  end.

(** [node['branches'] = {d.name: v for d, v in node['branches'].items()}] *)
Definition name_branches (nd : pydict) : result pydict :=
  b <- of_option KeyError (py_lookup (KStr "branches") nd) ;;
  match b with
  | PDict items =>
      new <- name_keys items [] ;;
      Ok (py_assign (KStr "branches") (PDict new) nd)
  | _ => Raise AttributeError
  end.

(** [entry['afterturn'] = entry['afterturn'].name] *)
Definition name_afterturn (entry : pydict) : result pydict :=
  a <- of_option KeyError (py_lookup (KStr "afterturn") entry) ;;
  match a with
  | PDir d => Ok (py_assign (KStr "afterturn") (PStr (name d)) entry)
  | _ => Raise AttributeError
  end.

(** A [for] loop that changes the dict at each address of [ls] in turn. *)
Fixpoint for_each (f : pydict -> result pydict) (h : store) (ls : list loc)
  : result store :=
  match ls with
  | [] => Ok h
  | l :: r =>
      c <- deref h l ;;
      c' <- f c ;;
      for_each f (update_nth l (fun _ => c') h) r
  end.

(** The store after the call, and the document written to [f]. *)
Definition dump_dbfile (h : store) (db : dbref) : result (store * pyval) :=
  '(h1, db1) <- deepcopy h db ;;
  h2 <- for_each name_branches h1 (ref_nodes db1) ;;
  h3 <- for_each name_afterturn h2 (ref_log db1) ;;
  ns <- mapM (deref h3) (ref_nodes db1) ;;
  es <- mapM (deref h3) (ref_log db1) ;;
  Ok (h3, json_dump (PDict [ (KStr "nodes", PList (map PDict ns));
                             (KStr "log", PList (map PDict es)) ])).

(** The database of a command is held by that command alone: its dicts are
    put in a store of their own, nodes first. *)
Definition store_db (db : DB) : store * dbref :=
  (map node_to_py (nodes db) ++ map entry_to_py (log db),
   mkDbref (seq 0 (List.length (nodes db)))
           (seq (List.length (nodes db)) (List.length (log db)))).

(** The database that [db] refers to in store [h]. *)
Definition fetch_db (h : store) (db : dbref) : result DB :=
  ns <- mapM (fun l => c <- deref h l ;; node_of_py (PDict c)) (ref_nodes db) ;;
  es <- mapM (fun l => c <- deref h l ;; entry_of_py (PDict c)) (ref_log db) ;;
  Ok (mkDB ns es).

Definition serialize (db : DB) : result pyval :=
  let '(h, r) := store_db db in
  '(_, j) <- dump_dbfile h r ;;
  Ok j.

(** ** Console output

    A command prints lines and either finishes or raises; what was printed
    before an exception stays printed. *)

Definition io (A : Type) : Type := (list string * result A)%type.

Definition io_ret {A} (a : A) : io A := ([], Ok a).

Definition io_bind {A B} (m : io A) (k : A -> io B) : io B :=
  match m with
  | (out, Ok a) => (out ++ fst (k a), snd (k a))
  | (out, Raise e) => (out, Raise e)
  end.

Definition print (s : string) : io unit := ([s], Ok tt).

Definition lift {A} (r : result A) : io A := ([], r).

Notation "x <~ m ;; k" := (io_bind m (fun x => k))
  (at level 61, m at next level, right associativity).
Notation "m ;;; k" := (io_bind m (fun _ => k))
  (at level 61, right associativity).

Fixpoint print_all (l : list string) : io unit :=
  match l with
  | [] => io_ret tt
  | s :: r => print s ;;; print_all r
  end.

(** ** fork: where are we? (lines 77-134) *)

(** The operator's reply at the prompt, as [int(choice)] sees it: an integer,
    or text for which it raises [ValueError]. *)
Inductive answer : Type :=
| Index (z : Z)
| Text (s : string).

Definition chars (s : string) : list string :=
  map (fun c => String c EmptyString) (list_ascii_of_string s).

(** [node['branches'].get(d)]: [None] for a missing key and for an unexplored
    branch alike. *)
Definition branch_get (d : Direction) (nd : Node) : option Z :=
  match dict_get Direction_eqb d (branches nd) with
  | Some v => v
  | None => None
  end.

Definition branch_keys (nd : Node) : list Direction := dict_keys (branches nd).

Definition id_eqb (a b : option Z) : bool :=
  match a, b with
  | None, None => true
  | Some x, Some y => Z.eqb x y
  | _, _ => false
  end.

(** Lines 85-87: the first node, in list order, whose branch towards
    [behind] is [last_node_id]; counting starts at [n]. *)
Fixpoint find_known (behind : Direction) (last_node_id : Z) (n : Z)
  (ns : list Node) : option (Z * Node) :=
  match ns with
  | [] => None
  | nd :: r =>
      if id_eqb (branch_get behind nd) (Some last_node_id) then Some (n, nd)
      else find_known behind last_node_id (n + 1) r
  end.

(** Lines 109-111 and 129-131. *)
Definition new_node (abs_branches : list Direction) (behind : Direction)
  (last_node_id : Z) (descr : string) : Node :=
  mkNode (dict_set Direction_eqb behind (Some last_node_id)
            (map (fun d => (d, None)) abs_branches))
         descr [].

(** Lines 115-117.  The second test is only reached when the key sets agree,
    and then [behind] is a key. *)
Fixpoint possible (abs_branches : list Direction) (behind : Direction) (n : Z)
  (ns : list Node) : list (Z * Node) :=
  match ns with
  | [] => []
  | nd :: r =>
      if keys_eq_set (branch_keys nd) abs_branches
         && match dict_get Direction_eqb behind (branches nd) with
            | Some None => true
            | _ => false
            end
      then (n, nd) :: possible abs_branches behind (n + 1) r
      else possible abs_branches behind (n + 1) r
  end.

(** [node['branches'][d] = v] *)
Definition set_branch (d : Direction) (v : option Z) (nd : Node) : Node :=
  mkNode (dict_set Direction_eqb d v (branches nd)) (description nd)
    (extras nd).

(** [node[d] = v]: an item of the node dict itself. *)
Definition set_item (d : Direction) (v : Z) (nd : Node) : Node :=
  mkNode (branches nd) (description nd)
    (dict_set pykey_eqb (KDir d) v (extras nd)).

Definition conflict_report (node_id : Z) (nd : Node)
  (branches : list Direction) (currently_facing : Direction) : list string :=
  [ "Something is wrong!";
    String.append "It looks like you're at node " (string_of_Z node_id);
    String.append "(" (String.append (description nd) ")");
    String.append "But you gave directions:   "
      (join_space (map name branches));
    String.append "That conflict with stored: "
      (join_space
         (map (fun x => name (sub x currently_facing)) (branch_keys nd)));
    "Exiting without saving changes." ].

Definition choice_line (c : Z * Node) : string :=
  String.append (string_of_Z (fst c))
    (String.append ": " (description (snd c))).

(** ** fork: where next? (lines 138-188) *)

(** [distance] and [parent] are keyed by a node id or by [None], the
    unexplored placeholder; [parent] holds [None] for the start node and a
    pair (node id, direction) otherwise. *)
Record bfs_state : Type := mkBfs {
  distance : list (option Z * Z);
  parent : list (option Z * option (Z * Direction));
  frontier : list (option Z);
  found_unexplored : bool
}.

(** [sorted(keys, key=lambda x: x - currently_facing + Direction.right,
    reverse=True)]: a stable sort into descending order of the key. *)
Definition turn_key (currently_facing x : Direction) : Z :=
  value (add (sub x currently_facing) right).

Fixpoint insert_desc (key : Direction -> Z) (x : Direction)
  (l : list Direction) : list Direction :=
  match l with
  | [] => [x]
  | y :: r => if key y <=? key x then x :: y :: r else y :: insert_desc key x r
  end.

Definition sorted_desc (key : Direction -> Z) (l : list Direction)
  : list Direction :=
  fold_right (insert_desc key) [] l.

(** [d - currently_facing == force_turn]; without a third argument
    [force_turn] is the empty string, equal to no direction. *)
Definition is_forced (force_turn : option Direction) (rel : Direction) : bool :=
  match force_turn with
  | Some f => Direction_eqb rel f
  | None => false
  end.

(** The [for] loop of lines 150-161 over the remaining directions [ds] of
    the node [current]; a [break] leaves it with the state reached. *)
Fixpoint expand (node_id : Z) (currently_facing : Direction)
  (force_turn : option Direction) (current : Z) (current_node : Node)
  (ds : list Direction) (st : bfs_state) : result bfs_state :=
  match ds with
  | [] => Ok st
  | d :: ds' =>
      next_id <- of_option KeyError
                   (dict_get Direction_eqb d (branches current_node)) ;;
      if id_eqb next_id None || negb (dict_mem id_eqb next_id (distance st))
      then
        dc <- of_option KeyError
                (dict_get id_eqb (Some current) (distance st)) ;;
        let distance' := dict_set id_eqb next_id (dc + 1) (distance st) in
        let parent' :=
          dict_set id_eqb next_id (Some (current, d)) (parent st) in
        if id_eqb next_id None then
          if Z.eqb current node_id
             && is_forced force_turn (sub d currently_facing)
          then Ok (mkBfs distance' parent' (frontier st) true)
          else expand node_id currently_facing force_turn current current_node
                 ds' (mkBfs distance' parent' (frontier st ++ [next_id]) true)
        else expand node_id currently_facing force_turn current current_node
               ds' (mkBfs distance' parent' (frontier st ++ [next_id])
                      (found_unexplored st))
      else expand node_id currently_facing force_turn current current_node
             ds' st
  end.

(** One turn of the [while] loop (lines 148-163) on the popped value
    [popped]: indexing the node list with [None] is a [TypeError]. *)
Definition bfs_step (ns : list Node) (node_id : Z)
  (currently_facing : Direction) (force_turn : option Direction)
  (popped : option Z) (st : bfs_state) : result bfs_state :=
  current <- of_option TypeError popped ;;
  current_node <- py_get ns current ;;
  expand node_id currently_facing force_turn current current_node
    (sorted_desc (turn_key currently_facing) (branch_keys current_node)) st.

Fixpoint bfs_loop (fuel : nat) (ns : list Node) (node_id : Z)
  (currently_facing : Direction) (force_turn : option Direction)
  (st : bfs_state) : result bfs_state :=
  match frontier st with
  | [] => Ok st
  | popped :: rest =>
      match fuel with
      | O => Raise OutOfFuel
      | S fuel' =>
          st' <- bfs_step ns node_id currently_facing force_turn popped
                   (mkBfs (distance st) (parent st) rest
                      (found_unexplored st)) ;;
          if found_unexplored st' then Ok st'
          else bfs_loop fuel' ns node_id currently_facing force_turn st'
      end
  end.

Definition bfs_init (node_id : Z) : bfs_state :=
  mkBfs [(Some node_id, 0)] [(Some node_id, None)] [Some node_id] false.

(** Every turn of the loop but the first pops an id that some branch of the
    graph holds and that was unseen until then, so one more turn than there
    are branches is enough. *)
Definition bfs_fuel (ns : list Node) : nat :=
  S (List.length (List.concat (map branches ns))).

Definition bfs (ns : list Node) (node_id : Z) (currently_facing : Direction)
  (force_turn : option Direction) : result bfs_state :=
  bfs_loop (bfs_fuel ns) ns node_id currently_facing force_turn
    (bfs_init node_id).

(** Lines 168-171: from node 0 along the parents up to the start node. *)
Fixpoint path_to_root (fuel : nat)
  (parent : list (option Z * option (Z * Direction))) (current : Z)
  (directions : list (Z * Direction)) : result (list (Z * Direction)) :=
  p <- of_option KeyError (dict_get id_eqb (Some current) parent) ;;
  match p with
  | None => Ok directions
  | Some (c, d) =>
      match fuel with
      | O => Raise OutOfFuel
      | S fuel' => path_to_root fuel' parent c (directions ++ [(c, d)])
      end
  end.

(** Lines 172-176: one line per hop, the facing direction carried along. *)
Fixpoint print_hops (ns : list Node) (currently_facing : Direction)
  (hops : list (Z * Direction)) : io unit :=
  match hops with
  | [] => io_ret tt
  | (nid, t) :: r =>
      nd <~ lift (py_get ns nid) ;;
      print (join_space [string_of_Z nid;
                         name (sub t currently_facing);
                         description nd]) ;;;
      print_hops ns t r
  end.

(** The number of parent links from key [k] back to the start node is the
    distance recorded for [k]; it bounds the two loops that follow the
    parents. *)
Definition hops (distance : list (option Z * Z)) (k : option Z) : nat :=
  match dict_get id_eqb k distance with
  | Some v => Z.to_nat v
  | None => O
  end.

(** Lines 181-183: from the placeholder along the parents until the start
    node is reached; [d] is the direction of the last pair read.  The
    placeholder differs from every node id, so the loop body runs at least
    once before [d] is used. *)
Fixpoint first_hop (fuel : nat)
  (parent : list (option Z * option (Z * Direction))) (node_id : Z)
  (current : option Z) (d : Direction) : result Direction :=
  if id_eqb current (Some node_id) then Ok d
  else
    p <- of_option KeyError (dict_get id_eqb current parent) ;;
    match p with
    | Some (c, d') =>
        match fuel with
        | O => Raise OutOfFuel
        | S fuel' => first_hop fuel' parent node_id (Some c) d'
        end
    | None => Raise TypeError
    end.

Definition guide (ns : list Node) (node_id : Z) (currently_facing : Direction)
  (force_turn : option Direction) (time : string) : io LogEntry :=
  st <~ lift (bfs ns node_id currently_facing force_turn) ;;
  if negb (found_unexplored st) then
    print "You are done exploring! To get back to root:" ;;;
    directions <~ lift (path_to_root (hops (distance st) (Some 0)) (parent st)
                          0 []) ;;
    print_hops ns currently_facing (rev directions) ;;;
    io_ret (mkLogEntry forward time node_id)
  else
    d <~ lift (first_hop (hops (distance st) None) (parent st) node_id None
                 currently_facing) ;;
    print (String.append "You should turn " (name (sub d currently_facing))) ;;;
    io_ret (mkLogEntry d time node_id).

(** ** The commands (lines 51-208) *)

(** Lines 77-105 and 106-132: the database after the explorer's place has
    been settled, with the id of that place; no result when the stored
    topology contradicts the report and the command returns early. *)
Definition identify (dirs : string) (choice : answer) (db : DB)
  : io (option (DB * Z)) :=
  last <~ lift (py_last (log db)) ;;
  let currently_facing := afterturn last in
  let behind := opposite currently_facing in
  ls <~ lift (mapM letter_dir (chars dirs)) ;;
  let branches := set_of ls in
  let abs_branches :=
    set_add behind (set_of (map (fun x => add x currently_facing) branches)) in
  let last_node_id := node last in
  match find_known behind last_node_id 0 (nodes db) with
  | Some (node_id, nd) =>
      if negb (keys_eq_set (branch_keys nd) abs_branches) then
        print_all (conflict_report node_id nd branches currently_facing) ;;;
        io_ret None
      else
        print (String.append "You are at node "
                 (String.append (string_of_Z node_id)
                    (String.append " ("
                       (String.append (description nd) ")")))) ;;;
        ns <~ lift (py_modify (nodes db) last_node_id
                      (set_item currently_facing node_id)) ;;
        io_ret (Some (mkDB ns (log db), node_id))
  | None =>
      if py_len branches <=? 1 then
        io_ret (Some (mkDB (nodes db
                              ++ [new_node abs_branches behind last_node_id
                                    EmptyString])
                        (log db),
                      py_len (nodes db)))
      else
        print "Pick the node you are on, or type a new description:" ;;;
        print_all
          (map choice_line (possible abs_branches behind 0 (nodes db))) ;;;
        match choice with
        | Index node_id =>
            _ <~ lift (py_get (nodes db) node_id) ;;
            io_ret (Some (db, node_id))
        | Text descr =>
            io_ret (Some (mkDB (nodes db
                                  ++ [new_node abs_branches behind last_node_id
                                        descr])
                            (log db),
                          py_len (nodes db)))
        end
  end.

(** Lines 134-188: link the previous node to the place found, search, and
    append the log entry. *)
Definition link_and_guide (force_turn : option Direction) (time : string)
  (last : LogEntry) (db : DB) (node_id : Z) : io DB :=
  ns <~ lift (py_modify (nodes db) (node last)
                (set_branch (afterturn last) (Some node_id))) ;;
  entry <~ guide ns node_id (afterturn last) force_turn time ;;
  io_ret (mkDB ns (log db ++ [entry])).

(** The body of the [fork] command between loading and saving; [None] when
    it returns without saving. *)
Definition fork (dirs : string) (force_turn : option Direction)
  (time : string) (choice : answer) (db : DB) : io (option DB) :=
  r <~ identify dirs choice db ;;
  match r with
  | None => io_ret None
  | Some (db1, node_id) =>
      last <~ lift (py_last (log db)) ;;
      db2 <~ link_and_guide force_turn time last db1 node_id ;;
      io_ret (Some db2)
  end.

(** Lines 199-204. *)
Definition undo (db : DB) : io DB :=
  last <~ lift (py_last (log db)) ;;
  let last_node_id := node last in
  _ <~ lift (py_get (nodes db) last_node_id) ;;
  ns <~ (if last_node_id =? py_len (nodes db) - 1
         then print "Deleting last node" ;;; io_ret (py_init (nodes db))
         else io_ret (nodes db)) ;;
  io_ret (mkDB ns (py_init (log db))).

(** Lines 57-61. *)
Definition begin (time : string) : DB :=
  mkDB [mkNode [(forward, None)] "root node" []]
       [mkLogEntry forward time 0].

(** The file named [nodes]: not there, empty, holding a document, or in a
    state that the model does not describe. *)
Inductive file : Type :=
| Absent
| Truncated
| Document (j : pyval)
| Unknown.

Definition read_db (f : file) : result DB :=
  match f with
  | Absent => Raise FileNotFoundError
  | Truncated => Raise ValueError
  | Document j => load j
  | Unknown => Raise NotModelled
  end.

Record outcome : Type := mkOutcome {
  printed : list string;
  raised : option exn;
  db_file : file
}.

(** [with open(db_fname, 'w') as f: dump_dbfile(db, f)], with the lines
    printed around it: opening for writing empties the file. *)
Definition save (before : list string) (after : list string) (db : DB)
  : outcome :=
  match serialize db with
  | Ok j => mkOutcome (before ++ after) None (Document j)
  | Raise e => mkOutcome before (Some e) Truncated
  end.

Definition arg (argv : list string) (i : nat) : result string :=
  of_option IndexError (nth_error argv i).

(** The end of an invocation that could not read the database.  A Python
    exception raised by [open] or by [json.load] ends it with nothing
    printed and the file as it was.  [NotModelled] is no exception: the
    program has read a document that the typed view does not cover and goes
    on with it, and the model does not follow it there.  The outcome is then
    [unmodelled], which stands for no run of the program: it names no Python
    exception and leaves the file [Unknown]. *)
Definition unmodelled : outcome := mkOutcome [] (Some NotModelled) Unknown.

Definition not_read (e : exn) (f : file) : outcome :=
  match e with
  | NotModelled => unmodelled
  | _ => mkOutcome [] (Some e) f
  end.

(** [main]: [argv] is [sys.argv], [time] what [datetime.now().isoformat()]
    returns, [choice] the operator's reply should the prompt be reached, and
    [f] the database file before the invocation.  On a file that [read_db]
    does not cover the outcome is [unmodelled]. *)
Definition main (argv : list string) (time : string) (choice : answer)
  (f : file) : outcome :=
  match arg argv 1 with
  | Raise e => mkOutcome [] (Some e) f
  | Ok command =>
      if String.eqb command "begin" then
        save [] [] (begin time)
      else if String.eqb command "fork" then
        let dirs :=
          match arg argv 2 with Ok s => s | Raise _ => EmptyString end in
        match (match arg argv 3 with
               | Ok s => d <- letter_dir s ;; Ok (Some d)
               | Raise _ => Ok None
               end) with
        | Raise e => mkOutcome [] (Some e) f
        | Ok force_turn =>
            match read_db f with
            | Raise e => not_read e f
            | Ok db =>
                match fork dirs force_turn time choice db with
                | (out, Raise e) => mkOutcome out (Some e) f
                | (out, Ok None) => mkOutcome out None f
                | (out, Ok (Some db')) =>
                    save (out ++ ["Saving database..."]) ["Done!"] db'
                end
            end
        end
      else if String.eqb command "undo" then
        match read_db f with
        | Raise e => not_read e f
        | Ok db =>
            match undo db with
            | (out, Raise e) => mkOutcome out (Some e) f
            | (out, Ok db') =>
                save (out ++ ["Saving database..."]) ["Done!"] db'
            end
        end
      else mkOutcome [] None f
  end.

(** ** Vocabulary of the statements *)

(** The expected branch set of lines 79-81. *)
Definition abs_branches_of (currently_facing : Direction)
  (ls : list Direction) : list Direction :=
  set_add (opposite currently_facing)
    (set_of (map (fun x => add x currently_facing) (set_of ls))).

(** The optional third argument is a direction letter. *)
Definition force_arg_ok (args : list string) : Prop :=
  match tl args with
  | [] => True
  | s :: _ => exists d, letter_dir s = Ok d
  end.

(** A session: invocations of the program one after the other on the same
    file, each with the arguments after the program name and the operator's
    reply; all at the same clock reading, which nothing depends on. *)
Definition invocation : Type := (list string * answer)%type.

Definition invoke (time : string) (c : invocation) (f : file) : outcome :=
  main ("indoor_mapper.py" :: fst c) time (snd c) f.

Definition session (time : string) (cs : list invocation) : file :=
  fold_left (fun f c => db_file (invoke time c f)) cs Absent.

Definition no_reply : answer := Text EmptyString.

(** Scenario A as the specification words it: after [begin], a fork with no
    reported passage makes node 1 straight ahead of the root, with the branch
    back to the root as its only one, and the explorer is told to go forward
    rather than that the exploration is over. *)
Definition scenario_A_as_specified (time : string) : Prop :=
  let o := invoke time (["fork"; EmptyString], no_reply)
             (session time [(["begin"], no_reply)]) in
  (exists lg,
      read_db (db_file o)
      = Ok (mkDB [ mkNode [(forward, Some 1)] "root node" [];
                   mkNode [(backward, Some 0)] EmptyString [] ] lg)) /\
  In "You should turn forward" (printed o) /\
  ~ In "You are done exploring! To get back to root:" (printed o).

(** A loop: the passage to the left of node 1 leads back to node 1, which the
    operator recognises in the list of candidates. *)
Definition loop_session : list invocation :=
  [ (["begin"], no_reply);
    (["fork"; "da"], Text "A");
    (["fork"; "wa"], Index 1) ].

(** Node 2 is reached from node 1 twice, then the last step is undone. *)
Definition dangling_session : list invocation :=
  [ (["begin"], no_reply);
    (["fork"; "da"], Text "A");
    (["fork"; EmptyString], no_reply);
    (["fork"; "wd"], no_reply);
    (["fork"; "da"], Index 2);
    (["undo"], no_reply) ].

Definition document_of (f : file) : pyval :=
  match f with
  | Document j => j
  | _ => PNone
  end.

Definition loop_document : pyval :=
  Eval vm_compute in document_of (session "T" loop_session).

Definition dangling_document : pyval :=
  Eval vm_compute in document_of (session "T" dangling_session).

(** An edge of the graph: node [a] has a branch in direction [d] that holds
    the id [b].  The graph is symmetric when every edge has its counterpart
    in the opposite direction. *)
Definition edge (db : DB) (a : Z) (d : Direction) (b : Z) : Prop :=
  exists nd, py_get (nodes db) a = Ok nd /\ branch_get d nd = Some b.

Definition symmetric (db : DB) : Prop :=
  forall a d b, edge db a d b -> edge db b (opposite d) a.

(** The store [h] holds the database [db] at [r]: every address of [r] is
    that of the dict of the corresponding node or entry, and no dict is
    listed twice. *)
Definition holds (h : store) (r : dbref) (db : DB) : Prop :=
  NoDup (ref_nodes r ++ ref_log r) /\
  Forall2 (fun l n => nth_error h l = Some (node_to_py n))
    (ref_nodes r) (nodes db) /\
  Forall2 (fun l e => nth_error h l = Some (entry_to_py e))
    (ref_log r) (log db).

(** The schema of the persisted database: a node is its branches (one slot
    per direction at most) and its description, nothing else. *)
Definition schema_node (n : Node) : Prop :=
  NoDup (branch_keys n) /\ extras n = [].

Definition conforms (db : DB) : Prop := Forall schema_node (nodes db).

(** The dicts that [dump_dbfile] leaves in the copy, and the document it
    writes. *)
Definition named_branches (bs : list (Direction * option Z)) : pydict :=
  fold_left
    (fun acc b => py_assign (KStr (name (fst b))) (pyval_of_id (snd b)) acc)
    bs [].

Definition named_node (n : Node) : pydict :=
  (KStr "branches", PDict (named_branches (branches n)))
  :: (KStr "description", PStr (description n))
  :: map (fun e => (fst e, PInt (snd e))) (extras n).

Definition named_entry (e : LogEntry) : pydict :=
  [ (KStr "afterturn", PStr (name (afterturn e)));
    (KStr "time_enter", PStr (time_enter e));
    (KStr "node", PInt (node e)) ].

Definition encode (db : DB) : pyval :=
  json_dump
    (PDict [ (KStr "nodes", PList (map PDict (map named_node (nodes db))));
             (KStr "log", PList (map PDict (map named_entry (log db)))) ]).

(** The members of a branches object with one member per direction, and the
    node and entry objects of a database that conforms to the schema. *)
Definition plain_branches (bs : list (Direction * option Z)) : pydict :=
  map (fun b => (KStr (name (fst b)), pyval_of_id (snd b))) bs.

Definition plain_node (n : Node) : pyval :=
  PDict [ (KStr "branches", PDict (plain_branches (branches n)));
          (KStr "description", PStr (description n)) ].


(** The frontier holds the placeholder only once an unexplored branch has
    been found. *)
Definition placeholder_free (st : bfs_state) : Prop :=
  found_unexplored st = false -> Forall (fun x => x <> None) (frontier st).

(** The branches of the graph whose target has not been given a distance
    yet: each turn of the search loop that goes on uses up one of them or one
    element of the frontier. *)
Definition unseen (dist : list (option Z * Z)) (b : Direction * option Z)
  : bool :=
  match snd b with
  | Some x => negb (dict_mem id_eqb (Some x) dist)
  | None => false
  end.

Definition pending (ns : list Node) (dist : list (option Z * Z)) : nat :=
  List.length (filter (unseen dist) (List.concat (map branches ns))).

(** What the search keeps true of [distance] and [parent]: the start node
    is at distance 0 and has no parent; every other key with a distance has
    a parent pair whose node is one step nearer; a key without a distance
    has no parent entry. *)
Definition bfs_wf (node_id : Z) (dist : list (option Z * Z))
  (par : list (option Z * option (Z * Direction))) : Prop :=
  dict_get id_eqb (Some node_id) dist = Some 0 /\
  dict_get id_eqb (Some node_id) par = Some None /\
  (forall k v,
      k <> Some node_id ->
      dict_get id_eqb k dist = Some v ->
      exists c d dc,
        dict_get id_eqb k par = Some (Some (c, d)) /\
        dict_get id_eqb (Some c) dist = Some dc /\
        0 <= dc /\ v = dc + 1) /\
  (forall k, dict_get id_eqb k dist = None -> dict_get id_eqb k par = None).

(** ** Vocabulary of the further properties *)

(** What [undo] right after [begin] leaves in the file. *)
Definition emptied_document : pyval :=
  Eval vm_compute in
    document_of (session "T" [(["begin"], no_reply); (["undo"], no_reply)]).

(** What a fork keeps of a node that was there before: its description, and
    every branch slot but the one in the facing direction. *)
Definition kept (facing : Direction) (nd nd' : Node) : Prop :=
  description nd' = description nd /\
  forall d, d <> facing ->
            dict_get Direction_eqb d (branches nd')
            = dict_get Direction_eqb d (branches nd).

(** Node [c] has a branch in direction [d] that holds [t]: the id of a node,
    or [None] when the branch is unexplored. *)
Definition edge_to (ns : list Node) (c : Z) (d : Direction) (t : option Z)
  : Prop :=
  exists nd, py_get ns c = Ok nd /\
             dict_get Direction_eqb d (branches nd) = Some t.

(** A route from node [x] that starts in direction [d] and ends at [t]. *)
Inductive route (ns : list Node) (x : Z) (d : Direction) : option Z -> Prop :=
| route_first t : edge_to ns x d t -> route ns x d t
| route_more c d' t :
    route ns x d (Some c) -> edge_to ns c d' t -> route ns x d t.

(** The nodes that can be reached from node [a] along branches. *)
Inductive reachable (ns : list Node) (a : Z) : Z -> Prop :=
| reach_here : reachable ns a a
| reach_next b d c :
    reachable ns a b -> edge_to ns b d (Some c) -> reachable ns a c.

(** Every parent pair recorded by the search is a branch of the graph. *)
Definition parent_edges (ns : list Node)
  (par : list (option Z * option (Z * Direction))) : Prop :=
  forall k c d, dict_get id_eqb k par = Some (Some (c, d)) -> edge_to ns c d k.

(** All branches of node [x] hold ids that have a distance. *)
Definition explored (ns : list Node) (dist : list (option Z * Z)) (x : Z)
  : Prop :=
  forall nd d v,
    py_get ns x = Ok nd ->
    dict_get Direction_eqb d (branches nd) = Some v ->
    exists y, v = Some y /\ dict_mem id_eqb (Some y) dist = true.

(** While nothing unexplored has been found, a node with a distance is
    waiting in the frontier or has been expanded. *)
Definition frontier_covers (ns : list Node) (st : bfs_state) : Prop :=
  forall x,
    dict_mem id_eqb (Some x) (distance st) = true ->
    In (Some x) (frontier st) \/ explored ns (distance st) x.

Definition done_line : string := "You are done exploring! To get back to root:".

(** A key that can stand beside ['branches'] and ['description'] in the
    object written for a node: its written name is none of the names that
    the decoder or the commands look for. *)
Definition plain_key (k : pykey) : Prop :=
  json_key k <> "afterturn" /\
  json_key k <> "branches" /\
  json_key k <> "description".

(** A node as the commands make them: one branch slot per direction at most,
    and other items only under such keys. *)
Definition sound_node (n : Node) : Prop :=
  NoDup (branch_keys n) /\ Forall (fun e => plain_key (fst e)) (extras n).

Definition sound_db (db : DB) : Prop := Forall sound_node (nodes db).

(** The node read back from what was written for [n]: the other items come
    back under the written names of their keys, a later one replacing an
    earlier one of the same written name. *)
Definition reloaded_node (n : Node) : Node :=
  mkNode (branches n) (description n)
    (dict_of_pairs pykey_eqb
       (map (fun e => (KStr (json_key (fst e)), snd e)) (extras n))).

Definition reloaded (db : DB) : DB :=
  mkDB (map reloaded_node (nodes db)) (log db).

(** A file that the next invocation can load, or no file yet. *)
Definition loadable (f : file) : Prop :=
  match f with
  | Absent => True
  | Document j => exists db, load j = Ok db /\ sound_db db
  | Truncated | Unknown => False
  end.


(** What the search keeps true of its queue: every node waiting in it can be
    reached from the start node and has a distance; the placeholder has a
    distance once something unexplored was found, and waits in the queue
    only then. *)
Definition frontier_sane (ns : list Node) (node_id : Z) (st : bfs_state)
  : Prop :=
  (forall x, In (Some x) (frontier st) ->
             reachable ns node_id x /\
             dict_mem id_eqb (Some x) (distance st) = true) /\
  (found_unexplored st = true ->
   dict_mem id_eqb None (distance st) = true) /\
  (found_unexplored st = false -> ~ In None (frontier st)).

(** Every id that can be reached from [node_id] names a node. *)
Definition closed_from (ns : list Node) (node_id : Z) : Prop :=
  forall x, reachable ns node_id x -> exists nd, py_get ns x = Ok nd.

(** No branch holds an id without a node. *)
Definition ids_valid (ns : list Node) : Prop :=
  forall nd d y,
    In nd ns ->
    dict_get Direction_eqb d (branches nd) = Some (Some y) ->
    exists nd', py_get ns y = Ok nd'.

(** A session in which nothing is undone. *)
Definition never_undone (cs : list invocation) : Prop :=
  Forall (fun c => nth_error (fst c) 0 <> Some "undo") cs.

(** A file that loads, as a database without stale ids; or no file yet. *)
Definition file_ids_valid (f : file) : Prop :=
  match f with
  | Absent => True
  | Document j =>
      exists db, load j = Ok db /\ sound_db db /\ ids_valid (nodes db)
  | Truncated | Unknown => False
  end.



(** ** Direction algebra *)

Lemma dunder_add_total a b : dunder_add a b = Ok (add a b).
Proof. destruct a, b; reflexivity. Qed.

Lemma dunder_sub_total a b : dunder_sub a b = Ok (sub a b).
Proof. destruct a, b; reflexivity. Qed.

Lemma Direction_eqb_eq a b : Direction_eqb a b = true <-> a = b.
Proof. destruct a, b; cbv; split; congruence. Qed.

Lemma Direction_eqb_refl a : Direction_eqb a a = true.
Proof. destruct a; reflexivity. Qed.

Lemma Direction_eqb_neq a b : Direction_eqb a b = false <-> a <> b.
Proof. destruct a, b; cbv; split; congruence. Qed.

Lemma sub_add a b : sub (add a b) b = a.
Proof. destruct a, b; reflexivity. Qed.

Lemma add_sub a b : add (sub a b) b = a.
Proof. destruct a, b; reflexivity. Qed.

Lemma sub_inj_l a b c : sub a c = sub b c -> a = b.
Proof. destruct a, b, c; cbv; congruence. Qed.

(** [C8] The direction algebra.  For all directions [a] and [b]:
    subtracting [b] after adding it gives [a] back; [opposite a] is [a]
    plus the opposite of [forward]; [__add__] and [__sub__] return a
    direction and raise nothing (their results are the total [add] and
    [sub], which undo each other); [letter] raises nothing, and [letter_dir]
    maps the letter of [a] back to [a]. *)
Theorem direction_algebra (a b : Direction) :
  sub (add a b) b = a /\
  opposite a = add a (opposite forward) /\
  dunder_add a b = Ok (add a b) /\
  dunder_sub a b = Ok (sub a b) /\
  (exists l, letter a = Ok l /\ letter_dir l = Ok a).
Proof.
  repeat split.
  - apply sub_add.
  - apply dunder_add_total.
  - apply dunder_sub_total.
  - destruct a; eexists; split; reflexivity.
Qed.

(** ** Sets of directions *)

Lemma set_of_In l d : In d (set_of l) <-> In d l.
Proof.
  unfold set_of. rewrite filter_In, existsb_exists. split.
  - intros [_ [x [Hx E]]]. apply Direction_eqb_eq in E. now subst.
  - intros H. split.
    + destruct d; simpl; auto 6.
    + exists d. split; [assumption | apply Direction_eqb_refl].
Qed.

Lemma dirs_eqb_eq a b : dirs_eqb a b = true <-> a = b.
Proof.
  revert b. induction a as [|x a IH]; intros [|y b]; simpl;
    try (split; congruence).
  rewrite andb_true_iff, Direction_eqb_eq, IH. split.
  - intros [-> ->]. reflexivity.
  - intros E. injection E. auto.
Qed.

Lemma set_of_ext l1 l2 :
  (forall d, In d l1 <-> In d l2) -> set_of l1 = set_of l2.
Proof.
  intros H. unfold set_of. apply filter_ext. intros d.
  destruct (existsb (Direction_eqb d) l1) eqn:E1,
           (existsb (Direction_eqb d) l2) eqn:E2; try reflexivity.
  - apply existsb_exists in E1 as [x [Hx E]]. apply Direction_eqb_eq in E. subst
      x.
    apply H in Hx. assert (existsb (Direction_eqb d) l2 = true) as E'.
    { apply existsb_exists. exists d. split; [assumption | apply
        Direction_eqb_refl]. }
    congruence.
  - apply existsb_exists in E2 as [x [Hx E]]. apply Direction_eqb_eq in E. subst
      x.
    apply H in Hx. assert (existsb (Direction_eqb d) l1 = true) as E'.
    { apply existsb_exists. exists d. split; [assumption | apply
        Direction_eqb_refl]. }
    congruence.
Qed.

(** [keys_eq_set] is equality of sets: the same members on both sides. *)
Lemma keys_eq_set_spec ks s :
  keys_eq_set ks s = true <-> (forall d, In d ks <-> In d s).
Proof.
  unfold keys_eq_set. rewrite dirs_eqb_eq. split.
  - intros E d. rewrite <- (set_of_In ks), <- (set_of_In s), E. tauto.
  - apply set_of_ext.
Qed.

(** ** The io monad *)

Lemma io_bind_lift_ok {A B} (a : A) (k : A -> io B) :
  io_bind (lift (Ok a)) k = k a.
Proof. unfold io_bind, lift. simpl. now destruct (k a). Qed.

Lemma print_all_out l : print_all l = (l, Ok tt).
Proof.
  induction l as [|s l IH]; [reflexivity|].
  simpl. unfold io_bind, print. simpl. now rewrite IH.
Qed.

(** ** Topology conflicts *)

(** [C1] A fork that finds a known node (the first node whose branch
    towards [behind] is the node of the last log entry) whose branch keys
    are not the expected set [abs_branches] prints six lines and stops: the
    id and the description of that node, then the directions that were
    reported, by name, each once and in the order of their values, then the
    directions of the branches stored for the node, each turned by the way
    the explorer faces and in the order in which the node holds them.  It
    raises nothing and leaves the database file as it was. *)
Theorem fork_conflict_aborts (prog : string) (args : list string)
  (time : string) (choice : answer) (j : pyval) (db : DB) (last : LogEntry)
  (ls : list Direction) (node_id : Z) (nd : Node) :
  force_arg_ok args ->
  load j = Ok db ->
  py_last (log db) = Ok last ->
  mapM letter_dir (chars (hd EmptyString args)) = Ok ls ->
  find_known (opposite (afterturn last)) (node last) 0 (nodes db)
    = Some (node_id, nd) ->
  keys_eq_set (branch_keys nd) (abs_branches_of (afterturn last) ls) = false ->
  main (prog :: "fork" :: args) time choice (Document j)
  = mkOutcome
      [ "Something is wrong!";
        String.append "It looks like you're at node " (string_of_Z node_id);
        String.append "(" (String.append (description nd) ")");
        String.append "But you gave directions:   "
          (String.concat " "
             (map name (filter (fun d => existsb (Direction_eqb d) ls)
                          [forward; right; backward; left])));
        String.append "That conflict with stored: "
          (String.concat " "
             (map (fun x => name (sub x (afterturn last)))
                (map fst (branches nd))));
        "Exiting without saving changes." ]
      None (Document j).
Proof.
  intros Hforce Hload Hlast Hls Hknown Hkeys.
  assert (fork (hd EmptyString args) (match tl args with
                             | [] => None
                             | s :: _ => match letter_dir s with
                                         | Ok d => Some d
                                         | Raise _ => None
                                         end
                             end) time choice db
          = (conflict_report node_id nd (set_of ls) (afterturn last), Ok None))
    as Hfork.
  { unfold fork, identify. rewrite Hlast, io_bind_lift_ok.
    rewrite Hls, io_bind_lift_ok. rewrite Hknown.
    unfold abs_branches_of in Hkeys. rewrite Hkeys. simpl negb. cbv iota.
    rewrite print_all_out. unfold io_bind, io_ret. simpl.
    rewrite ?app_nil_r. reflexivity. }
  change (main (prog :: "fork" :: args) time choice (Document j)
          = mkOutcome (conflict_report node_id nd (set_of ls) (afterturn last))
              None (Document j)).
  unfold main, arg. simpl nth_error. cbv beta iota. simpl String.eqb.
  cbv iota. unfold force_arg_ok in Hforce.
  destruct args as [|dirs [|s rest]]; simpl in *.
  - rewrite Hload. now rewrite Hfork.
  - rewrite Hload. now rewrite Hfork.
  - destruct Hforce as [d Hd]. rewrite Hd in *. simpl.
    rewrite Hload. now rewrite Hfork.
Qed.

Lemma fork_conflict_aborts_witness :
  force_arg_ok ["wa"] /\
  main ["indoor_mapper.py"; "fork"; "wa"] "T" no_reply (Document
      loop_document)
  = mkOutcome
      [ "Something is wrong!";
        "It looks like you're at node 1";
        "(A)";
        "But you gave directions:   forward left";
        "That conflict with stored: forward right backward";
        "Exiting without saving changes." ]
      None (Document loop_document).
Proof.
  split; [exact I|].
  apply (fork_conflict_aborts "indoor_mapper.py" ["wa"] "T" no_reply
      loop_document
           (mkDB [ mkNode [(forward, Some 1)] "root node" [];
                   mkNode [(right, None); (backward, Some 0); (left, Some 1)]
                     "A" [] ]
                 [ mkLogEntry forward "T" 0;
                   mkLogEntry left "T" 1;
                   mkLogEntry right "T" 1 ])
           (mkLogEntry right "T" 1) [forward; left] 1
           (mkNode [(right, None); (backward, Some 0); (left, Some 1)] "A" []));
    vm_compute; auto.
Defined.

(** ** The scenarios, run *)

(** [C4], as stated, fails: after [begin], a fork reporting no passage is
    not answered with the instruction to go forward. *)
Lemma scenario_A_not_as_specified : ~ scenario_A_as_specified "T".
Proof.
  unfold scenario_A_as_specified. intros [_ [H _]].
  vm_compute in H. intuition discriminate.
Qed.

(** [C4], amended.  After [begin], a fork reporting no passage makes exactly
    one new node, node 1, whose only branch is the one behind, to the root;
    the root's forward branch is node 1.  No branch is unexplored then, so
    the explorer is told that the exploration is over and how to walk back
    (at node 1, turn backward), and the log entry appended is for node 1
    with [afterturn] forward. *)
Theorem scenario_A_runs (time0 time1 : string) (reply0 reply1 : answer) :
  let o := main ["indoor_mapper.py"; "fork"; EmptyString] time1 reply1
             (db_file (main ["indoor_mapper.py"; "begin"] time0 reply0 Absent))
                 in
  printed o = [ "You are done exploring! To get back to root:";
                "1 backward ";
                "Saving database...";
                "Done!" ] /\
  raised o = None /\
  read_db (db_file o)
  = Ok (mkDB [ mkNode [(forward, Some 1)] "root node" [];
               mkNode [(backward, Some 0)] EmptyString [] ]
             [ mkLogEntry forward time0 0;
               mkLogEntry forward time1 1 ]).
Proof. repeat split. Qed.

(** [C3] on the code: [begin], a fork reporting no passage, then [undo].
    The node list and the log are those of [begin] again, but the root's
    forward branch still holds 1, the id of the node that was deleted, so the
    database is not the one [begin] made. *)
Theorem undo_keeps_the_link (time0 time1 time2 : string)
  (reply0 reply1 reply2 : answer) :
  let f := db_file (main ["indoor_mapper.py"; "undo"] time2 reply2
             (db_file (main ["indoor_mapper.py"; "fork"; EmptyString] time1
                 reply1
                (db_file (main ["indoor_mapper.py"; "begin"] time0 reply0
                   Absent))))) in
  read_db f
  = Ok (mkDB [mkNode [(forward, Some 1)] "root node" []]
             [mkLogEntry forward time0 0]) /\
  read_db f <> Ok (begin time0).
Proof. split; [reflexivity | discriminate]. Qed.

(** [C5] on the code: [undo] right after [begin] deletes node 0 and the only
    log entry, and saves the empty database. *)
Theorem undo_deletes_the_root (time0 time1 : string) (reply0 reply1 : answer) :
  let o := main ["indoor_mapper.py"; "undo"] time1 reply1
             (db_file (main ["indoor_mapper.py"; "begin"] time0 reply0 Absent))
                 in
  printed o = ["Deleting last node"; "Saving database..."; "Done!"] /\
  raised o = None /\
  read_db (db_file o) = Ok (mkDB [] []).
Proof. repeat split. Qed.

(** [C2] on the code: the explorer leaves node 1 to the left and comes back
    to it through its right-hand passage; the prompt lists node 1 and the
    operator picks it.  The database saved has the edge from node 1 to the
    left to node 1, but the slot behind (to the right) of node 1 is still
    unexplored: the edge has no counterpart. *)
Theorem picked_node_is_not_linked_back :
  let o := invoke "T" (["fork"; "wa"], Index 1)
             (session "T" [(["begin"], no_reply); (["fork"; "da"], Text "A")])
                 in
  In "1: A" (printed o) /\
  raised o = None /\
  exists db nd,
    read_db (db_file o) = Ok db /\
    py_get (nodes db) 1 = Ok nd /\
    branch_get left nd = Some 1 /\
    branch_get (opposite left) nd = None /\
    ~ symmetric db.
Proof.
  split; [vm_compute; auto|]. split; [reflexivity|].
  eexists. eexists. split; [vm_compute; reflexivity|].
  split; [vm_compute; reflexivity|].
  split; [reflexivity|]. split; [reflexivity|].
  intros H. destruct (H 1 left 1) as [nd' [Hget Hbr]].
  - eexists. split; [vm_compute; reflexivity | reflexivity].
  - vm_compute in Hget. injection Hget as <-. discriminate.
Qed.

(** [C10] on the code: after [dangling_session] node 1 still has a branch to
    node 2, which [undo] deleted.  In the next fork the operator picks node
    0; the search expands node 0, then node 1, and then pops 2, for which the
    node list has no entry: [IndexError], nothing saved. *)
Theorem search_pops_a_deleted_node :
  let db := mkDB [ mkNode [(forward, Some 1)] "root node" [];
                   mkNode [(right, Some 2); (backward, Some 0); (left, Some 2)]
                     "A" [] ]
                 [ mkLogEntry forward "T" 0;
                   mkLogEntry left "T" 1;
                   mkLogEntry right "T" 2;
                   mkLogEntry right "T" 1 ] in
  let ns := [ mkNode [(forward, Some 1)] "root node" [];
              mkNode [(right, Some 0); (backward, Some 0); (left, Some 2)]
                "A" [] ] in
  let o := invoke "T" (["fork"; "da"], Index 0) (session "T" dangling_session)
      in
  read_db (session "T" dangling_session) = Ok db /\
  snd (identify "da" (Index 0) db) = Ok (Some (db, 0)) /\
  py_modify (nodes db) 1 (set_branch right (Some 0)) = Ok ns /\
  (exists st1 st2,
      bfs_step ns 0 right None (Some 0)
        (mkBfs (distance (bfs_init 0)) (parent (bfs_init 0)) [] false) = Ok st1
            /\
      found_unexplored st1 = false /\ frontier st1 = [Some 1] /\
      bfs_step ns 0 right None (Some 1)
        (mkBfs (distance st1) (parent st1) [] false) = Ok st2 /\
      found_unexplored st2 = false /\ frontier st2 = [Some 2] /\
      py_get ns 2 = Raise IndexError /\
      bfs_step ns 0 right None (Some 2)
        (mkBfs (distance st2) (parent st2) [] false) = Raise IndexError) /\
  bfs ns 0 right None = Raise IndexError /\
  raised o = Some IndexError /\
  db_file o = session "T" dangling_session.
Proof.
  repeat split.
  eexists. eexists. repeat split.
Qed.

(** ** Dicts *)

Section DictFacts.
Context {K V : Type} (eqb : K -> K -> bool).
Hypothesis eqb_eq : forall a b, eqb a b = true <-> a = b.

Lemma eqb_same a : eqb a a = true.
Proof. now apply eqb_eq. Qed.

Lemma eqb_diff a b : a <> b -> eqb a b = false.
Proof.
  intros H. destruct (eqb a b) eqn:E; [|reflexivity].
  apply eqb_eq in E. contradiction.
Qed.

Lemma dict_get_set_eq k (v : V) d : dict_get eqb k (dict_set eqb k v d) = Some
    v.
Proof.
  induction d as [|[k' v'] d IH]; simpl.
  - now rewrite eqb_same.
  - destruct (eqb k k') eqn:E; simpl; rewrite E; [reflexivity | exact IH].
Qed.

Lemma dict_get_set_ne k k' (v : V) d :
  k <> k' -> dict_get eqb k (dict_set eqb k' v d) = dict_get eqb k d.
Proof.
  intros Hne. induction d as [|[k2 v2] d IH]; simpl.
  - now rewrite (eqb_diff _ _ Hne).
  - destruct (eqb k' k2) eqn:E; simpl.
    + apply eqb_eq in E. subst k2. now rewrite (eqb_diff _ _ Hne).
    + now rewrite IH.
Qed.

Lemma dict_mem_set k k' (v : V) d :
  dict_mem eqb k (dict_set eqb k' v d) = eqb k k' || dict_mem eqb k d.
Proof.
  unfold dict_mem. destruct (eqb k k') eqn:E.
  - apply eqb_eq in E. subst k'. now rewrite dict_get_set_eq.
  - rewrite dict_get_set_ne; [reflexivity|].
    intros ->. now rewrite eqb_same in E.
Qed.

Lemma dict_get_In k (v : V) d : dict_get eqb k d = Some v -> In (k, v) d.
Proof.
  induction d as [|[k' v'] d IH]; simpl; [discriminate|].
  destruct (eqb k k') eqn:E.
  - apply eqb_eq in E. subst k'. intros [= ->]. now left.
  - intros H. right. exact (IH H).
Qed.

Lemma dict_get_of_key k (d : list (K * V)) :
  In k (dict_keys d) -> exists v, dict_get eqb k d = Some v.
Proof.
  unfold dict_keys. induction d as [|[k' v'] d IH]; simpl; [tauto|].
  intros [-> | H].
  - rewrite eqb_same. eauto.
  - destruct (eqb k k'); eauto.
Qed.

Lemma dict_get_key k (v : V) d : dict_get eqb k d = Some v -> In k (dict_keys
    d).
Proof. intros H. apply dict_get_In in H. now apply (in_map fst) in H. Qed.
End DictFacts.

Lemma id_eqb_eq a b : id_eqb a b = true <-> a = b.
Proof.
  destruct a as [x|], b as [y|]; simpl; try (split; congruence).
  rewrite Z.eqb_eq. split; congruence.
Qed.

(** ** The visiting order *)

Lemma insert_desc_In key x l y : In y (insert_desc key x l) <-> y = x \/ In y l.
Proof.
  induction l as [|z l IH]; simpl.
  - intuition.
  - destruct (key z <=? key x); simpl; rewrite ?IH; intuition.
Qed.

Lemma sorted_desc_In key l y : In y (sorted_desc key l) <-> In y l.
Proof.
  induction l as [|x l IH]; simpl; [tauto|].
  rewrite insert_desc_In, IH. intuition.
Qed.

(** ** The forced turn *)

Lemma is_forced_iff f rel : is_forced (Some f) rel = true <-> rel = f.
Proof. simpl. apply Direction_eqb_eq. Qed.

(** Expanding the start node: the loop reaches the unexplored branch whose
    relative direction is the forced one and stops there. *)
Lemma expand_forced node_id facing nd d :
  dict_get Direction_eqb d (branches nd) = Some None ->
  forall ds st dc,
    In d ds ->
    (forall x, In x ds -> In x (branch_keys nd)) ->
    dict_get id_eqb (Some node_id) (distance st) = Some dc ->
    exists st',
      expand node_id facing (Some (sub d facing)) node_id nd ds st = Ok st' /\
      found_unexplored st' = true /\
      dict_get id_eqb None (parent st') = Some (Some (node_id, d)) /\
      dict_get id_eqb None (distance st') = Some (dc + 1).
Proof.
  intros Hd. induction ds as [|x ds IH]; intros st dc Hin Hkeys Hdc;
    [destruct Hin|].
  destruct (Direction_eqb x d) eqn:Exd.
  - apply Direction_eqb_eq in Exd. subst x.
    simpl. rewrite Hd. simpl. rewrite Hdc. simpl.
    rewrite Z.eqb_refl, Direction_eqb_refl. simpl.
    eexists. split; [reflexivity|]. split; [reflexivity|].
    simpl. split; apply (dict_get_set_eq id_eqb id_eqb_eq).
  - apply Direction_eqb_neq in Exd.
    assert (In d ds) as Hin' by (destruct Hin; [contradiction | assumption]).
    assert (forall y, In y ds -> In y (branch_keys nd)) as Hkeys'
      by (intros y Hy; apply Hkeys; now right).
    destruct (dict_get_of_key Direction_eqb Direction_eqb_eq x (branches nd))
      as [v Hv]; [apply Hkeys; now left|].
    assert (is_forced (Some (sub d facing)) (sub x facing) = false) as Hnf.
    { destruct (is_forced (Some (sub d facing)) (sub x facing)) eqn:E;
        [|reflexivity].
      apply is_forced_iff, sub_inj_l in E. contradiction. }
    simpl expand. rewrite Hv. simpl bind.
    destruct (id_eqb v None || negb (dict_mem id_eqb v (distance st))) eqn:Enew;
      [|now apply IH].
    assert (Some node_id <> v) as Hne.
    { intros <-. unfold dict_mem in Enew. rewrite Hdc in Enew. discriminate. }
    rewrite Hdc. simpl bind. cbv zeta.
    destruct (id_eqb v None) eqn:Ev.
    + simpl in Hnf. rewrite Hnf, andb_false_r.
      apply IH; try assumption. simpl.
      now rewrite (dict_get_set_ne id_eqb id_eqb_eq).
    + apply IH; try assumption. simpl.
      now rewrite (dict_get_set_ne id_eqb id_eqb_eq).
Qed.

(** With an override, other nodes are expanded as without. *)
Lemma expand_not_start node_id facing force_turn current nd ds st :
  current <> node_id ->
  expand node_id facing force_turn current nd ds st
  = expand node_id facing None current nd ds st.
Proof.
  intros Hne. apply Z.eqb_neq in Hne. revert st.
  induction ds as [|x ds IH]; intros st; [reflexivity|].
  simpl. destruct (dict_get Direction_eqb x (branches nd)) as [v|]; simpl;
    [|reflexivity].
  destruct (id_eqb v None || negb (dict_mem id_eqb v (distance st)));
    [|apply IH].
  destruct (dict_get id_eqb (Some current) (distance st)); simpl;
      [|reflexivity].
  rewrite Hne. simpl. destruct (id_eqb v None); apply IH.
Qed.

Lemma guide_forced ns node_id facing nd d time :
  py_get ns node_id = Ok nd ->
  dict_get Direction_eqb d (branches nd) = Some None ->
  guide ns node_id facing (Some (sub d facing)) time
  = ([String.append "You should turn " (name (sub d facing))],
     Ok (mkLogEntry d time node_id)).
Proof.
  intros Hnd Hd.
  destruct (expand_forced node_id facing nd d Hd
              (sorted_desc (turn_key facing) (branch_keys nd))
              (mkBfs [(Some node_id, 0)] [(Some node_id, None)] [] false) 0)
    as [st' [Hexp [Hfound [Hpar Hdist]]]].
  - apply sorted_desc_In.
    exact (dict_get_key Direction_eqb Direction_eqb_eq d _ _ Hd).
  - intros x Hx. now apply sorted_desc_In in Hx.
  - cbn [distance dict_get id_eqb]. now rewrite Z.eqb_refl.
  - unfold guide, bfs, bfs_fuel. simpl bfs_loop. unfold bfs_step. simpl bind.
    rewrite Hnd. simpl bind. rewrite Hexp. simpl bind. rewrite Hfound.
    rewrite io_bind_lift_ok. rewrite Hfound. simpl negb. cbv iota.
    unfold hops. rewrite Hdist. change (Z.to_nat (0 + 1)) with 1%nat.
    cbn [first_hop id_eqb]. rewrite Hpar.
    cbn [bind of_option first_hop id_eqb]. rewrite Z.eqb_refl.
    reflexivity.
Qed.

(** [C6] The forced turn.  When the start node of the search (node
    [node_id], looked up in the node list after the link of line 134 was
    made) has an unexplored branch in direction [d] and the override given is
    [d] relative to the facing direction, the fork prints that relative turn
    as its instruction and appends the log entry with [afterturn] [d] for
    node [node_id], whatever else the graph holds.  And a turn of the search
    loop on any value other than the start node's id does the same with an
    override as without one. *)
Theorem forced_turn_wins_at_start (db : DB) (last : LogEntry) (node_id : Z)
  (ns : list Node) (nd : Node) (d f : Direction) (time : string) :
  py_modify (nodes db) (node last) (set_branch (afterturn last) (Some node_id))
    = Ok ns ->
  py_get ns node_id = Ok nd ->
  dict_get Direction_eqb d (branches nd) = Some None ->
  sub d (afterturn last) = f ->
  link_and_guide (Some f) time last db node_id
  = ([String.append "You should turn " (name f)],
     Ok (mkDB ns (log db ++ [mkLogEntry d time node_id]))) /\
  (forall ns' facing force_turn popped st,
      popped <> Some node_id ->
      bfs_step ns' node_id facing force_turn popped st
      = bfs_step ns' node_id facing None popped st).
Proof.
  intros Hns Hnd Hd Hf. split.
  - unfold link_and_guide. rewrite Hns, io_bind_lift_ok. subst f.
    rewrite (guide_forced ns node_id (afterturn last) nd d time Hnd Hd).
    reflexivity.
  - intros ns' facing force_turn popped st Hne. unfold bfs_step.
    destruct popped as [current|]; simpl; [|reflexivity].
    destruct (py_get ns' current); simpl; [|reflexivity].
    apply expand_not_start. congruence.
Qed.

Lemma forced_turn_wins_at_start_witness :
  let db := mkDB [ mkNode [(forward, None)] "root node" [];
                   mkNode [(right, None); (backward, Some 0); (left, None)]
                     "A" [] ]
                 [mkLogEntry forward "T" 0] in
  link_and_guide (Some right) "T" (mkLogEntry forward "T" 0) db 1
  = (["You should turn right"],
     Ok (mkDB [ mkNode [(forward, Some 1)] "root node" [];
                mkNode [(right, None); (backward, Some 0); (left, None)]
                  "A" [] ]
              [mkLogEntry forward "T" 0; mkLogEntry right "T" 1])).
Proof.
  intros db.
  apply (forced_turn_wins_at_start db (mkLogEntry forward "T" 0) 1
           [ mkNode [(forward, Some 1)] "root node" [];
             mkNode [(right, None); (backward, Some 0); (left, None)] "A" [] ]
           (mkNode [(right, None); (backward, Some 0); (left, None)] "A" [])
           right right "T"); reflexivity.
Defined.

(** ** The store *)

Lemma update_nth_app {A} (f : A -> A) (h0 : list A) x tail :
  update_nth (List.length h0) f (h0 ++ x :: tail) = h0 ++ f x :: tail.
Proof. induction h0 as [|y h0 IH]; simpl; [reflexivity | now rewrite IH]. Qed.

Lemma deref_app_l (h : store) c l x :
  nth_error h l = Some x -> nth_error (h ++ c) l = Some x.
Proof.
  intros H. rewrite nth_error_app1; [assumption|].
  apply nth_error_Some. congruence.
Qed.

Lemma deref_middle (h0 : store) c tail :
  deref (h0 ++ c :: tail) (List.length h0) = Ok c.
Proof.
  unfold deref. rewrite nth_error_app2 by lia. now rewrite Nat.sub_diag.
Qed.

Lemma mapM_ok {A B} (f : A -> result B) l l' :
  Forall2 (fun x y => f x = Ok y) l l' -> mapM f l = Ok l'.
Proof.
  induction 1 as [|x y l l' Hxy _ IH]; simpl; [reflexivity|].
  now rewrite Hxy, IH.
Qed.

Lemma mapM_map {A B C} (f : B -> result C) (g : A -> B) (k : A -> C) l :
  (forall x, In x l -> f (g x) = Ok (k x)) -> mapM f (map g l) = Ok (map k l).
Proof.
  intros H. induction l as [|x l IH]; simpl; [reflexivity|].
  rewrite H by now left. simpl. rewrite IH; [reflexivity|].
  intros y Hy. apply H. now right.
Qed.

(** Copying dicts that are all there, listed once and not copied yet puts
    the copies at the end of the store, in order. *)
Lemma deepcopy_refs_fresh ls cs :
  forall h memo,
    Forall2 (fun l c => nth_error h l = Some c) ls cs ->
    NoDup ls ->
    (forall l, In l ls -> memo_get l memo = None) ->
    exists memo',
      deepcopy_refs h memo ls
      = Ok (h ++ cs, memo', seq (List.length h) (List.length ls)) /\
      (forall l, memo_get l memo' = None <->
                 memo_get l memo = None /\ ~ In l ls).
Proof.
  revert cs. induction ls as [|l ls IH]; intros cs h memo HF Hnd Hmemo.
  - inversion HF; subst. exists memo. simpl. rewrite app_nil_r.
    split; [reflexivity | tauto].
  - inversion HF as [|? c ? cs' Hl HF']; subst. inversion Hnd as [|? ? Hnotin
      Hnd']; subst.
    simpl. rewrite (Hmemo l) by now left.
    unfold deref. rewrite Hl. simpl.
    match goal with
    | |- context [deepcopy_refs ?h1 ?m1 ls] =>
        destruct (IH cs' h1 m1) as [memo' [E Hm]]
    end.
    + eapply Forall2_impl; [|exact HF']. intros a b. apply deref_app_l.
    + assumption.
    + intros l' Hl'. simpl.
      destruct (Nat.eqb l' l) eqn:El.
      * apply Nat.eqb_eq in El. subst. contradiction.
      * apply Hmemo. now right.
    + exists memo'. rewrite E. simpl.
      rewrite <- app_assoc. simpl. rewrite length_app. simpl.
      rewrite Nat.add_1_r. split; [reflexivity|].
      intros l'. rewrite Hm. simpl.
      destruct (Nat.eqb l' l) eqn:El.
      * apply Nat.eqb_eq in El. subst. split; [intros [? _]; discriminate|].
        intros [_ Hn]. exfalso. apply Hn. now left.
      * apply Nat.eqb_neq in El. intuition.
Qed.

(** A loop over a block of the store changes that block and nothing else. *)
Lemma for_each_block f cs cs' :
  Forall2 (fun c c' => f c = Ok c') cs cs' ->
  forall h0 tail,
    for_each f (h0 ++ cs ++ tail) (seq (List.length h0) (List.length cs))
    = Ok (h0 ++ cs' ++ tail).
Proof.
  induction 1 as [|c c' cs cs' Hc _ IH]; intros h0 tail; [reflexivity|].
  simpl. rewrite deref_middle. simpl. rewrite Hc. simpl.
  rewrite update_nth_app.
  change (h0 ++ c' :: cs ++ tail) with (h0 ++ [c'] ++ cs ++ tail).
  rewrite app_assoc.
  replace (S (List.length h0)) with (List.length (h0 ++ [c']))
    by (rewrite length_app; simpl; lia).
  rewrite IH. now rewrite <- app_assoc.
Qed.

Lemma for_each_block_end f cs cs' :
  Forall2 (fun c c' => f c = Ok c') cs cs' ->
  forall h0,
    for_each f (h0 ++ cs) (seq (List.length h0) (List.length cs))
    = Ok (h0 ++ cs').
Proof.
  intros H h0. rewrite <- (app_nil_r cs) at 1.
  rewrite (for_each_block f cs cs' H). now rewrite app_nil_r.
Qed.

Lemma mapM_deref_block cs :
  forall h0 tail,
    mapM (deref (h0 ++ cs ++ tail)) (seq (List.length h0) (List.length cs))
    = Ok cs.
Proof.
  induction cs as [|c cs IH]; intros h0 tail; [reflexivity|].
  simpl. rewrite deref_middle. simpl.
  change (h0 ++ c :: cs ++ tail) with (h0 ++ [c] ++ cs ++ tail).
  rewrite app_assoc.
  replace (S (List.length h0)) with (List.length (h0 ++ [c]))
    by (rewrite length_app; simpl; lia).
  now rewrite IH.
Qed.

Lemma mapM_deref_block_end cs h0 :
  mapM (deref (h0 ++ cs)) (seq (List.length h0) (List.length cs)) = Ok cs.
Proof.
  rewrite <- (app_nil_r cs) at 1. apply mapM_deref_block.
Qed.

(** ** dump_dbfile *)

Lemma name_keys_spec bs :
  forall acc,
    name_keys (map (fun b => (KDir (fst b), pyval_of_id (snd b))) bs) acc
    = Ok (fold_left
            (fun acc b => py_assign (KStr (name (fst b))) (pyval_of_id (snd b))
                acc)
            bs acc).
Proof. induction bs as [|b bs IH]; intros acc; simpl; [reflexivity | apply IH].
    Qed.

Lemma name_branches_node n : name_branches (node_to_py n) = Ok (named_node n).
Proof.
  unfold name_branches, node_to_py. simpl. now rewrite name_keys_spec.
Qed.

Lemma name_afterturn_entry e : name_afterturn (entry_to_py e) = Ok (named_entry
    e).
Proof. reflexivity. Qed.

Lemma Forall2_map_r {A B C} (P : A -> C -> Prop) (g : B -> C) l l' :
  Forall2 (fun x y => P x (g y)) l l' -> Forall2 P l (map g l').
Proof. induction 1; simpl; constructor; assumption. Qed.

Lemma Forall2_map_both {A B C} (P : B -> C -> Prop) (g : A -> B) (k : A -> C) l
    :
  (forall x, P (g x) (k x)) -> Forall2 P (map g l) (map k l).
Proof. intros H. induction l; simpl; constructor; auto. Qed.

Lemma Forall2_length_eq {A B} (P : A -> B -> Prop) l l' :
  Forall2 P l l' -> List.length l = List.length l'.
Proof. induction 1; simpl; congruence. Qed.

(** What [dump_dbfile] does to a store that holds the database: the dicts
    of the copy, with their names in place of the directions, are added at
    the end, and the document is [encode db]. *)
Lemma dump_dbfile_spec h r db :
  holds h r db ->
  dump_dbfile h r
  = Ok (h ++ map named_node (nodes db) ++ map named_entry (log db), encode db).
Proof.
  intros [Hnd [Hns Hes]].
  pose proof (Forall2_length_eq _ _ _ Hns) as Ln.
  pose proof (Forall2_length_eq _ _ _ Hes) as Le.
  assert (NoDup (ref_nodes r)) as Hnd1 by (eapply NoDup_app_remove_r; eauto).
  assert (NoDup (ref_log r)) as Hnd2 by (eapply NoDup_app_remove_l; eauto).
  unfold dump_dbfile, deepcopy.
  destruct (deepcopy_refs_fresh (ref_nodes r) (map node_to_py (nodes db)) h [])
    as [memo1 [E1 Hm1]]; [now apply Forall2_map_r | assumption | reflexivity |].
  rewrite E1. cbn [bind].
  destruct (deepcopy_refs_fresh (ref_log r) (map entry_to_py (log db))
              (h ++ map node_to_py (nodes db)) memo1)
    as [memo2 [E2 _]].
  { apply Forall2_map_r. eapply Forall2_impl; [|exact Hes].
    intros a b. apply deref_app_l. }
  { assumption. }
  { intros l Hl. apply Hm1. split; [reflexivity|].
    intros Hl'. revert Hl' Hl. clear -Hnd.
    induction (ref_nodes r) as [|x xs IH]; simpl in *; [tauto|].
    inversion Hnd as [|? ? Hx Hnd']; subst. intros [-> | Hin] Hl.
    - apply Hx. apply in_or_app. now right.
    - now apply IH. }
  rewrite E2. cbn [bind ref_nodes ref_log].
  set (N := map node_to_py (nodes db)) in *.
  set (E := map entry_to_py (log db)) in *.
  set (N' := map named_node (nodes db)).
  set (E' := map named_entry (log db)).
  assert (List.length (ref_nodes r) = List.length N) as LN
    by (subst N; now rewrite length_map).
  assert (List.length (ref_log r) = List.length E) as LE
    by (subst E; now rewrite length_map).
  assert (List.length N = List.length N') as LN'
    by (subst N N'; now rewrite !length_map).
  assert (List.length E = List.length E') as LE'
    by (subst E E'; now rewrite !length_map).
  rewrite LN, LE, <- app_assoc.
  rewrite (for_each_block name_branches N N')
    by (apply Forall2_map_both, name_branches_node).
  cbn [bind].
  replace (List.length (h ++ N)) with (List.length (h ++ N'))
    by (rewrite !length_app; lia).
  rewrite app_assoc.
  rewrite (for_each_block_end name_afterturn E E')
    by (apply Forall2_map_both, name_afterturn_entry).
  cbn [bind].
  rewrite LN', <- app_assoc, mapM_deref_block. cbn [bind].
  rewrite LE', app_assoc, mapM_deref_block_end. cbn [bind].
  rewrite <- app_assoc. reflexivity.
Qed.

Lemma block_held {A} (cs : list A) :
  forall h0 tail,
    Forall2 (fun l c => nth_error (h0 ++ cs ++ tail) l = Some c)
      (seq (List.length h0) (List.length cs)) cs.
Proof.
  induction cs as [|c cs IH]; intros h0 tail; simpl; constructor.
  - rewrite nth_error_app2 by lia. now rewrite Nat.sub_diag.
  - change (h0 ++ c :: cs ++ tail) with (h0 ++ [c] ++ cs ++ tail).
    rewrite app_assoc.
    replace (S (List.length h0)) with (List.length (h0 ++ [c]))
      by (rewrite length_app; simpl; lia).
    apply IH.
Qed.

Lemma Forall2_map_r_inv {A B C} (P : A -> C -> Prop) (g : B -> C) l l' :
  Forall2 P l (map g l') -> Forall2 (fun x y => P x (g y)) l l'.
Proof.
  revert l. induction l' as [|y l' IH]; intros l H; inversion H; subst;
    constructor; auto.
Qed.

Lemma holds_store_db db : holds (fst (store_db db)) (snd (store_db db)) db.
Proof.
  unfold store_db, holds. cbn [fst snd ref_nodes ref_log].
  split; [|split].
  - rewrite <- seq_app. apply seq_NoDup.
  - apply (Forall2_map_r_inv
             (fun l c => nth_error (map node_to_py (nodes db)
                                    ++ map entry_to_py (log db)) l = Some c)
             node_to_py).
    rewrite <- (length_map node_to_py (nodes db)).
    apply (block_held (map node_to_py (nodes db)) []).
  - apply (Forall2_map_r_inv
             (fun l c => nth_error (map node_to_py (nodes db)
                                    ++ map entry_to_py (log db)) l = Some c)
             entry_to_py).
    rewrite <- (length_map node_to_py (nodes db)).
    rewrite <- (length_map entry_to_py (log db)).
    pose proof (block_held (map entry_to_py (log db))
                  (map node_to_py (nodes db)) []) as H.
    now rewrite app_nil_r in H.
Qed.

Lemma holds_app h r db extra : holds h r db -> holds (h ++ extra) r db.
Proof.
  intros [Hnd [Hns Hes]]. split; [assumption|].
  split; (eapply Forall2_impl; [|eassumption]); intros a b; apply deref_app_l.
Qed.

Lemma serialize_spec db : serialize db = Ok (encode db).
Proof.
  unfold serialize. pose proof (holds_store_db db) as H.
  destruct (store_db db) as [h r]. cbn [fst snd] in H.
  now rewrite (dump_dbfile_spec h r db H).
Qed.

(** ** Documents *)

Lemma json_dump_PDict m :
  json_dump (PDict m)
  = PDict (map (fun kv => (KStr (json_key (fst kv)), json_dump (snd kv))) m).
Proof.
  simpl. f_equal. induction m as [|[k v] m IH]; [reflexivity|].
  simpl. now rewrite IH.
Qed.

Lemma json_load_PList l :
  json_load (PList l) = (l' <- mapM json_load l ;; Ok (PList l')).
Proof.
  simpl. f_equal. induction l as [|x l IH]; [reflexivity|].
  simpl. destruct (json_load x); simpl; [now rewrite IH | reflexivity].
Qed.

Lemma json_load_PDict m :
  json_load (PDict m)
  = (m' <- mapM (fun kv => v' <- json_load (snd kv) ;; Ok (fst kv, v')) m ;;
     object_hook (dict_of_pairs pykey_eqb m')).
Proof.
  simpl. f_equal. induction m as [|[k v] m IH]; [reflexivity|].
  simpl. destruct (json_load v); simpl; [now rewrite IH | reflexivity].
Qed.

Lemma pykey_eqb_eq a b : pykey_eqb a b = true <-> a = b.
Proof.
  destruct a as [s|d], b as [t|e]; simpl; try (split; congruence).
  - rewrite String.eqb_eq. split; congruence.
  - rewrite Direction_eqb_eq. split; congruence.
Qed.

Lemma name_inj a b : name a = name b -> a = b.
Proof. destruct a, b; simpl; congruence. Qed.

Lemma Direction_of_name_name d : Direction_of_name (name d) = Ok d.
Proof. destruct d; reflexivity. Qed.

Section FreshKeys.
Context {K V : Type} (eqb : K -> K -> bool).
Hypothesis eqb_eq : forall a b, eqb a b = true <-> a = b.

Lemma dict_set_absent k (v : V) d :
  dict_get eqb k d = None -> dict_set eqb k v d = d ++ [(k, v)].
Proof.
  induction d as [|[k' v'] d IH]; simpl; [reflexivity|].
  destruct (eqb k k'); [discriminate|]. intros H. now rewrite IH.
Qed.

Lemma dict_get_app_absent k k' (v : V) d :
  k <> k' -> dict_get eqb k d = None -> dict_get eqb k (d ++ [(k', v)]) = None.
Proof.
  intros Hne. induction d as [|[k2 v2] d IH]; simpl.
  - now rewrite (eqb_diff eqb eqb_eq _ _ Hne).
  - destruct (eqb k k2); [discriminate | exact IH].
Qed.

(** Assigning pairs with fresh, distinct keys appends them. *)
Lemma fold_set_fresh {A} (f : A -> K * V) l :
  forall acc,
    NoDup (map (fun x => fst (f x)) l) ->
    (forall x, In x l -> dict_get eqb (fst (f x)) acc = None) ->
    fold_left (fun d x => dict_set eqb (fst (f x)) (snd (f x)) d) l acc
    = acc ++ map f l.
Proof.
  induction l as [|x l IH]; intros acc Hnd Hacc; simpl.
  - now rewrite app_nil_r.
  - inversion Hnd as [|? ? Hx Hnd']; subst.
    rewrite dict_set_absent by (apply Hacc; now left).
    rewrite IH; [| assumption |].
    + rewrite <- app_assoc. simpl. now destruct (f x).
    + intros y Hy. apply dict_get_app_absent; [|apply Hacc; now right].
      intros E. apply Hx. rewrite <- E. now apply (in_map (fun x => fst (f x))).
Qed.
End FreshKeys.

Lemma named_keys_NoDup (bs : list (Direction * option Z)) :
  NoDup (map fst bs) -> NoDup (map (fun b => KStr (name (fst b))) bs).
Proof.
  intros H. rewrite <- (map_map fst (fun d => KStr (name d))).
  apply Injective_map_NoDup; [|assumption].
  intros a b E. injection E. apply name_inj.
Qed.

Lemma named_branches_plain bs :
  NoDup (map fst bs) -> named_branches bs = plain_branches bs.
Proof.
  intros H.
  apply (fold_set_fresh pykey_eqb pykey_eqb_eq
           (fun b => (KStr (name (fst b)), pyval_of_id (snd b))) bs []).
  - now apply named_keys_NoDup.
  - reflexivity.
Qed.

Lemma dict_of_pairs_fresh (m : pydict) :
  NoDup (map fst m) -> dict_of_pairs pykey_eqb m = m.
Proof.
  intros H. unfold dict_of_pairs.
  rewrite (fold_set_fresh pykey_eqb pykey_eqb_eq (fun kv => kv) m []);
    [now rewrite map_id | assumption | reflexivity].
Qed.

Lemma plain_branches_keys bs :
  map fst (plain_branches bs) = map (fun b => KStr (name (fst b))) bs.
Proof. unfold plain_branches. now rewrite map_map. Qed.

Lemma plain_branches_no_key s bs :
  (forall d, name d <> s) -> py_lookup (KStr s) (plain_branches bs) = None.
Proof.
  intros H. induction bs as [|[d v] bs IH]; simpl; [reflexivity|].
  destruct (String.eqb s (name d)) eqn:E; [|exact IH].
  apply String.eqb_eq in E. symmetry in E. now apply H in E.
Qed.

Lemma direction_keys_plain bs :
  forall acc,
    NoDup (map fst bs) ->
    (forall b, In b bs -> py_lookup (KDir (fst b)) acc = None) ->
    direction_keys (plain_branches bs) acc
    = Ok (acc ++ map (fun b => (KDir (fst b), pyval_of_id (snd b))) bs).
Proof.
  induction bs as [|[d v] bs IH]; intros acc Hnd Hacc; simpl.
  - now rewrite app_nil_r.
  - inversion Hnd as [|? ? Hd Hnd']; subst.
    rewrite Direction_of_name_name. simpl.
    rewrite (dict_set_absent pykey_eqb) by (apply (Hacc (d, v)); now left).
    rewrite IH; [| assumption |].
    + now rewrite <- app_assoc.
    + intros b Hb. apply (dict_get_app_absent pykey_eqb pykey_eqb_eq).
      * intros E. injection E as E. apply Hd. rewrite <- E.
        now apply (in_map fst).
      * apply Hacc. now right.
Qed.

Lemma json_load_plain_branches bs :
  NoDup (map fst bs) ->
  json_load (PDict (plain_branches bs)) = Ok (PDict (plain_branches bs)).
Proof.
  intros H. rewrite json_load_PDict.
  assert (mapM (fun kv : pykey * pyval => v' <- json_load (snd kv) ;; Ok (fst
      kv, v'))
            (plain_branches bs) = Ok (plain_branches bs)) as ->.
  { apply mapM_ok. unfold plain_branches.
    clear H. induction bs as [|[d [z|]] bs IH]; simpl; constructor; auto. }
  cbn [bind]. rewrite dict_of_pairs_fresh
    by (rewrite plain_branches_keys; now apply named_keys_NoDup).
  unfold object_hook, dict_mem.
  rewrite !plain_branches_no_key; [reflexivity | |];
    intros d; destruct d; discriminate.
Qed.

Lemma json_load_plain_node n :
  NoDup (branch_keys n) ->
  json_load (plain_node n)
  = Ok (PDict (node_to_py (mkNode (branches n) (description n) []))).
Proof.
  intros H. unfold plain_node. rewrite json_load_PDict.
  cbn [mapM fst snd]. rewrite (json_load_plain_branches _ H).
  cbn [bind json_load]. unfold dict_of_pairs, object_hook, dict_mem.
  cbn [fold_left fst snd dict_set dict_get pykey_eqb String.eqb Ascii.eqb
       Bool.eqb andb].
  cbn [of_option bind].
  rewrite (direction_keys_plain _ [] H) by reflexivity.
  reflexivity.
Qed.

Lemma node_of_py_node n :
  extras n = [] -> node_of_py (PDict (node_to_py n)) = Ok n.
Proof.
  destruct n as [bs s ex]. simpl. intros ->. simpl.
  rewrite (mapM_map branch_of_py _ (fun b => b)).
  - now rewrite map_id.
  - intros [d [z|]] _; reflexivity.
Qed.

Lemma json_load_entry e :
  json_load (PDict (named_entry e)) = Ok (PDict (entry_to_py e)).
Proof. destruct e as [d t n]. destruct d; reflexivity. Qed.

Lemma entry_of_py_entry e : entry_of_py (PDict (entry_to_py e)) = Ok e.
Proof. now destruct e. Qed.

Lemma json_dump_plain_branches bs :
  json_dump (PDict (plain_branches bs)) = PDict (plain_branches bs).
Proof.
  rewrite json_dump_PDict. f_equal. unfold plain_branches. rewrite map_map.
  apply map_ext. intros [d [z|]]; reflexivity.
Qed.

Lemma json_dump_named_node n :
  schema_node n -> json_dump (PDict (named_node n)) = plain_node n.
Proof.
  intros [Hnd Hex]. rewrite json_dump_PDict. unfold named_node, plain_node.
  rewrite Hex, (named_branches_plain _ Hnd). cbn [map fst snd json_key].
  now rewrite json_dump_plain_branches.
Qed.

Lemma encode_conforms db :
  conforms db ->
  encode db
  = PDict [ (KStr "nodes", PList (map plain_node (nodes db)));
            (KStr "log", PList (map (fun e => PDict (named_entry e)) (log db)))
                ].
Proof.
  intros H. unfold encode. rewrite json_dump_PDict.
  cbn [map fst snd json_key json_dump]. rewrite !map_map.
  rewrite (map_ext_in (fun x => json_dump (PDict (named_node x))) plain_node).
  - now rewrite (map_ext (fun x => json_dump (PDict (named_entry x)))
                   (fun e => PDict (named_entry e))).
  - intros n Hn. apply json_dump_named_node. unfold conforms in H.
    rewrite Forall_forall in H. now apply H.
Qed.

(** Reading back what was written for a database of the schema. *)
Lemma load_encode db : conforms db -> load (encode db) = Ok db.
Proof.
  intros H. rewrite (encode_conforms db H). unfold load.
  rewrite json_load_PDict. cbn [mapM fst snd].
  rewrite !json_load_PList.
  rewrite (mapM_map json_load plain_node (fun n => PDict (node_to_py n))).
  2:{ intros n Hn. unfold conforms in H. rewrite Forall_forall in H.
      destruct (H n Hn) as [Hnd Hex]. rewrite (json_load_plain_node n Hnd).
      destruct n as [bs s ex]. simpl in Hex. now subst ex. }
  cbn [bind].
  rewrite (mapM_map json_load (fun e => PDict (named_entry e))
             (fun e => PDict (entry_to_py e)))
    by (intros e _; apply json_load_entry).
  cbn [bind]. unfold dict_of_pairs, object_hook, dict_mem.
  cbn [fold_left fst snd dict_set dict_get pykey_eqb String.eqb Ascii.eqb
       Bool.eqb andb].
  cbn [bind db_of_py dict_get pykey_eqb String.eqb Ascii.eqb Bool.eqb andb].
  rewrite (mapM_map node_of_py _ (fun n => n)).
  2:{ intros n Hn. unfold conforms in H. rewrite Forall_forall in H.
      apply node_of_py_node. now destruct (H n Hn). }
  cbn [bind].
  rewrite (mapM_map entry_of_py _ (fun e => e))
    by (intros e _; apply entry_of_py_entry).
  cbn [bind]. rewrite !map_id. now destruct db.
Qed.

Lemma fetch_db_holds h r db :
  conforms db -> holds h r db -> fetch_db h r = Ok db.
Proof.
  intros Hc [_ [Hns Hes]]. unfold fetch_db.
  rewrite (mapM_ok _ (ref_nodes r) (nodes db)).
  - cbn [bind]. rewrite (mapM_ok _ (ref_log r) (log db)).
    + now destruct db.
    + eapply Forall2_impl; [|exact Hes]. intros l e Hl.
      unfold deref. rewrite Hl. apply entry_of_py_entry.
  - unfold conforms in Hc. revert Hc. induction Hns as [|l n ls ns Hl _ IH];
      intros Hc; constructor.
    + unfold deref. rewrite Hl. apply node_of_py_node.
      inversion Hc as [|? ? [_ Hex] _]. exact Hex.
    + apply IH. now inversion Hc.
Qed.

(** [C7] Serializing and deserializing.  Let the store hold a database
    that conforms to the schema (every node has its branches, with distinct
    directions as keys and node ids or null as values, and its description;
    every log entry has its three fields).  Then [dump_dbfile] succeeds, the
    document it writes is read back by [json.load] with the decoder as the
    same database, and the store after the call is the store before it with
    new dicts added at the end: every dict of the caller's database is as it
    was, and the caller still reads the same database from it. *)
Theorem dump_then_load (h : store) (r : dbref) (db : DB) :
  conforms db ->
  holds h r db ->
  exists h' j fresh,
    dump_dbfile h r = Ok (h', j) /\
    load j = Ok db /\
    h' = h ++ fresh /\
    holds h' r db /\
    fetch_db h' r = Ok db.
Proof.
  intros Hc Hh.
  exists (h ++ map named_node (nodes db) ++ map named_entry (log db)),
         (encode db),
         (map named_node (nodes db) ++ map named_entry (log db)).
  split; [now apply dump_dbfile_spec|].
  split; [now apply load_encode|].
  split; [reflexivity|].
  split; [now apply holds_app|].
  apply fetch_db_holds; [assumption | now apply holds_app].
Qed.

Lemma dump_then_load_witness :
  let db := mkDB [ mkNode [(forward, Some 1)] "root node" [];
                   mkNode [(right, None); (backward, Some 0)] EmptyString [] ]
                 [ mkLogEntry forward "T" 0; mkLogEntry right "T" 1 ] in
  let h := fst (store_db db) in
  let r := snd (store_db db) in
  conforms db /\
  holds h r db /\
  exists h' j fresh,
    dump_dbfile h r = Ok (h', j) /\
    load j = Ok db /\
    h' = h ++ fresh /\
    holds h' r db /\
    fetch_db h' r = Ok db.
Proof.
  intros db h r.
  assert (conforms db) as Hc.
  { repeat constructor; simpl; intuition discriminate. }
  assert (holds h r db) as Hh.
  { repeat constructor; simpl; intuition discriminate. }
  split; [exact Hc|]. split; [exact Hh|].
  exact (dump_then_load h r db Hc Hh).
Defined.

(** ** Python lists *)

Lemma length_update_nth {A} (f : A -> A) l p :
  List.length (update_nth p f l) = List.length l.
Proof.
  revert p. induction l as [|x l IH]; intros [|p]; simpl; auto.
Qed.

Lemma nth_error_update_nth {A} (f : A -> A) l p x :
  nth_error l p = Some x -> nth_error (update_nth p f l) p = Some (f x).
Proof.
  revert p. induction l as [|y l IH]; intros [|p]; simpl; try discriminate.
  - now intros [= ->].
  - apply IH.
Qed.



(** ** The item written next to the branches *)


(** ** The search loop *)

Lemma expand_found_mono node_id facing ft current nd ds :
  forall st st',
    expand node_id facing ft current nd ds st = Ok st' ->
    found_unexplored st = true -> found_unexplored st' = true.
Proof.
  induction ds as [|x ds IH]; intros st st' H Hf; simpl in H.
  - now injection H as <-.
  - destruct (dict_get Direction_eqb x (branches nd)) as [v|]; simpl in H;
      [|discriminate].
    destruct (id_eqb v None || negb (dict_mem id_eqb v (distance st)));
      [|now apply (IH st st')].
    destruct (dict_get id_eqb (Some current) (distance st)); simpl in H;
      [|discriminate].
    destruct (id_eqb v None).
    + destruct ((current =? node_id) && is_forced ft (sub x facing)).
      * now injection H as <-.
      * now apply (IH _ _ H).
    + now apply (IH _ _ H).
Qed.

(** The [for] loop raises nothing but [KeyError], and appends the
    placeholder only together with setting [found_unexplored]. *)
Lemma expand_placeholder node_id facing ft current nd ds :
  forall st,
    placeholder_free st ->
    match expand node_id facing ft current nd ds st with
    | Ok st' => placeholder_free st'
    | Raise e => e = KeyError
    end.
Proof.
  induction ds as [|x ds IH]; intros st Hst; simpl; [assumption|].
  destruct (dict_get Direction_eqb x (branches nd)) as [v|]; simpl;
    [|reflexivity].
  destruct (id_eqb v None || negb (dict_mem id_eqb v (distance st)));
    [|now apply IH].
  destruct (dict_get id_eqb (Some current) (distance st)); simpl;
    [|reflexivity].
  destruct (id_eqb v None) eqn:Ev.
  - destruct ((current =? node_id) && is_forced ft (sub x facing)).
    + intros Hf. discriminate.
    + apply IH. intros Hf. discriminate.
  - apply IH. intros Hf. simpl in *. apply Forall_app. split; [now apply Hst|].
    constructor; [|constructor]. intros ->. discriminate.
Qed.

Lemma bfs_loop_placeholder ns node_id facing ft fuel :
  forall st,
    found_unexplored st = false ->
    placeholder_free st ->
    bfs_loop fuel ns node_id facing ft st <> Raise TypeError.
Proof.
  induction fuel as [|fuel IH]; intros st Hf Hst.
  - simpl. destruct (frontier st); discriminate.
  - simpl. destruct (frontier st) as [|popped rest] eqn:Efr; [discriminate|].
    specialize (Hst Hf). rewrite Efr in Hst.
    inversion Hst as [|? ? Hpop Hrest]; subst.
    destruct popped as [current|]; [|contradiction].
    unfold bfs_step. simpl.
    destruct (py_get ns current) as [nd|e] eqn:Eget; simpl.
    2:{ unfold py_get in Eget. destruct (py_pos (List.length ns) current) as
        [p|e'] eqn:Ep;
        simpl in Eget.
        - destruct (nth_error ns p); simpl in Eget; congruence.
        - unfold py_pos in Ep.
          destruct ((0 <=? current) && (current <? Z.of_nat (List.length ns)));
            [discriminate|].
          destruct ((current <? 0) && (0 <=? current + Z.of_nat (List.length
              ns)));
            congruence. }
    pose proof (expand_placeholder node_id facing ft current nd
                  (sorted_desc (turn_key facing) (branch_keys nd))
                  (mkBfs (distance st) (parent st) rest (found_unexplored st)))
      as Hexp.
    destruct (expand node_id facing ft current nd
                (sorted_desc (turn_key facing) (branch_keys nd))
                (mkBfs (distance st) (parent st) rest (found_unexplored st)))
      as [st'|e]; simpl.
    + destruct (found_unexplored st') eqn:Ef'; [discriminate|].
      apply IH; [assumption|]. apply Hexp. intros _. exact Hrest.
    + rewrite Hexp; [discriminate|]. intros _. exact Hrest.
Qed.

(** The placeholder is never dequeued: the search never indexes the node
    list with [None], whatever the graph. *)
Theorem bfs_never_pops_placeholder ns node_id facing ft :
  bfs ns node_id facing ft <> Raise TypeError.
Proof.
  apply bfs_loop_placeholder; [reflexivity|].
  intros _. constructor; [discriminate | constructor].
Qed.

Lemma filter_length_le {A} (f g : A -> bool) l :
  (forall x, g x = true -> f x = true) ->
  (List.length (filter g l) <= List.length (filter f l))%nat.
Proof.
  intros H. induction l as [|x l IH]; simpl; [lia|].
  destruct (g x) eqn:Eg.
  - rewrite (H x Eg). simpl. lia.
  - destruct (f x); simpl; lia.
Qed.

Lemma filter_length_lt {A} (f g : A -> bool) l a :
  (forall x, g x = true -> f x = true) ->
  In a l -> f a = true -> g a = false ->
  (List.length (filter g l) < List.length (filter f l))%nat.
Proof.
  intros H Hin Hf Hg. induction l as [|x l IH]; simpl; [destruct Hin|].
  pose proof (filter_length_le f g l H) as Hle.
  destruct Hin as [-> | Hin].
  - rewrite Hf, Hg. simpl. lia.
  - specialize (IH Hin). destruct (g x) eqn:Eg.
    + rewrite (H x Eg). simpl. lia.
    + destruct (f x); simpl; lia.
Qed.

Lemma filter_true {A} (l : list A) : filter (fun _ => true) l = l.
Proof. induction l as [|x l IH]; simpl; [reflexivity | now rewrite IH]. Qed.

Lemma unseen_set k v dist b :
  unseen (dict_set id_eqb k v dist) b = true -> unseen dist b = true.
Proof.
  unfold unseen. destruct (snd b) as [x|]; [|auto].
  rewrite (dict_mem_set id_eqb id_eqb_eq).
  destruct (id_eqb (Some x) k); simpl; [discriminate | auto].
Qed.

Lemma pending_set_le ns k v dist :
  (pending ns (dict_set id_eqb k v dist) <= pending ns dist)%nat.
Proof. apply filter_length_le. apply unseen_set. Qed.

Lemma pending_set_lt ns nd d x v dist :
  In nd ns ->
  In (d, Some x) (branches nd) ->
  dict_mem id_eqb (Some x) dist = false ->
  (pending ns (dict_set id_eqb (Some x) v dist) < pending ns dist)%nat.
Proof.
  intros Hnd Hb Hmem. apply (filter_length_lt _ _ _ (d, Some x)).
  - apply unseen_set.
  - apply in_concat. exists (branches nd). split; [now apply in_map |
      assumption].
  - unfold unseen. simpl. now rewrite Hmem.
  - unfold unseen. simpl. rewrite (dict_mem_set id_eqb id_eqb_eq).
    simpl. now rewrite Z.eqb_refl.
Qed.

(** An expansion that finds nothing unexplored pays for every id it appends
    with a pending branch. *)
Lemma expand_measure ns node_id facing ft current nd :
  In nd ns ->
  forall ds st st',
    expand node_id facing ft current nd ds st = Ok st' ->
    found_unexplored st' = false ->
    (List.length (frontier st') + pending ns (distance st')
     <= List.length (frontier st) + pending ns (distance st))%nat.
Proof.
  intros Hnd. induction ds as [|x ds IH]; intros st st' H Hf; simpl in H.
  - injection H as <-. lia.
  - destruct (dict_get Direction_eqb x (branches nd)) as [v|] eqn:Ev; simpl in
      H;
      [|discriminate].
    destruct (id_eqb v None || negb (dict_mem id_eqb v (distance st))) eqn:Enew;
      [|now apply IH].
    destruct (dict_get id_eqb (Some current) (distance st)) as [dc|]; simpl in
        H;
      [|discriminate].
    destruct v as [y|]; simpl in H, Enew.
    + specialize (IH _ _ H Hf). simpl in IH. rewrite length_app in IH. simpl in
        IH.
      apply negb_true_iff in Enew.
      pose proof (pending_set_lt ns nd x y (dc + 1) (distance st) Hnd
                    (dict_get_In Direction_eqb Direction_eqb_eq _ _ _ Ev) Enew).
      lia.
    + destruct ((current =? node_id) && is_forced ft (sub x facing)).
      * injection H as <-. discriminate.
      * apply expand_found_mono in H; [congruence | reflexivity].
Qed.

Lemma expand_raises node_id facing ft current nd ds :
  forall st,
    match expand node_id facing ft current nd ds st with
    | Ok _ => True
    | Raise e => e = KeyError
    end.
Proof.
  induction ds as [|x ds IH]; intros st; simpl; [exact I|].
  destruct (dict_get Direction_eqb x (branches nd)) as [v|]; simpl;
    [|reflexivity].
  destruct (id_eqb v None || negb (dict_mem id_eqb v (distance st)));
    [|apply IH].
  destruct (dict_get id_eqb (Some current) (distance st)); simpl;
    [|reflexivity].
  destruct (id_eqb v None); [|apply IH].
  destruct ((current =? node_id) && is_forced ft (sub x facing));
    [exact I | apply IH].
Qed.

Lemma py_get_In {A} (l : list A) i x : py_get l i = Ok x -> In x l.
Proof.
  unfold py_get. destruct (py_pos (List.length l) i) as [p|]; simpl;
      [|discriminate].
  destruct (nth_error l p) eqn:E; simpl; [|discriminate].
  intros [= ->]. now apply nth_error_In in E.
Qed.

Lemma py_get_raises {A} (l : list A) i e : py_get l i = Raise e -> e =
    IndexError.
Proof.
  unfold py_get, py_pos.
  destruct ((0 <=? i) && (i <? Z.of_nat (List.length l))); simpl.
  - destruct (nth_error l (Z.to_nat i)); simpl; congruence.
  - destruct ((i <? 0) && (0 <=? i + Z.of_nat (List.length l))); simpl;
      [|congruence].
    destruct (nth_error l (Z.to_nat (i + Z.of_nat (List.length l)))); simpl;
      congruence.
Qed.

Lemma bfs_loop_fuel ns node_id facing ft fuel :
  forall st,
    found_unexplored st = false ->
    (List.length (frontier st) + pending ns (distance st) <= fuel)%nat ->
    bfs_loop fuel ns node_id facing ft st <> Raise OutOfFuel.
Proof.
  induction fuel as [|fuel IH]; intros st Hf Hm.
  - simpl. destruct (frontier st); simpl in Hm; [discriminate | lia].
  - simpl. destruct (frontier st) as [|popped rest] eqn:Efr; [discriminate|].
    unfold bfs_step. destruct popped as [current|]; simpl; [|discriminate].
    destruct (py_get ns current) as [nd|e] eqn:Eget; simpl.
    2:{ apply py_get_raises in Eget. subst. discriminate. }
    pose proof (expand_raises node_id facing ft current nd
                  (sorted_desc (turn_key facing) (branch_keys nd))
                  (mkBfs (distance st) (parent st) rest (found_unexplored st)))
      as Hexp.
    pose proof (expand_measure ns node_id facing ft current nd
                  (py_get_In _ _ _ Eget)
                  (sorted_desc (turn_key facing) (branch_keys nd))
                  (mkBfs (distance st) (parent st) rest (found_unexplored st)))
      as Hmeas.
    destruct (expand node_id facing ft current nd
                (sorted_desc (turn_key facing) (branch_keys nd))
                (mkBfs (distance st) (parent st) rest (found_unexplored st)))
      as [st'|e]; simpl.
    + destruct (found_unexplored st') eqn:Ef'; [discriminate|].
      apply IH; [assumption|].
      specialize (Hmeas st' eq_refl Ef'). simpl in Hmeas, Hm. lia.
    + rewrite Hexp; discriminate.
Qed.

(** The iteration bound of the search is never used up: the loop of lines
    147-163 ends on every graph. *)
Theorem bfs_terminates ns node_id facing ft :
  bfs ns node_id facing ft <> Raise OutOfFuel.
Proof.
  apply bfs_loop_fuel; [reflexivity|].
  unfold bfs_fuel, pending. simpl.
  pose proof (filter_length_le (fun _ => true) (unseen [(Some node_id, 0)])
                (List.concat (map branches ns)) (fun _ _ => eq_refl)) as H.
  rewrite filter_true in H. lia.
Qed.

(** ** The walks along the parents *)

Lemma bfs_wf_nonneg node_id dist par k v :
  bfs_wf node_id dist par -> dict_get id_eqb k dist = Some v -> 0 <= v.
Proof.
  intros [H0 [_ [H2 _]]] Hk.
  destruct (id_eqb k (Some node_id)) eqn:E.
  - apply id_eqb_eq in E. subst k. rewrite H0 in Hk. injection Hk as <-. lia.
  - assert (k <> Some node_id) as Hne
      by (intros ->; now rewrite (eqb_same id_eqb id_eqb_eq) in E).
    destruct (H2 k v Hne Hk) as [c [d [dc [_ [_ [Hdc ->]]]]]]. lia.
Qed.

(** Recording a key that is the placeholder or is new, one step after a key
    that has a distance, keeps the invariant. *)
Lemma bfs_wf_step node_id dist par current dc next d :
  bfs_wf node_id dist par ->
  dict_get id_eqb (Some current) dist = Some dc ->
  id_eqb next None || negb (dict_mem id_eqb next dist) = true ->
  bfs_wf node_id (dict_set id_eqb next (dc + 1) dist)
    (dict_set id_eqb next (Some (current, d)) par).
Proof.
  intros Hwf Hcur Hnew.
  assert (forall y w, dict_get id_eqb (Some y) dist = Some w -> Some y <> next)
    as Hfresh.
  { intros y w Hy <-. simpl in Hnew. unfold dict_mem in Hnew.
    rewrite Hy in Hnew. discriminate. }
  pose proof (bfs_wf_nonneg _ _ _ _ _ Hwf Hcur) as Hdc.
  destruct Hwf as [H0 [H1 [H2 H3]]].
  pose proof (Hfresh _ _ H0) as Hstart.
  split; [|split; [|split]].
  - now rewrite (dict_get_set_ne id_eqb id_eqb_eq).
  - now rewrite (dict_get_set_ne id_eqb id_eqb_eq).
  - intros k v Hk Hv.
    destruct (id_eqb k next) eqn:E.
    + apply id_eqb_eq in E. subst k.
      rewrite (dict_get_set_eq id_eqb id_eqb_eq) in Hv. injection Hv as <-.
      exists current, d, dc.
      rewrite (dict_get_set_eq id_eqb id_eqb_eq).
      rewrite (dict_get_set_ne id_eqb id_eqb_eq) by (eapply Hfresh;
          eassumption).
      auto.
    + assert (k <> next) as Hne
        by (intros ->; now rewrite (eqb_same id_eqb id_eqb_eq) in E).
      rewrite (dict_get_set_ne id_eqb id_eqb_eq) in Hv by assumption.
      destruct (H2 k v Hk Hv) as [c [d' [dc' [Hp [Hc [Hpos ->]]]]]].
      exists c, d', dc'.
      rewrite !(dict_get_set_ne id_eqb id_eqb_eq);
        [auto | eapply Hfresh; eassumption | assumption].
  - intros k Hk.
    destruct (id_eqb k next) eqn:E.
    + apply id_eqb_eq in E. subst k.
      now rewrite (dict_get_set_eq id_eqb id_eqb_eq) in Hk.
    + assert (k <> next) as Hne
        by (intros ->; now rewrite (eqb_same id_eqb id_eqb_eq) in E).
      rewrite (dict_get_set_ne id_eqb id_eqb_eq) in Hk by assumption.
      rewrite (dict_get_set_ne id_eqb id_eqb_eq) by assumption.
      now apply H3.
Qed.

Lemma expand_wf node_id facing ft current nd ds :
  forall st st',
    bfs_wf node_id (distance st) (parent st) ->
    expand node_id facing ft current nd ds st = Ok st' ->
    bfs_wf node_id (distance st') (parent st').
Proof.
  induction ds as [|x ds IH]; intros st st' Hwf H; simpl in H.
  - now injection H as <-.
  - destruct (dict_get Direction_eqb x (branches nd)) as [v|]; simpl in H;
      [|discriminate].
    destruct (id_eqb v None || negb (dict_mem id_eqb v (distance st))) eqn:Enew;
      [|now apply (IH st st')].
    destruct (dict_get id_eqb (Some current) (distance st)) as [dc|] eqn:Edc;
      simpl in H; [|discriminate].
    pose proof (bfs_wf_step node_id _ _ current dc v x Hwf Edc Enew) as Hwf'.
    destruct (id_eqb v None).
    + destruct ((current =? node_id) && is_forced ft (sub x facing)).
      * now injection H as <-.
      * eapply IH; [|exact H]. exact Hwf'.
    + eapply IH; [|exact H]. exact Hwf'.
Qed.

Lemma bfs_loop_wf ns node_id facing ft fuel :
  forall st st',
    bfs_wf node_id (distance st) (parent st) ->
    bfs_loop fuel ns node_id facing ft st = Ok st' ->
    bfs_wf node_id (distance st') (parent st').
Proof.
  induction fuel as [|fuel IH]; intros st st' Hwf H; simpl in H.
  - destruct (frontier st); [now injection H as <- | discriminate].
  - destruct (frontier st) as [|popped rest]; [now injection H as <-|].
    unfold bfs_step in H. destruct popped as [current|]; simpl in H;
      [|discriminate].
    destruct (py_get ns current) as [nd|]; simpl in H; [|discriminate].
    destruct (expand node_id facing ft current nd
                (sorted_desc (turn_key facing) (branch_keys nd))
                (mkBfs (distance st) (parent st) rest (found_unexplored st)))
      as [st1|] eqn:Eexp; simpl in H; [|discriminate].
    apply expand_wf in Eexp; [|exact Hwf].
    destruct (found_unexplored st1); [now injection H as <-|].
    now apply (IH st1 st').
Qed.

Lemma bfs_wf_result ns node_id facing ft st :
  bfs ns node_id facing ft = Ok st ->
  bfs_wf node_id (distance st) (parent st).
Proof.
  apply bfs_loop_wf. simpl. unfold bfs_wf. simpl. rewrite Z.eqb_refl.
  repeat split.
  - intros k v Hk. destruct k as [y|]; simpl; [|discriminate].
    destruct (y =? node_id) eqn:E; [|discriminate].
    apply Z.eqb_eq in E. congruence.
  - intros k. destruct k as [y|]; simpl; [|reflexivity].
    destruct (y =? node_id); [discriminate | reflexivity].
Qed.

Lemma path_to_root_eq fuel par x acc :
  path_to_root fuel par x acc
  = (p <- of_option KeyError (dict_get id_eqb (Some x) par) ;;
     match p with
     | None => Ok acc
     | Some (c, d) =>
         match fuel with
         | O => Raise OutOfFuel
         | S fuel' => path_to_root fuel' par c (acc ++ [(c, d)])
         end
     end).
Proof. destruct fuel; reflexivity. Qed.

Lemma first_hop_eq fuel par node_id current d :
  first_hop fuel par node_id current d
  = (if id_eqb current (Some node_id) then Ok d
     else
       p <- of_option KeyError (dict_get id_eqb current par) ;;
       match p with
       | Some (c, d') =>
           match fuel with
           | O => Raise OutOfFuel
           | S fuel' => first_hop fuel' par node_id (Some c) d'
           end
       | None => Raise TypeError
       end).
Proof. destruct fuel; reflexivity. Qed.

(** A key other than the start node either has no parent entry or has a
    parent pair, one step nearer to the start. *)
Lemma bfs_wf_parent node_id dist par k :
  bfs_wf node_id dist par ->
  k <> Some node_id ->
  dict_get id_eqb k par = None \/
  exists c d, dict_get id_eqb k par = Some (Some (c, d)) /\
              S (hops dist (Some c)) = hops dist k.
Proof.
  intros [_ [_ [H2 H3]]] Hk.
  destruct (dict_get id_eqb k dist) as [v|] eqn:Ev.
  - destruct (H2 k v Hk Ev) as [c [d [dc [Hp [Hc [Hpos ->]]]]]].
    right. exists c, d. split; [assumption|].
    unfold hops. rewrite Hc, Ev. rewrite <- Z2Nat.inj_succ by assumption.
    f_equal.
  - left. now apply H3.
Qed.

Lemma path_to_root_fuel node_id dist par :
  bfs_wf node_id dist par ->
  forall fuel x acc,
    (hops dist (Some x) <= fuel)%nat ->
    path_to_root fuel par x acc <> Raise OutOfFuel.
Proof.
  intros Hwf. induction fuel as [|fuel IH]; intros x acc Hfuel;
    rewrite path_to_root_eq.
  - destruct (Z.eq_dec x node_id) as [-> | Hne].
    + destruct Hwf as [_ [H1 _]]. rewrite H1. discriminate.
    + destruct (bfs_wf_parent node_id dist par (Some x) Hwf) as [E | [c [d [E
        Hh]]]];
        [congruence | rewrite E; discriminate | lia].
  - destruct (Z.eq_dec x node_id) as [-> | Hne].
    + destruct Hwf as [_ [H1 _]]. rewrite H1. discriminate.
    + destruct (bfs_wf_parent node_id dist par (Some x) Hwf) as [E | [c [d [E
        Hh]]]];
        [congruence | rewrite E; discriminate | rewrite E; simpl].
      apply IH. lia.
Qed.

Lemma first_hop_fuel node_id dist par :
  bfs_wf node_id dist par ->
  forall fuel k d,
    (hops dist k <= fuel)%nat ->
    first_hop fuel par node_id k d <> Raise OutOfFuel.
Proof.
  intros Hwf. induction fuel as [|fuel IH]; intros k d Hfuel;
    rewrite first_hop_eq.
  - destruct (id_eqb k (Some node_id)) eqn:Ek; [discriminate|].
    assert (k <> Some node_id) as Hne
      by (intros ->; now rewrite (eqb_same id_eqb id_eqb_eq) in Ek).
    destruct (bfs_wf_parent node_id dist par k Hwf Hne) as [E | [c [d' [E
        Hh]]]];
      [rewrite E; discriminate | lia].
  - destruct (id_eqb k (Some node_id)) eqn:Ek; [discriminate|].
    assert (k <> Some node_id) as Hne
      by (intros ->; now rewrite (eqb_same id_eqb id_eqb_eq) in Ek).
    destruct (bfs_wf_parent node_id dist par k Hwf Hne) as [E | [c [d' [E
        Hh]]]];
      [rewrite E; discriminate | rewrite E; simpl].
    apply IH. lia.
Qed.

Lemma print_hops_raises ns :
  forall hs facing e,
    snd (print_hops ns facing hs) = Raise e -> e = IndexError.
Proof.
  induction hs as [|[nid t] hs IH]; intros facing e; cbn [print_hops];
    [discriminate|].
  destruct (py_get ns nid) as [nd|e'] eqn:Eget.
  - rewrite io_bind_lift_ok. unfold io_bind at 1. cbn [print fst snd]. apply IH.
  - simpl. intros [= <-]. now apply py_get_raises in Eget.
Qed.

(** The iteration bounds of the model are never used up: on every graph the
    search and the walk along the parents end, with a log entry or with a
    Python exception. *)
Theorem guide_terminates ns node_id facing ft time :
  snd (guide ns node_id facing ft time) <> Raise OutOfFuel.
Proof.
  unfold guide.
  destruct (bfs ns node_id facing ft) as [st|e] eqn:Ebfs.
  - rewrite io_bind_lift_ok. pose proof (bfs_wf_result _ _ _ _ _ Ebfs) as Hwf.
    destruct (found_unexplored st); cbn [negb].
    + pose proof (first_hop_fuel node_id _ _ Hwf (hops (distance st) None)
                    None facing (Nat.le_refl _)) as Hfh.
      destruct (first_hop (hops (distance st) None) (parent st) node_id None
                  facing) as [d|e]; simpl; congruence.
    + unfold io_bind at 1. cbn [print fst snd].
      pose proof (path_to_root_fuel node_id _ _ Hwf
                    (hops (distance st) (Some 0)) 0 [] (Nat.le_refl _)) as Hp.
      destruct (path_to_root (hops (distance st) (Some 0)) (parent st) 0 [])
        as [directions|e]; [|simpl; congruence].
      rewrite io_bind_lift_ok. unfold io_bind.
      destruct (print_hops ns facing (rev directions)) as [out [u|e]] eqn:Eh;
        simpl; [discriminate|].
      intros [= ->]. pose proof (print_hops_raises ns (rev directions) facing
                                   OutOfFuel) as H.
      rewrite Eh in H. specialize (H eq_refl). discriminate.
  - simpl. intros [= ->]. now apply (bfs_terminates ns node_id facing ft).
Qed.


(** * Further properties of the code *)

(** ** Directions *)

(** [X1] Addition makes the four directions a commutative group: it is
    associative and commutative, [forward] is neutral, [forward - a] is the
    inverse of [a], and subtracting is adding the inverse.  [opposite]
    undoes itself and never leaves a direction in place. *)
Theorem direction_group (a b c : Direction) :
  add (add a b) c = add a (add b c) /\
  add a b = add b a /\
  add a forward = a /\
  add a (sub forward a) = forward /\
  sub a b = add a (sub forward b) /\
  opposite (opposite a) = a /\
  opposite a <> a.
Proof. destruct a, b, c; repeat split; discriminate. Qed.

Lemma Direction_of_value_raises v e :
  Direction_of_value v = Raise e -> e = ValueError.
Proof.
  unfold Direction_of_value.
  destruct v as [|[[]|[]|]|]; try discriminate; now intros [= <-].
Qed.

Lemma letter_dir_raises s e : letter_dir s = Raise e -> e = ValueError.
Proof.
  unfold letter_dir, str_index.
  destruct (index 0 s DIRECTIONS) as [n|]; simpl.
  - apply Direction_of_value_raises.
  - now intros [= <-].
Qed.

(** [X2] Direction letters.  For a single character, [letter_dir] returns
    the direction whose letter it is and raises [ValueError] when it is the
    letter of none; whatever the string, [letter_dir] raises nothing but
    [ValueError]; and the empty string, being found at index 0 of the
    letters, is taken for [forward]. *)
Theorem letter_dir_letters (c : ascii) :
  (forall d, letter_dir (String c EmptyString) = Ok d <->
             letter d = Ok (String c EmptyString)) /\
  ((forall d, letter d <> Ok (String c EmptyString)) ->
   letter_dir (String c EmptyString) = Raise ValueError) /\
  (forall s e, letter_dir s = Raise e -> e = ValueError) /\
  letter_dir EmptyString = Ok forward.
Proof.
  split; [|split; [|split; [exact letter_dir_raises | reflexivity]]].
  - intros d.
    destruct c as [[] [] [] [] [] [] [] []]; destruct d; vm_compute;
      split; congruence.
  - intros H.
    destruct (letter_dir (String c EmptyString)) as [d|e] eqn:E.
    + exfalso. apply (H d). revert E.
      destruct c as [[] [] [] [] [] [] [] []]; destruct d; vm_compute;
        congruence.
    + now rewrite (letter_dir_raises _ _ E).
Qed.

(** ** Reading and writing the file *)

Lemma Direction_of_name_unknown s :
  (forall d, s <> name d) -> Direction_of_name s = Raise KeyError.
Proof.
  intros H. unfold Direction_of_name.
  destruct (String.eqb s "forward") eqn:E1;
    [apply String.eqb_eq in E1; now destruct (H forward)|].
  destruct (String.eqb s "right") eqn:E2;
    [apply String.eqb_eq in E2; now destruct (H right)|].
  destruct (String.eqb s "backward") eqn:E3;
    [apply String.eqb_eq in E3; now destruct (H backward)|].
  destruct (String.eqb s "left") eqn:E4;
    [apply String.eqb_eq in E4; now destruct (H left)|].
  reflexivity.
Qed.

(** [X3] The decoder's hook on an object with an ['afterturn'] member that
    is a string: the name of a direction is replaced by that direction and
    nothing else in the object changes, not even a ['branches'] member,
    which the [elif] leaves as the text had it; any other string makes the
    load fail with [KeyError]. *)
Theorem object_hook_afterturn (obj : pydict) (s : string) :
  py_lookup (KStr "afterturn") obj = Some (PStr s) ->
  (forall d, s = name d ->
     object_hook obj = Ok (PDict (py_assign (KStr "afterturn") (PDir d) obj)) /\
     py_lookup (KStr "branches") (py_assign (KStr "afterturn") (PDir d) obj)
     = py_lookup (KStr "branches") obj) /\
  ((forall d, s <> name d) -> object_hook obj = Raise KeyError).
Proof.
  intros H. split.
  - intros d ->. split.
    + unfold object_hook, dict_mem. rewrite H. cbn [of_option bind].
      cbn [Direction_getitem]. now rewrite Direction_of_name_name.
    + apply (dict_get_set_ne pykey_eqb pykey_eqb_eq). discriminate.
  - intros Hs. unfold object_hook, dict_mem. rewrite H. cbn [of_option bind].
    cbn [Direction_getitem]. now rewrite (Direction_of_name_unknown s Hs).
Qed.

Lemma object_hook_afterturn_witness :
  let obj := [ (KStr "afterturn", PStr "left");
               (KStr "branches", PDict [(KStr "left", PInt 1)]) ] in
  object_hook obj
  = Ok (PDict [ (KStr "afterturn", PDir left);
                (KStr "branches", PDict [(KStr "left", PInt 1)]) ]).
Proof.
  intros obj.
  destruct (object_hook_afterturn obj "left" eq_refl) as [H _].
  destruct (H left eq_refl) as [E _]. exact E.
Defined.

(** ** Malformed input *)

Lemma mapM_raise {A B} (f : A -> result B) l x e :
  In x l ->
  f x = Raise e ->
  (forall y e', f y = Raise e' -> e' = e) ->
  mapM f l = Raise e.
Proof.
  intros Hin Hx Hall. induction l as [|a l IH]; [destruct Hin|].
  simpl. destruct (f a) as [b|e'] eqn:Ea; simpl.
  - destruct Hin as [-> | Hin]; [congruence|]. now rewrite (IH Hin).
  - now rewrite (Hall a e' Ea).
Qed.

Lemma main_fork_steps prog args time choice j db :
  force_arg_ok args ->
  load j = Ok db ->
  exists force_turn,
    main (prog :: "fork" :: args) time choice (Document j)
    = match fork (hd EmptyString args) force_turn time choice db with
      | (out, Raise e) => mkOutcome out (Some e) (Document j)
      | (out, Ok None) => mkOutcome out None (Document j)
      | (out, Ok (Some db')) =>
          save (out ++ ["Saving database..."]) ["Done!"] db'
      end.
Proof.
  intros Hforce Hload. unfold main, arg. cbn [nth_error of_option].
  cbn [String.eqb Ascii.eqb Bool.eqb andb]. unfold force_arg_ok in Hforce.
  destruct args as [|dirs [|s rest]]; cbn [nth_error of_option hd tl] in *.
  - exists None. cbn [read_db]. now rewrite Hload.
  - exists None. cbn [read_db]. now rewrite Hload.
  - destruct Hforce as [d Hd]. exists (Some d). rewrite Hd. cbn [bind read_db].
    now rewrite Hload.
Qed.

(** [X5] A character of the direction string that is no direction letter:
    the fork raises [ValueError] before it prints or changes anything, and
    the file stays as it was. *)
Theorem fork_bad_direction_letter (prog : string) (args : list string)
  (time : string) (choice : answer) (j : pyval) (db : DB) (last : LogEntry)
  (c : ascii) :
  force_arg_ok args ->
  load j = Ok db ->
  py_last (log db) = Ok last ->
  In c (list_ascii_of_string (hd EmptyString args)) ->
  (forall d, letter d <> Ok (String c EmptyString)) ->
  main (prog :: "fork" :: args) time choice (Document j)
  = mkOutcome [] (Some ValueError) (Document j).
Proof.
  intros Hforce Hload Hlast Hin Hc.
  destruct (main_fork_steps prog args time choice j db Hforce Hload)
    as [force_turn ->].
  assert (letter_dir (String c EmptyString) = Raise ValueError) as Hbad.
  { destruct (letter_dir (String c EmptyString)) as [d|e] eqn:E.
    - exfalso. apply (Hc d). revert E.
      destruct c as [[] [] [] [] [] [] [] []]; destruct d; vm_compute;
        congruence.
    - now rewrite (letter_dir_raises _ _ E). }
  unfold fork, identify. rewrite Hlast, io_bind_lift_ok.
  rewrite (mapM_raise letter_dir (chars (hd EmptyString args))
             (String c EmptyString) ValueError).
  - reflexivity.
  - unfold chars. now apply (in_map (fun c => String c EmptyString)).
  - exact Hbad.
  - apply letter_dir_raises.
Qed.

Lemma fork_bad_direction_letter_witness :
  force_arg_ok ["dx"] /\
  main ["indoor_mapper.py"; "fork"; "dx"] "T" no_reply (Document loop_document)
  = mkOutcome [] (Some ValueError) (Document loop_document).
Proof.
  split; [exact I|].
  apply (fork_bad_direction_letter "indoor_mapper.py" ["dx"] "T" no_reply
           loop_document
           (mkDB [ mkNode [(forward, Some 1)] "root node" [];
                   mkNode [(right, None); (backward, Some 0); (left, Some 1)]
                     "A" [] ]
                 [ mkLogEntry forward "T" 0;
                   mkLogEntry left "T" 1;
                   mkLogEntry right "T" 1 ])
           (mkLogEntry right "T" 1) "x"%char).
  - exact I.
  - reflexivity.
  - reflexivity.
  - simpl. auto.
  - intros d. destruct d; discriminate.
Defined.

(** [X6] A third argument that is no direction letter (nor any other
    substring of the letters): the fork raises [ValueError] before it opens
    the file, whatever the file is, even a missing one. *)
Theorem fork_bad_force_turn (prog dirs s : string) (rest : list string)
  (time : string) (choice : answer) (f : file) :
  (forall d, letter_dir s <> Ok d) ->
  main (prog :: "fork" :: dirs :: s :: rest) time choice f
  = mkOutcome [] (Some ValueError) f.
Proof.
  intros Hs. unfold main, arg. cbn [nth_error of_option].
  cbn [String.eqb Ascii.eqb Bool.eqb andb].
  destruct (letter_dir s) as [d|e] eqn:E; [now destruct (Hs d)|].
  now rewrite (letter_dir_raises _ _ E).
Qed.

Lemma fork_bad_force_turn_witness :
  main ["indoor_mapper.py"; "fork"; "d"; "q"] "T" no_reply Absent
  = mkOutcome [] (Some ValueError) Absent.
Proof.
  apply (fork_bad_force_turn "indoor_mapper.py" "d" "q" [] "T" no_reply Absent).
  intros d. discriminate.
Defined.

(** [X7] A database whose log is empty, such as [undo] right after [begin]
    leaves: both [fork] and [undo] raise [IndexError] at [db['log'][-1]],
    print nothing and leave the file as it is. *)
Theorem empty_log_stops_fork_and_undo (prog : string) (args : list string)
  (time : string) (choice : answer) (j : pyval) (db : DB) :
  force_arg_ok args ->
  load j = Ok db ->
  log db = [] ->
  main (prog :: "fork" :: args) time choice (Document j)
  = mkOutcome [] (Some IndexError) (Document j) /\
  main [prog; "undo"] time choice (Document j)
  = mkOutcome [] (Some IndexError) (Document j).
Proof.
  intros Hforce Hload Hlog. split.
  - destruct (main_fork_steps prog args time choice j db Hforce Hload)
      as [force_turn ->].
    unfold fork, identify. now rewrite Hlog.
  - unfold main, arg. cbn [nth_error of_option].
    cbn [String.eqb Ascii.eqb Bool.eqb andb read_db]. rewrite Hload.
    unfold undo. now rewrite Hlog.
Qed.

Lemma empty_log_stops_fork_and_undo_witness :
  force_arg_ok ["d"] /\
  main ["indoor_mapper.py"; "fork"; "d"] "T" no_reply
    (Document emptied_document)
  = mkOutcome [] (Some IndexError) (Document emptied_document) /\
  main ["indoor_mapper.py"; "undo"] "T" no_reply (Document emptied_document)
  = mkOutcome [] (Some IndexError) (Document emptied_document).
Proof.
  split; [exact I|].
  apply (empty_log_stops_fork_and_undo "indoor_mapper.py" ["d"] "T" no_reply
           emptied_document (mkDB [] [])); [exact I | reflexivity ..].
Defined.

(** ** What a fork does to the database *)

Lemma nth_error_update_nth_any {A} (f : A -> A) l p i x :
  nth_error l i = Some x ->
  nth_error (update_nth p f l) i = Some x \/
  nth_error (update_nth p f l) i = Some (f x).
Proof.
  revert p i. induction l as [|y l IH]; intros [|p] [|i]; simpl;
    try discriminate; auto.
  intros [= ->]. auto.
Qed.

Lemma kept_refl facing nd : kept facing nd nd.
Proof. split; auto. Qed.

Lemma kept_trans facing a b c :
  kept facing a b -> kept facing b c -> kept facing a c.
Proof.
  intros [H1 H2] [H3 H4]. split; [congruence|].
  intros d Hd. now rewrite H4, H2.
Qed.

Lemma kept_set_item facing v nd : kept facing nd (set_item facing v nd).
Proof. split; auto. Qed.

Lemma kept_set_branch facing v nd : kept facing nd (set_branch facing v nd).
Proof.
  split; [reflexivity|]. intros d Hd. simpl.
  now apply (dict_get_set_ne Direction_eqb Direction_eqb_eq).
Qed.

Lemma kept_update_nth facing (f : Node -> Node) l p :
  (forall nd, kept facing nd (f nd)) ->
  forall i nd,
    nth_error l i = Some nd ->
    exists nd', nth_error (update_nth p f l) i = Some nd' /\ kept facing nd nd'.
Proof.
  intros Hf i nd H.
  destruct (nth_error_update_nth_any f l p i nd H) as [E | E];
    eexists; (split; [exact E|]); [apply kept_refl | apply Hf].
Qed.

Lemma py_pos_lt n i p : py_pos n i = Ok p -> (p < n)%nat.
Proof.
  unfold py_pos.
  destruct ((0 <=? i) && (i <? Z.of_nat n)) eqn:E1.
  - intros [= <-]. apply andb_true_iff in E1 as [H1 H2]. lia.
  - destruct ((i <? 0) && (0 <=? i + Z.of_nat n)) eqn:E2; [|discriminate].
    intros [= <-]. apply andb_true_iff in E2 as [H1 H2]. lia.
Qed.

Lemma py_modify_get {A} (f : A -> A) (l l' : list A) i :
  py_modify l i f = Ok l' ->
  exists p x, py_pos (List.length l) i = Ok p /\
              nth_error l p = Some x /\
              l' = update_nth p f l /\
              py_get l' i = Ok (f x).
Proof.
  unfold py_modify. destruct (py_pos (List.length l) i) as [p|] eqn:Ep;
    simpl; [|discriminate].
  intros [= <-]. pose proof (py_pos_lt _ _ _ Ep) as Hlt.
  destruct (nth_error l p) as [x|] eqn:Ex;
    [|apply nth_error_None in Ex; lia].
  exists p, x. repeat split; try assumption.
  unfold py_get. rewrite length_update_nth, Ep. simpl.
  now rewrite (nth_error_update_nth f l p x Ex).
Qed.

Lemma bfs_start_exists ns node_id facing ft st :
  bfs ns node_id facing ft = Ok st -> exists nd, py_get ns node_id = Ok nd.
Proof.
  unfold bfs, bfs_fuel. cbn [bfs_loop bfs_init frontier]. unfold bfs_step.
  cbn [of_option bind]. destruct (py_get ns node_id) as [nd|];
    [eauto | discriminate].
Qed.

Lemma guide_entry ns node_id facing ft time out entry :
  guide ns node_id facing ft time = (out, Ok entry) ->
  node entry = node_id /\ time_enter entry = time /\
  exists nd, py_get ns node_id = Ok nd.
Proof.
  unfold guide. destruct (bfs ns node_id facing ft) as [st|e] eqn:Ebfs;
    [|discriminate].
  rewrite io_bind_lift_ok. pose proof (bfs_start_exists _ _ _ _ _ Ebfs) as Hnd.
  destruct (found_unexplored st); cbn [negb].
  - destruct (first_hop _ _ _ _ _) as [d|e]; [|discriminate].
    rewrite io_bind_lift_ok. unfold io_bind, print, io_ret. simpl.
    intros [= _ <-]. auto.
  - unfold io_bind at 1. cbn [print fst snd].
    destruct (path_to_root _ _ _ _) as [directions|e]; [|discriminate].
    rewrite io_bind_lift_ok. unfold io_bind.
    destruct (print_hops ns facing (rev directions)) as [o [u|e]];
      [|discriminate].
    simpl. intros [= _ <-]. auto.
Qed.

Lemma set_of_NoDup l : NoDup (set_of l).
Proof.
  unfold set_of. apply NoDup_filter. unfold all_directions.
  repeat constructor; simpl; intuition discriminate.
Qed.

(** How [identify] can succeed: an item written into one node, a node
    appended with the next id, or nothing changed at all. *)
Lemma identify_inv dirs choice db out db1 node_id :
  identify dirs choice db = (out, Ok (Some (db1, node_id))) ->
  exists last,
    py_last (log db) = Ok last /\
    log db1 = log db /\
    ((exists p, nodes db1
                = update_nth p (set_item (afterturn last) node_id)
                    (nodes db)) \/
     (exists abs descr,
         nodes db1
         = nodes db
           ++ [new_node abs (opposite (afterturn last)) (node last) descr] /\
         node_id = py_len (nodes db) /\
         NoDup abs /\ In (opposite (afterturn last)) abs)).
Proof.
  unfold identify.
  destruct (py_last (log db)) as [last|] eqn:Elast; [|discriminate].
  rewrite io_bind_lift_ok.
  destruct (mapM letter_dir (chars dirs)) as [ls|]; [|discriminate].
  rewrite io_bind_lift_ok. intros H. exists last.
  split; [reflexivity|].
  destruct (find_known _ _ _ _) as [[known nd]|].
  - destruct (negb (keys_eq_set _ _)).
    + rewrite print_all_out in H. discriminate.
    + unfold io_bind at 1 in H. cbn [print fst snd] in H.
      destruct (py_modify (nodes db) (node last)
                  (set_item (afterturn last) known)) as [ns|] eqn:Emod;
        [|discriminate].
      rewrite io_bind_lift_ok in H. unfold io_ret in H. cbn [fst snd] in H.
      injection H as _ <- <-.
      apply py_modify_get in Emod as [p [x [_ [_ [-> _]]]]].
      split; [reflexivity|]. left. exists p. reflexivity.
  - destruct (py_len (set_of ls) <=? 1).
    + unfold io_ret in H. injection H as _ <- <-.
      split; [reflexivity|]. right. eexists. eexists.
      split; [reflexivity|]. split; [reflexivity|].
        split; [apply set_of_NoDup | apply set_of_In; now left].
    + unfold io_bind at 1 in H. cbn [print fst snd] in H.
      rewrite print_all_out in H. unfold io_bind at 1 in H.
      cbn [fst snd] in H. destruct choice as [z|descr].
      * destruct (py_get (nodes db) z); [|discriminate].
        rewrite io_bind_lift_ok in H. unfold io_ret in H.
        injection H as _ <- <-.
        split; [reflexivity|]. left. exists (List.length (nodes db)).
        clear. induction (nodes db) as [|x l IH]; simpl; congruence.
      * unfold io_ret in H. cbn [fst snd] in H. injection H as _ <- <-.
        split; [reflexivity|]. right. eexists. eexists.
      split; [reflexivity|]. split; [reflexivity|].
        split; [apply set_of_NoDup | apply set_of_In; now left].
Qed.

(** How a fork can succeed. *)
Lemma fork_inv dirs ft time choice db out db' :
  fork dirs ft time choice db = (out, Ok (Some db')) ->
  exists last node_id ns1 p prev d,
    py_last (log db) = Ok last /\
    ((exists q, ns1 = update_nth q (set_item (afterturn last) node_id)
                        (nodes db)) \/
     (exists abs descr,
         ns1 = nodes db
               ++ [new_node abs (opposite (afterturn last)) (node last)
                     descr] /\
         node_id = py_len (nodes db) /\
         NoDup abs /\ In (opposite (afterturn last)) abs)) /\
    py_pos (List.length ns1) (node last) = Ok p /\
    nth_error ns1 p = Some prev /\
    nodes db' = update_nth p (set_branch (afterturn last) (Some node_id)) ns1 /\
    py_get (nodes db') (node last)
    = Ok (set_branch (afterturn last) (Some node_id) prev) /\
    log db' = log db ++ [mkLogEntry d time node_id] /\
    exists here, py_get (nodes db') node_id = Ok here.
Proof.
  unfold fork. intros H.
  destruct (identify dirs choice db) as [o1 [[[db1 node_id]|]|]] eqn:Eid;
    try discriminate.
  destruct (identify_inv _ _ _ _ _ _ Eid) as [last [Hlast [Hlog Hns]]].
  unfold io_bind at 1 in H. cbn [fst snd] in H.
  rewrite Hlast, io_bind_lift_ok in H. unfold link_and_guide in H.
  destruct (py_modify (nodes db1) (node last)
              (set_branch (afterturn last) (Some node_id))) as [ns2|] eqn:Emod;
    [|discriminate].
  rewrite io_bind_lift_ok in H.
  destruct (guide ns2 node_id (afterturn last) ft time) as [o2 [entry|]] eqn:Eg;
    [|discriminate].
  unfold io_bind, io_ret in H. cbn [fst snd] in H.
  injection H as _ <-. cbn [nodes log].
  destruct (guide_entry _ _ _ _ _ _ _ Eg) as [Hnode [Htime Hhere]].
  apply py_modify_get in Emod as [p [prev [Hp [Hprev [-> Hget]]]]].
  exists last, node_id, (nodes db1), p, prev, (afterturn entry).
  repeat split; try assumption.
  rewrite Hlog. destruct entry as [d t n]. simpl in *. now subst.
Qed.

(** [X8] What every successful fork does.  The log grows by exactly one
    entry, stamped with the clock reading and naming a node that exists;
    the node list keeps its nodes in place and grows by one node at most;
    each node that was there keeps its description and all its branch slots
    except possibly the one in the facing direction; and the node found at
    the index of the previous log entry now has its facing branch set to the
    node of the new entry. *)
Theorem fork_changes_little (dirs : string) (force_turn : option Direction)
  (time : string) (choice : answer) (db db' : DB) (out : list string) :
  fork dirs force_turn time choice db = (out, Ok (Some db')) ->
  exists last entry,
    py_last (log db) = Ok last /\
    log db' = log db ++ [entry] /\
    time_enter entry = time /\
    (List.length (nodes db) <= List.length (nodes db')
     <= S (List.length (nodes db)))%nat /\
    (forall i nd,
        nth_error (nodes db) i = Some nd ->
        exists nd', nth_error (nodes db') i = Some nd' /\
                    kept (afterturn last) nd nd') /\
    (exists prev,
        py_get (nodes db') (node last) = Ok prev /\
        branch_get (afterturn last) prev = Some (node entry)) /\
    (exists here, py_get (nodes db') (node entry) = Ok here).
Proof.
  intros H.
  destruct (fork_inv _ _ _ _ _ _ _ H)
    as [last [node_id [ns1 [p [prev [d [Hlast [Hns1 [Hp [Hprev [Hns [Hget
         [Hlog Hhere]]]]]]]]]]]]].
  exists last, (mkLogEntry d time node_id).
  split; [assumption|]. split; [assumption|]. split; [reflexivity|].
  rewrite Hns, length_update_nth.
  split; [|split; [|split]].
  - destruct Hns1 as [[q ->] | [abs [descr [-> _]]]].
    + rewrite length_update_nth. lia.
    + rewrite length_app. simpl. lia.
  - intros i nd Hi.
    assert (exists nd1, nth_error ns1 i = Some nd1 /\
                        kept (afterturn last) nd nd1)
      as [nd1 [Hi1 Hk1]].
    { destruct Hns1 as [[q ->] | [abs [descr [-> _]]]].
      - apply kept_update_nth; [apply kept_set_item | assumption].
      - exists nd. split; [|apply kept_refl].
        rewrite nth_error_app1; [assumption|].
        apply nth_error_Some. congruence. }
    destruct (kept_update_nth (afterturn last)
                (set_branch (afterturn last) (Some node_id)) ns1 p
                (kept_set_branch (afterturn last) (Some node_id)) i nd1 Hi1)
      as [nd' [Hi' Hk']].
    exists nd'. split; [assumption|]. now apply (kept_trans _ nd nd1 nd').
  - eexists. split; [rewrite <- Hns; exact Hget|].
    unfold branch_get. cbn [set_branch branches node].
    now rewrite (dict_get_set_eq Direction_eqb Direction_eqb_eq).
  - cbn [node]. now rewrite <- Hns.
Qed.

Lemma fork_changes_little_witness :
  let db := mkDB [ mkNode [(forward, Some 1)] "root node" [];
                   mkNode [(right, None); (backward, Some 0); (left, None)]
                     "A" [] ]
                 [mkLogEntry forward "T" 0; mkLogEntry left "T" 1] in
  exists db' out last entry,
    fork EmptyString None "U" no_reply db = (out, Ok (Some db')) /\
    py_last (log db) = Ok last /\
    log db' = log db ++ [entry] /\
    time_enter entry = "U" /\
    (List.length (nodes db) <= List.length (nodes db')
     <= S (List.length (nodes db)))%nat /\
    (forall i nd,
        nth_error (nodes db) i = Some nd ->
        exists nd', nth_error (nodes db') i = Some nd' /\
                    kept (afterturn last) nd nd') /\
    (exists prev,
        py_get (nodes db') (node last) = Ok prev /\
        branch_get (afterturn last) prev = Some (node entry)) /\
    (exists here, py_get (nodes db') (node entry) = Ok here).
Proof.
  intros db.
  destruct (fork EmptyString None "U" no_reply db) as [out [[db'|]|e]] eqn:E;
    try (vm_compute in E; discriminate).
  destruct (fork_changes_little EmptyString None "U" no_reply db db' out E)
    as [last [entry H]].
  exists db', out, last, entry. split; [reflexivity | exact H].
Defined.

Lemma dict_keys_set_present {K V} (eqb : K -> K -> bool)
  (eqb_eq : forall a b, eqb a b = true <-> a = b) k (v : V) d :
  In k (dict_keys d) -> dict_keys (dict_set eqb k v d) = dict_keys d.
Proof.
  unfold dict_keys. induction d as [|[k' v'] d IH]; simpl; [tauto|].
  intros [-> | H].
  - now rewrite (eqb_same eqb eqb_eq).
  - destruct (eqb k k'); simpl; [reflexivity | now rewrite IH].
Qed.

Lemma new_node_keys abs behind last_node_id descr :
  In behind abs ->
  branch_keys (new_node abs behind last_node_id descr) = abs.
Proof.
  intros H. unfold branch_keys, new_node. cbn [branches].
  rewrite (dict_keys_set_present Direction_eqb Direction_eqb_eq).
  - unfold dict_keys. rewrite map_map. apply map_id.
  - unfold dict_keys. rewrite map_map. simpl. now rewrite map_id.
Qed.

Lemma new_node_other abs behind last_node_id descr d :
  d <> behind -> branch_get d (new_node abs behind last_node_id descr) = None.
Proof.
  intros Hd. unfold branch_get, new_node. cbn [branches].
  rewrite (dict_get_set_ne Direction_eqb Direction_eqb_eq) by assumption.
  induction abs as [|x abs IH]; simpl; [reflexivity|].
  destruct (Direction_eqb d x); [reflexivity | exact IH].
Qed.

(** [X9] A new node.  When no node is known behind the explorer and either
    at most one direction was reported (repeated letters count once) or the
    operator answered with text, the fork appends one node and takes the old
    length of the node list as its id.  The keys of the new node are exactly
    the expected directions, each once; its branch behind holds the node of
    the last log entry and every other branch is unexplored; it carries no
    other item; and its description is empty in the first case, the
    operator's text in the second. *)
Theorem fork_creates_node (dirs : string) (choice : answer) (db : DB)
  (last : LogEntry) (ls : list Direction) :
  py_last (log db) = Ok last ->
  mapM letter_dir (chars dirs) = Ok ls ->
  find_known (opposite (afterturn last)) (node last) 0 (nodes db) = None ->
  (py_len (set_of ls) <= 1 \/ exists s, choice = Text s) ->
  exists nn,
    snd (identify dirs choice db)
    = Ok (Some (mkDB (nodes db ++ [nn]) (log db), py_len (nodes db))) /\
    branch_keys nn = abs_branches_of (afterturn last) ls /\
    NoDup (branch_keys nn) /\
    branch_get (opposite (afterturn last)) nn = Some (node last) /\
    (forall d, d <> opposite (afterturn last) -> branch_get d nn = None) /\
    extras nn = [] /\
    description nn
    = (if py_len (set_of ls) <=? 1 then EmptyString
       else match choice with Text s => s | Index _ => EmptyString end).
Proof.
  intros Hlast Hls Hknown Hcase.
  set (abs := abs_branches_of (afterturn last) ls).
  assert (In (opposite (afterturn last)) abs) as Hin.
  { unfold abs, abs_branches_of, set_add. apply set_of_In. now left. }
  set (descr := if py_len (set_of ls) <=? 1 then EmptyString
                else match choice with
                     | Text s => s
                     | Index _ => EmptyString
                     end).
  exists (new_node abs (opposite (afterturn last)) (node last) descr).
  split; [|split; [|split; [|split; [|split; [|split; reflexivity]]]]].
  - unfold identify.
    rewrite Hlast, io_bind_lift_ok, Hls, io_bind_lift_ok, Hknown.
    subst descr. destruct (py_len (set_of ls) <=? 1) eqn:E; [reflexivity|].
    destruct Hcase as [Hle | [s ->]]; [apply Z.leb_gt in E; lia|].
    unfold io_bind at 1. cbn [print fst snd]. rewrite print_all_out.
    reflexivity.
  - now apply new_node_keys.
  - rewrite (new_node_keys _ _ _ _ Hin). apply set_of_NoDup.
  - unfold branch_get, new_node. cbn [branches].
    now rewrite (dict_get_set_eq Direction_eqb Direction_eqb_eq).
  - intros d Hd. now apply new_node_other.
Qed.

Lemma fork_creates_node_witness :
  let db := mkDB [mkNode [(forward, None)] "root node" []]
                 [mkLogEntry forward "T" 0] in
  exists nn,
    snd (identify "dd" no_reply db)
    = Ok (Some (mkDB (nodes db ++ [nn]) (log db), 1)) /\
    branch_keys nn = [right; backward] /\
    NoDup (branch_keys nn) /\
    branch_get backward nn = Some 0 /\
    (forall d, d <> backward -> branch_get d nn = None) /\
    extras nn = [] /\
    description nn = EmptyString.
Proof.
  intros db.
  apply (fork_creates_node "dd" no_reply db (mkLogEntry forward "T" 0)
           [right; right]); try reflexivity.
  left. vm_compute. discriminate.
Defined.

(** ** undo *)

Lemma py_last_snoc {A} (l : list A) x : py_last (l ++ [x]) = Ok x.
Proof.
  unfold py_last, py_get.
  assert (py_pos (List.length (l ++ [x])) (-1) = Ok (List.length l)) as ->.
  { unfold py_pos. rewrite length_app. cbn [List.length].
    replace (0 <=? -1) with false by reflexivity.
    replace (-1 <? 0) with true by reflexivity.
    replace (0 <=? -1 + Z.of_nat (List.length l + 1)) with true
      by (symmetry; apply Z.leb_le; lia).
    cbn [andb]. f_equal. lia. }
  cbn [bind]. rewrite nth_error_app2 by lia. now rewrite Nat.sub_diag.
Qed.

Lemma py_init_snoc {A} (l : list A) x : py_init (l ++ [x]) = l.
Proof. apply removelast_last. Qed.

(** [X10] Undo after a fork.  On the database that a successful fork
    leaves, [undo] always succeeds and gives back the log as it was before
    the fork.  It deletes the last node of the list exactly when the fork
    ended at the node with the highest id, whether the fork had made that
    node or found it; otherwise it leaves the node list as the fork left
    it.  In no case does it take back the link or any other change that
    the fork made inside the nodes that remain. *)
Theorem undo_after_fork (dirs : string) (force_turn : option Direction)
  (time : string) (choice : answer) (db db' : DB) (out : list string) :
  fork dirs force_turn time choice db = (out, Ok (Some db')) ->
  exists entry out2 db2,
    py_last (log db') = Ok entry /\
    undo db' = (out2, Ok db2) /\
    log db2 = log db /\
    ((node entry = py_len (nodes db') - 1 /\
      out2 = ["Deleting last node"] /\
      nodes db2 = removelast (nodes db')) \/
     (node entry <> py_len (nodes db') - 1 /\
      out2 = [] /\
      nodes db2 = nodes db')).
Proof.
  intros H.
  destruct (fork_inv _ _ _ _ _ _ _ H)
    as [last [node_id [ns1 [p [prev [d [_ [_ [_ [_ [_ [_ [Hlog [here
         Hhere]]]]]]]]]]]]]].
  exists (mkLogEntry d time node_id).
  unfold undo. rewrite Hlog, py_last_snoc, io_bind_lift_ok. cbn [node].
  rewrite Hhere, io_bind_lift_ok, py_init_snoc.
  destruct (node_id =? py_len (nodes db') - 1) eqn:E.
  - apply Z.eqb_eq in E. eexists. eexists.
    split; [reflexivity|]. split; [reflexivity|]. split; [reflexivity|].
    left. auto.
  - apply Z.eqb_neq in E. eexists. eexists.
    split; [reflexivity|]. split; [reflexivity|]. split; [reflexivity|].
    right. auto.
Qed.

Lemma undo_after_fork_witness :
  let db := mkDB [ mkNode [(forward, Some 1)] "root node" [];
                   mkNode [(right, None); (backward, Some 0); (left, None)]
                     "A" [] ]
                 [mkLogEntry forward "T" 0; mkLogEntry left "T" 1] in
  exists db' out entry out2 db2,
    fork EmptyString None "U" no_reply db = (out, Ok (Some db')) /\
    py_last (log db') = Ok entry /\
    undo db' = (out2, Ok db2) /\
    log db2 = log db /\
    ((node entry = py_len (nodes db') - 1 /\
      out2 = ["Deleting last node"] /\
      nodes db2 = removelast (nodes db')) \/
     (node entry <> py_len (nodes db') - 1 /\
      out2 = [] /\
      nodes db2 = nodes db')).
Proof.
  intros db.
  destruct (fork EmptyString None "U" no_reply db) as [out [[db'|]|e]] eqn:E;
    try (vm_compute in E; discriminate).
  destruct (undo_after_fork EmptyString None "U" no_reply db db' out E)
    as [entry [out2 [db2 H]]].
  exists db', out, entry, out2, db2. split; [reflexivity | exact H].
Defined.

(** ** The known node *)

Lemma find_known_from behind last_node_id ns :
  forall n0,
    match find_known behind last_node_id n0 ns with
    | Some (n, nd) =>
        exists i,
          n = n0 + Z.of_nat i /\
          nth_error ns i = Some nd /\
          branch_get behind nd = Some last_node_id /\
          forall j nd', (j < i)%nat -> nth_error ns j = Some nd' ->
                        branch_get behind nd' <> Some last_node_id
    | None =>
        forall nd, In nd ns -> branch_get behind nd <> Some last_node_id
    end.
Proof.
  induction ns as [|x ns IH]; intros n0; simpl; [tauto|].
  destruct (id_eqb (branch_get behind x) (Some last_node_id)) eqn:E.
  - apply id_eqb_eq in E. exists O. rewrite Z.add_0_r.
    repeat split; try assumption. intros j nd' Hj. lia.
  - assert (branch_get behind x <> Some last_node_id) as Hx.
    { intros Hc. apply id_eqb_eq in Hc. congruence. }
    specialize (IH (n0 + 1)).
    destruct (find_known behind last_node_id (n0 + 1) ns) as [[n nd]|].
    + destruct IH as [i [-> [Hi [Hb Hmin]]]]. exists (S i).
      split; [lia|]. split; [exact Hi|]. split; [exact Hb|].
      intros [|j] nd' Hj; simpl.
      * now intros [= <-].
      * apply Hmin. lia.
    + intros nd [<- | Hin]; [assumption | now apply IH].
Qed.

(** [X11] The known node is the first match.  The search of lines 85-87
    returns the node of lowest index whose branch behind holds the id of the
    previous node, together with that index, which is a valid index of the
    node list; it returns nothing exactly when no node has such a branch.
    A branch that is missing and a branch that is unexplored both count as
    no match. *)
Theorem known_node_is_first_match (behind : Direction) (last_node_id : Z)
  (ns : list Node) :
  match find_known behind last_node_id 0 ns with
  | Some (n, nd) =>
      0 <= n < py_len ns /\
      py_get ns n = Ok nd /\
      dict_get Direction_eqb behind (branches nd) = Some (Some last_node_id) /\
      forall m nd', 0 <= m < n -> py_get ns m = Ok nd' ->
                    dict_get Direction_eqb behind (branches nd')
                    <> Some (Some last_node_id)
  | None =>
      forall nd, In nd ns ->
                 dict_get Direction_eqb behind (branches nd)
                 <> Some (Some last_node_id)
  end.
Proof.
  assert (forall nd, branch_get behind nd = Some last_node_id <->
                     dict_get Direction_eqb behind (branches nd)
                     = Some (Some last_node_id)) as Hbg.
  { intros nd. unfold branch_get.
    destruct (dict_get Direction_eqb behind (branches nd)) as [[z|]|];
      split; congruence. }
  assert (forall i nd, nth_error ns i = Some nd ->
                       py_get ns (Z.of_nat i) = Ok nd) as Hget.
  { intros i nd Hi. unfold py_get, py_pos.
    assert (i < List.length ns)%nat by (apply nth_error_Some; congruence).
    replace (0 <=? Z.of_nat i) with true by (symmetry; apply Z.leb_le; lia).
    replace (Z.of_nat i <? Z.of_nat (List.length ns)) with true
      by (symmetry; apply Z.ltb_lt; lia).
    cbn [andb bind]. rewrite Nat2Z.id, Hi. reflexivity. }
  pose proof (find_known_from behind last_node_id ns 0) as H.
  destruct (find_known behind last_node_id 0 ns) as [[n nd]|].
  - destruct H as [i [-> [Hi [Hb Hmin]]]]. rewrite Z.add_0_l.
    assert (i < List.length ns)%nat by (apply nth_error_Some; congruence).
    unfold py_len. split; [lia|]. split; [now apply Hget|].
    split; [now apply Hbg|].
    intros m nd' Hm Hm'. rewrite <- Hbg.
    destruct (nth_error ns (Z.to_nat m)) as [x|] eqn:Ex.
    + pose proof (Hget _ _ Ex) as Hx. rewrite Z2Nat.id in Hx by lia.
      assert (x = nd') by congruence. subst x.
      apply (Hmin (Z.to_nat m)); [lia | assumption].
    + apply nth_error_None in Ex. lia.
  - intros nd Hin. rewrite <- Hbg. now apply H.
Qed.

(** ** What the guidance answers *)

Lemma expand_edges ns node_id facing ft current nd :
  py_get ns current = Ok nd ->
  forall ds st st',
    parent_edges ns (parent st) ->
    expand node_id facing ft current nd ds st = Ok st' ->
    parent_edges ns (parent st').
Proof.
  intros Hnd. induction ds as [|x ds IH]; intros st st' Hpe H; simpl in H.
  - now injection H as <-.
  - destruct (dict_get Direction_eqb x (branches nd)) as [v|] eqn:Ev;
      simpl in H; [|discriminate].
    destruct (id_eqb v None || negb (dict_mem id_eqb v (distance st)));
      [|now apply (IH st st')].
    destruct (dict_get id_eqb (Some current) (distance st)) as [dc|];
      simpl in H; [|discriminate].
    assert (parent_edges ns (dict_set id_eqb v (Some (current, x)) (parent st)))
      as Hpe'.
    { intros k c d Hk. destruct (id_eqb k v) eqn:E.
      - apply id_eqb_eq in E. subst k.
        rewrite (dict_get_set_eq id_eqb id_eqb_eq) in Hk.
        injection Hk as <- <-. exists nd. auto.
      - rewrite (dict_get_set_ne id_eqb id_eqb_eq) in Hk.
        + now apply Hpe.
        + intros ->. now rewrite (eqb_same id_eqb id_eqb_eq) in E. }
    destruct (id_eqb v None).
    + destruct ((current =? node_id) && is_forced ft (sub x facing)).
      * now injection H as <-.
      * eapply IH; [|exact H]. exact Hpe'.
    + eapply IH; [|exact H]. exact Hpe'.
Qed.

Lemma bfs_loop_edges ns node_id facing ft fuel :
  forall st st',
    parent_edges ns (parent st) ->
    bfs_loop fuel ns node_id facing ft st = Ok st' ->
    parent_edges ns (parent st').
Proof.
  induction fuel as [|fuel IH]; intros st st' Hpe H; simpl in H.
  - destruct (frontier st); [now injection H as <- | discriminate].
  - destruct (frontier st) as [|popped rest]; [now injection H as <-|].
    unfold bfs_step in H. destruct popped as [current|]; simpl in H;
      [|discriminate].
    destruct (py_get ns current) as [nd|] eqn:Eget; simpl in H; [|discriminate].
    destruct (expand node_id facing ft current nd
                (sorted_desc (turn_key facing) (branch_keys nd))
                (mkBfs (distance st) (parent st) rest (found_unexplored st)))
      as [st1|] eqn:Eexp; simpl in H; [|discriminate].
    apply (expand_edges ns _ _ _ _ _ Eget) in Eexp; [|exact Hpe].
    destruct (found_unexplored st1); [now injection H as <-|].
    now apply (IH st1 st').
Qed.

Lemma bfs_edges ns node_id facing ft st :
  bfs ns node_id facing ft = Ok st -> parent_edges ns (parent st).
Proof.
  apply bfs_loop_edges. intros k c d. simpl.
  destruct (id_eqb k (Some node_id)); discriminate.
Qed.

Lemma first_hop_route ns par node_id :
  parent_edges ns par ->
  forall fuel k d0 d,
    k <> Some node_id ->
    first_hop fuel par node_id k d0 = Ok d ->
    route ns node_id d k.
Proof.
  intros Hpe. induction fuel as [|fuel IH]; intros k d0 d Hk H;
    rewrite first_hop_eq in H;
    rewrite (eqb_diff id_eqb id_eqb_eq _ _ Hk) in H;
    destruct (dict_get id_eqb k par) as [[[c d']|]|] eqn:Ek; simpl in H;
    try discriminate.
  pose proof (Hpe _ _ _ Ek) as Hedge.
  destruct (Z.eq_dec c node_id) as [-> | Hc].
  - rewrite first_hop_eq, (eqb_same id_eqb id_eqb_eq) in H.
    injection H as <-. now apply route_first.
  - apply (route_more ns node_id d c d' k); [|assumption].
    apply (IH (Some c) d' d); [congruence | assumption].
Qed.

(** [X12] What an instruction means.  Whenever the guidance ends with a log
    entry, either it printed the single line telling the explorer to turn,
    and then the direction logged is the first step of a route from the
    current node, branch by branch through the graph, to a branch that is
    unexplored, the turn printed being that direction relative to the way
    the explorer faces; or its first line says that the exploration is
    over, and the direction logged is [forward]. *)
Theorem instruction_opens_a_route (ns : list Node) (node_id : Z)
  (facing : Direction) (force_turn : option Direction) (time : string)
  (out : list string) (entry : LogEntry) :
  guide ns node_id facing force_turn time = (out, Ok entry) ->
  (out = [String.append "You should turn "
            (name (sub (afterturn entry) facing))] /\
   route ns node_id (afterturn entry) None) \/
  (hd EmptyString out = done_line /\ afterturn entry = forward).
Proof.
  unfold guide.
  destruct (bfs ns node_id facing force_turn) as [st|e] eqn:Ebfs;
    [|discriminate].
  rewrite io_bind_lift_ok. pose proof (bfs_edges _ _ _ _ _ Ebfs) as Hpe.
  destruct (found_unexplored st); cbn [negb].
  - destruct (first_hop (hops (distance st) None) (parent st) node_id None
                facing) as [d|e] eqn:Ehop; [|discriminate].
    rewrite io_bind_lift_ok. unfold io_bind, print, io_ret. simpl.
    intros [= <- <-]. left. split; [reflexivity|]. cbn [afterturn].
    eapply (first_hop_route ns (parent st) node_id Hpe); [|exact Ehop].
    discriminate.
  - unfold io_bind at 1. cbn [print fst snd].
    destruct (path_to_root _ _ _ _) as [directions|e]; [|discriminate].
    rewrite io_bind_lift_ok. unfold io_bind.
    destruct (print_hops ns facing (rev directions)) as [o [u|e]];
      [|discriminate].
    simpl. intros [= <- <-]. right. split; reflexivity.
Qed.

Lemma instruction_opens_a_route_witness :
  let ns := [ mkNode [(forward, Some 1)] "root node" [];
              mkNode [(backward, Some 0); (left, Some 2)] "A" [];
              mkNode [(right, Some 1); (forward, None)] "B" [] ] in
  guide ns 0 backward None "T"
  = (["You should turn backward"], Ok (mkLogEntry forward "T" 0)) /\
  route ns 0 forward None.
Proof.
  intros ns. split; [reflexivity|].
  destruct (instruction_opens_a_route ns 0 backward None "T"
              ["You should turn backward"] (mkLogEntry forward "T" 0) eq_refl)
    as [[_ H] | [H _]]; [exact H | discriminate H].
Defined.

Lemma dict_mem_set_mono k k' (v : Z) dist :
  dict_mem id_eqb k dist = true ->
  dict_mem id_eqb k (dict_set id_eqb k' v dist) = true.
Proof.
  intros H. rewrite (dict_mem_set id_eqb id_eqb_eq), H. apply orb_true_r.
Qed.

(** An expansion that finds nothing unexplored gives a distance to the
    target of every branch it goes through, and queues what is new. *)
Lemma expand_cover node_id facing ft current nd :
  forall ds st st',
    expand node_id facing ft current nd ds st = Ok st' ->
    found_unexplored st' = false ->
    (forall k, dict_mem id_eqb k (distance st) = true ->
               dict_mem id_eqb k (distance st') = true) /\
    (forall x, In x (frontier st) -> In x (frontier st')) /\
    (forall k, dict_mem id_eqb k (distance st') = true ->
               dict_mem id_eqb k (distance st) = true \/ In k (frontier st')) /\
    (forall d v, In d ds ->
                 dict_get Direction_eqb d (branches nd) = Some v ->
                 exists y, v = Some y /\
                           dict_mem id_eqb (Some y) (distance st') = true).
Proof.
  induction ds as [|x ds IH]; intros st st' H Hf; simpl in H.
  - injection H as <-. repeat split; auto. intros d v [].
  - destruct (dict_get Direction_eqb x (branches nd)) as [v|] eqn:Ev;
      simpl in H; [|discriminate].
    destruct (id_eqb v None || negb (dict_mem id_eqb v (distance st))) eqn:Enew.
    + destruct (dict_get id_eqb (Some current) (distance st)) as [dc|];
        simpl in H; [|discriminate].
      destruct v as [y|]; simpl in H.
      * destruct (IH _ _ H Hf) as [H1 [H2 [H3 H4]]]. simpl in H1, H2, H3.
        repeat split.
        -- intros k Hk. apply H1. now apply dict_mem_set_mono.
        -- intros z Hz. apply H2. apply in_or_app. now left.
        -- intros k Hk. destruct (H3 k Hk) as [Hk' | Hk']; [|now right].
           rewrite (dict_mem_set id_eqb id_eqb_eq) in Hk'.
           destruct (id_eqb k (Some y)) eqn:E; [|now left].
           apply id_eqb_eq in E. subst k. right. apply H2.
           apply in_or_app. right. now left.
        -- intros d v [<- | Hd] Hv; [|now apply (H4 d v)].
           rewrite Ev in Hv. injection Hv as <-. exists y.
           split; [reflexivity|]. apply H1.
           rewrite (dict_mem_set id_eqb id_eqb_eq). simpl.
           now rewrite Z.eqb_refl.
      * destruct ((current =? node_id) && is_forced ft (sub x facing)).
        -- injection H as <-. discriminate.
        -- apply expand_found_mono in H; [congruence | reflexivity].
    + destruct (IH _ _ H Hf) as [H1 [H2 [H3 H4]]].
      repeat split; try assumption.
      intros d v' [<- | Hd] Hv; [|now apply (H4 d v')].
      rewrite Ev in Hv. injection Hv as <-.
      apply orb_false_iff in Enew as [Hn Hm]. apply negb_false_iff in Hm.
      destruct v as [y|]; [|discriminate]. exists y.
      split; [reflexivity|]. now apply H1.
Qed.

Lemma explored_mono ns dist dist' x :
  (forall k, dict_mem id_eqb k dist = true -> dict_mem id_eqb k dist' = true) ->
  explored ns dist x -> explored ns dist' x.
Proof.
  intros Hm He nd d v Hnd Hv. destruct (He nd d v Hnd Hv) as [y [-> Hy]].
  exists y. split; [reflexivity | now apply Hm].
Qed.

Lemma bfs_loop_cover ns node_id facing ft fuel :
  forall st st',
    frontier_covers ns st ->
    bfs_loop fuel ns node_id facing ft st = Ok st' ->
    found_unexplored st' = false ->
    frontier st' = [] /\ frontier_covers ns st'.
Proof.
  induction fuel as [|fuel IH]; intros st st' Hcov H Hf; simpl in H.
  - destruct (frontier st) eqn:Efr; [|discriminate].
    injection H as <-. auto.
  - destruct (frontier st) as [|popped rest] eqn:Efr.
    { injection H as <-. auto. }
    unfold bfs_step in H. destruct popped as [current|]; simpl in H;
      [|discriminate].
    destruct (py_get ns current) as [nd|] eqn:Eget; simpl in H; [|discriminate].
    destruct (expand node_id facing ft current nd
                (sorted_desc (turn_key facing) (branch_keys nd))
                (mkBfs (distance st) (parent st) rest (found_unexplored st)))
      as [st1|] eqn:Eexp; simpl in H; [|discriminate].
    destruct (found_unexplored st1) eqn:Ef1.
    { injection H as <-. congruence. }
    apply (IH st1 st'); try assumption.
    destruct (expand_cover _ _ _ _ _ _ _ _ Eexp Ef1) as [H1 [H2 [H3 H4]]].
    simpl in H1, H2, H3.
    intros x Hx. destruct (H3 _ Hx) as [Hx' | Hx']; [|now left].
    destruct (Hcov x Hx') as [Hin | Hex].
    + rewrite Efr in Hin. destruct Hin as [[= <-] | Hin].
      * right. intros nd' d v Hnd' Hv. rewrite Eget in Hnd'.
        injection Hnd' as <-. apply (H4 d v); [|assumption].
        apply sorted_desc_In.
        exact (dict_get_key Direction_eqb Direction_eqb_eq d _ _ Hv).
      * left. now apply H2.
    + right. now apply (explored_mono ns (distance st)).
Qed.

Lemma bfs_done_explored ns node_id facing ft st :
  bfs ns node_id facing ft = Ok st ->
  found_unexplored st = false ->
  forall x, reachable ns node_id x ->
            dict_mem id_eqb (Some x) (distance st) = true /\
            explored ns (distance st) x.
Proof.
  intros Hbfs Hf.
  destruct (bfs_loop_cover ns node_id facing ft (bfs_fuel ns)
              (bfs_init node_id) st) as [Hfr Hcov]; try assumption.
  { intros x Hx. left. simpl in *. unfold dict_mem in Hx. simpl in Hx.
    destruct (x =? node_id) eqn:E; [|discriminate].
    apply Z.eqb_eq in E. subst. now left. }
  assert (forall x, dict_mem id_eqb (Some x) (distance st) = true ->
                    explored ns (distance st) x) as Hall.
  { intros x Hx. destruct (Hcov x Hx) as [Hin | He]; [|assumption].
    rewrite Hfr in Hin. destruct Hin. }
  assert (forall x, reachable ns node_id x ->
                    dict_mem id_eqb (Some x) (distance st) = true) as Hreach.
  { induction 1 as [|b d c _ IH [nd [Hnd Hd]]].
    - destruct (bfs_wf_result _ _ _ _ _ Hbfs) as [H0 _].
      unfold dict_mem. now rewrite H0.
    - destruct (Hall b IH nd d (Some c) Hnd Hd) as [y [[= <-] Hy]]. exact Hy. }
  intros x Hx. split; [now apply Hreach | apply Hall, Hreach, Hx].
Qed.

(** [X13] What "done exploring" means.  When the guidance ends with a log
    entry and its first line says that the exploration is over, no node that
    can be reached from the current node along branches has an unexplored
    branch, and every branch of such a node leads to a node that the search
    has reached too. *)
Theorem done_means_explored (ns : list Node) (node_id : Z)
  (facing : Direction) (force_turn : option Direction) (time : string)
  (out : list string) (entry : LogEntry) :
  guide ns node_id facing force_turn time = (out, Ok entry) ->
  hd EmptyString out = done_line ->
  forall x nd d,
    reachable ns node_id x ->
    py_get ns x = Ok nd ->
    dict_get Direction_eqb d (branches nd) <> Some None /\
    (forall v, dict_get Direction_eqb d (branches nd) = Some v ->
               exists y, v = Some y /\ reachable ns node_id y).
Proof.
  unfold guide.
  destruct (bfs ns node_id facing force_turn) as [st|e] eqn:Ebfs;
    [|discriminate].
  rewrite io_bind_lift_ok.
  destruct (found_unexplored st) eqn:Ef; cbn [negb].
  - destruct (first_hop _ _ _ _ _) as [d|e]; [|discriminate].
    rewrite io_bind_lift_ok. unfold io_bind, print, io_ret. simpl.
    intros [= <- _] Hhd. discriminate Hhd.
  - intros _ _ x nd d Hx Hnd.
    destruct (bfs_done_explored _ _ _ _ _ Ebfs Ef x Hx) as [_ He].
    split.
    + intros Hd. destruct (He nd d None Hnd Hd) as [y [Hy _]]. discriminate.
    + intros v Hv. destruct (He nd d v Hnd Hv) as [y [-> _]].
      exists y. split; [reflexivity|].
      apply (reach_next ns node_id x d y Hx). exists nd. auto.
Qed.

Lemma done_means_explored_witness :
  let ns := [ mkNode [(forward, Some 1)] "root node" [];
              mkNode [(backward, Some 0)] EmptyString [] ] in
  guide ns 1 forward None "T"
  = ([done_line; "1 backward "], Ok (mkLogEntry forward "T" 1)) /\
  forall x nd d,
    reachable ns 1 x ->
    py_get ns x = Ok nd ->
    dict_get Direction_eqb d (branches nd) <> Some None /\
    (forall v, dict_get Direction_eqb d (branches nd) = Some v ->
               exists y, v = Some y /\ reachable ns 1 y).
Proof.
  intros ns. split; [reflexivity|].
  exact (done_means_explored ns 1 forward None "T"
           [done_line; "1 backward "] (mkLogEntry forward "T" 1)
           eq_refl eq_refl).
Defined.

(** ** Which branch is taken *)

Lemma insert_desc_sorted key x l :
  StronglySorted (fun a b => key b <= key a) l ->
  StronglySorted (fun a b => key b <= key a) (insert_desc key x l).
Proof.
  induction 1 as [|y l Hl IH Hy]; simpl.
  - constructor; constructor.
  - destruct (key y <=? key x) eqn:E.
    + apply Z.leb_le in E. constructor.
      * constructor; assumption.
      * constructor; [assumption|].
        rewrite Forall_forall in *. intros z Hz. specialize (Hy z Hz). lia.
    + apply Z.leb_gt in E. constructor; [assumption|].
      rewrite Forall_forall in *. intros z Hz.
      apply insert_desc_In in Hz as [-> | Hz]; [lia | now apply Hy].
Qed.

Lemma sorted_desc_sorted key l :
  StronglySorted (fun a b => key b <= key a) (sorted_desc key l).
Proof.
  induction l as [|x l IH]; simpl; [constructor | now apply insert_desc_sorted].
Qed.

Lemma sorted_after {A} (R : A -> A -> Prop) l1 a l2 :
  StronglySorted R (l1 ++ a :: l2) -> Forall (R a) l2.
Proof.
  induction l1 as [|x l1 IH]; simpl; intros H; inversion H; subst; auto.
Qed.

Lemma last_occurrence {A} (eq_dec : forall a b : A, {a = b} + {a <> b})
  (a : A) l :
  In a l -> exists l1 l2, l = l1 ++ a :: l2 /\ ~ In a l2.
Proof.
  induction l as [|x l IH]; [intros []|].
  intros Hin. destruct (in_dec eq_dec a l) as [Hl | Hl].
  - destruct (IH Hl) as [l1 [l2 [-> Hn]]]. exists (x :: l1), l2. auto.
  - destruct Hin as [-> | Hin]; [|contradiction]. exists [], l. auto.
Qed.

Lemma turn_key_inj facing a b : turn_key facing a = turn_key facing b -> a = b.
Proof. destruct facing, a, b; vm_compute; congruence. Qed.

(** Expanding the start node over directions none of which is both
    unexplored and forced: the loop runs to its end. *)
Lemma expand_runs node_id facing ft nd l :
  forall rest st dc,
    (forall x, In x l -> In x (branch_keys nd)) ->
    (forall x, In x l ->
               dict_get Direction_eqb x (branches nd) = Some None ->
               is_forced ft (sub x facing) = false) ->
    dict_get id_eqb (Some node_id) (distance st) = Some dc ->
    exists st1,
      expand node_id facing ft node_id nd (l ++ rest) st
      = expand node_id facing ft node_id nd rest st1 /\
      dict_get id_eqb (Some node_id) (distance st1) = Some dc /\
      ((forall x, In x l ->
                  dict_get Direction_eqb x (branches nd) <> Some None) ->
       found_unexplored st1 = found_unexplored st /\
       dict_get id_eqb None (parent st1) = dict_get id_eqb None (parent st) /\
       dict_get id_eqb None (distance st1)
       = dict_get id_eqb None (distance st)).
Proof.
  induction l as [|x l IH]; intros rest st dc Hkeys Hnf Hdc.
  - exists st. auto.
  - assert (forall y, In y l -> In y (branch_keys nd)) as Hkeys'
      by (intros y Hy; apply Hkeys; now right).
    assert (forall y, In y l ->
                      dict_get Direction_eqb y (branches nd) = Some None ->
                      is_forced ft (sub y facing) = false) as Hnf'
      by (intros y Hy; apply Hnf; now right).
    destruct (dict_get_of_key Direction_eqb Direction_eqb_eq x (branches nd))
      as [v Hv]; [apply Hkeys; now left|].
    cbn [app expand]. rewrite Hv. cbn [of_option bind].
    destruct (id_eqb v None || negb (dict_mem id_eqb v (distance st))) eqn:Enew.
    + assert (Some node_id <> v) as Hne.
      { intros <-. unfold dict_mem in Enew. rewrite Hdc in Enew. discriminate. }
      rewrite Hdc. cbn [of_option bind].
      destruct v as [y|]; cbn [id_eqb].
      * destruct (IH rest
                    (mkBfs (dict_set id_eqb (Some y) (dc + 1) (distance st))
                       (dict_set id_eqb (Some y) (Some (node_id, x))
                          (parent st))
                       (frontier st ++ [Some y]) (found_unexplored st)) dc
                    Hkeys' Hnf') as [st1 [E [Hd1 Hrest]]].
        { cbn [distance].
          now rewrite (dict_get_set_ne id_eqb id_eqb_eq). }
        exists st1. split; [exact E|]. split; [exact Hd1|].
        intros Hnn. destruct Hrest as [Hf [Hp Hdn]].
        { intros z Hz. apply Hnn. now right. }
        cbn [found_unexplored parent distance] in Hf, Hp, Hdn.
        rewrite (dict_get_set_ne id_eqb id_eqb_eq) in Hp by discriminate.
        rewrite (dict_get_set_ne id_eqb id_eqb_eq) in Hdn by discriminate.
        auto.
      * rewrite (Hnf x (or_introl eq_refl) Hv), andb_false_r.
        destruct (IH rest
                    (mkBfs (dict_set id_eqb None (dc + 1) (distance st))
                       (dict_set id_eqb None (Some (node_id, x)) (parent st))
                       (frontier st ++ [None]) true) dc Hkeys' Hnf')
          as [st1 [E [Hd1 Hrest]]].
        { cbn [distance].
          now rewrite (dict_get_set_ne id_eqb id_eqb_eq). }
        exists st1. split; [exact E|]. split; [exact Hd1|].
        intros Hnn. destruct (Hnn x (or_introl eq_refl) Hv).
    + destruct (IH rest st dc Hkeys' Hnf' Hdc) as [st1 [E [Hd1 Hrest]]].
      exists st1. split; [exact E|]. split; [exact Hd1|].
      intros Hnn. apply Hrest. intros z Hz. apply Hnn. now right.
Qed.

(** [X14] An unexplored branch at hand.  When the current node itself has
    unexplored branches and none of them is the forced turn, the explorer is
    sent into the one with the smallest sort key, in a single step: the
    branch to the left of the way they face if it is unexplored, else the
    one straight ahead, else the one to the right, else the one behind.
    The later unexplored branch in visiting order overwrites the earlier
    one, so the order of preference is the reverse of the visiting order. *)
Theorem unexplored_branch_at_hand (ns : list Node) (node_id : Z)
  (facing : Direction) (force_turn : option Direction) (time : string)
  (nd : Node) (d : Direction) :
  py_get ns node_id = Ok nd ->
  dict_get Direction_eqb d (branches nd) = Some None ->
  (forall d', dict_get Direction_eqb d' (branches nd) = Some None ->
              turn_key facing d <= turn_key facing d') ->
  (forall d', dict_get Direction_eqb d' (branches nd) = Some None ->
              is_forced force_turn (sub d' facing) = false) ->
  guide ns node_id facing force_turn time
  = ([String.append "You should turn " (name (sub d facing))],
     Ok (mkLogEntry d time node_id)) /\
  turn_key facing d
  = match sub d facing with
    | left => 0
    | forward => 1
    | right => 2
    | backward => 3
    end.
Proof.
  intros Hnd Hd Hmin Hnf.
  split; [|destruct d, facing; reflexivity].
  set (sorted := sorted_desc (turn_key facing) (branch_keys nd)).
  assert (In d sorted) as Hin.
  { apply sorted_desc_In.
    exact (dict_get_key Direction_eqb Direction_eqb_eq d _ _ Hd). }
  assert (forall x, In x sorted -> In x (branch_keys nd)) as Hkeys
    by (intros x Hx; now apply sorted_desc_In in Hx).
  assert (forall a b : Direction, {a = b} + {a <> b}) as Hdec
    by (decide equality).
  destruct (last_occurrence Hdec d sorted Hin) as [l1 [l2 [Hsplit Hlast]]].
  assert (forall x, In x l2 ->
                    dict_get Direction_eqb x (branches nd) <> Some None)
    as Hl2.
  { intros x Hx Hnull.
    pose proof (sorted_desc_sorted (turn_key facing) (branch_keys nd)) as Hs.
    fold sorted in Hs. rewrite Hsplit in Hs. apply sorted_after in Hs.
    rewrite Forall_forall in Hs. specialize (Hs x Hx). cbv beta in Hs.
    specialize (Hmin x Hnull).
    assert (x = d) by (apply (turn_key_inj facing); lia).
    subst x. contradiction. }
  destruct (expand_runs node_id facing force_turn nd l1 (d :: l2)
              (mkBfs [(Some node_id, 0)] [(Some node_id, None)] [] false) 0)
    as [st1 [E1 [Hd1 _]]].
  { intros x Hx. apply Hkeys. rewrite Hsplit. apply in_or_app. now left. }
  { intros x _. apply Hnf. }
  { cbn [distance dict_get id_eqb]. now rewrite Z.eqb_refl. }
  destruct (expand_runs node_id facing force_turn nd l2 []
              (mkBfs (dict_set id_eqb None (0 + 1) (distance st1))
                 (dict_set id_eqb None (Some (node_id, d)) (parent st1))
                 (frontier st1 ++ [None]) true) 0)
    as [st3 [E3 [_ Hrest]]].
  { intros x Hx. apply Hkeys. rewrite Hsplit. apply in_or_app.
    right. now right. }
  { intros x _. apply Hnf. }
  { cbn [distance]. now rewrite (dict_get_set_ne id_eqb id_eqb_eq). }
  destruct (Hrest Hl2) as [Hf3 [Hp3 Hdist3]].
  cbn [found_unexplored parent distance] in Hf3, Hp3, Hdist3.
  rewrite (dict_get_set_eq id_eqb id_eqb_eq) in Hp3.
  rewrite (dict_get_set_eq id_eqb id_eqb_eq) in Hdist3.
  rewrite app_nil_r in E3. cbn [expand] in E3.
  assert (expand node_id facing force_turn node_id nd sorted
            (mkBfs [(Some node_id, 0)] [(Some node_id, None)] [] false)
          = Ok st3) as Hexp.
  { rewrite Hsplit, E1. cbn [expand]. rewrite Hd.
    cbn [of_option bind id_eqb orb].
    rewrite Hd1. cbn [of_option bind]. rewrite (Hnf d Hd), andb_false_r.
    exact E3. }
  unfold guide, bfs, bfs_fuel. cbn [bfs_loop bfs_init frontier].
  unfold bfs_step. cbn [of_option bind distance parent found_unexplored].
  rewrite Hnd. cbn [bind]. fold sorted.
  change (distance (bfs_init node_id)) with [(Some node_id, 0)].
  change (parent (bfs_init node_id))
    with [(Some node_id, @None (Z * Direction))].
  change (found_unexplored (bfs_init node_id)) with false.
  rewrite Hexp. cbn [bind].
  rewrite Hf3, io_bind_lift_ok, Hf3. cbn [negb].
  unfold hops. rewrite Hdist3. change (Z.to_nat (0 + 1)) with 1%nat.
  cbn [first_hop id_eqb]. rewrite Hp3.
  cbn [bind of_option first_hop id_eqb]. rewrite Z.eqb_refl.
  reflexivity.
Qed.

Lemma unexplored_branch_at_hand_witness :
  let nd := mkNode [ (forward, None); (right, None); (backward, Some 0);
                     (left, None) ] "A" [] in
  let ns := [mkNode [(forward, Some 1)] "root node" []; nd] in
  guide ns 1 forward None "T"
  = (["You should turn left"], Ok (mkLogEntry left "T" 1)) /\
  turn_key forward left = 0.
Proof.
  intros nd ns.
  apply (unexplored_branch_at_hand ns 1 forward None "T" nd left).
  - reflexivity.
  - reflexivity.
  - intros d' _. destruct d'; vm_compute; discriminate.
  - reflexivity.
Defined.

(** ** Writing and reading back, stray items included *)

Section DictMore.
Context {K V : Type} (eqb : K -> K -> bool).
Hypothesis eqb_eq : forall a b, eqb a b = true <-> a = b.

Lemma dict_set_app_skip k (v : V) pre d :
  dict_get eqb k pre = None ->
  dict_set eqb k v (pre ++ d) = pre ++ dict_set eqb k v d.
Proof.
  induction pre as [|[k' v'] pre IH]; simpl; [reflexivity|].
  destruct (eqb k k'); [discriminate|]. intros H. now rewrite IH.
Qed.

Lemma fold_set_prefix (l : list (K * V)) pre :
  (forall e, In e l -> dict_get eqb (fst e) pre = None) ->
  forall acc,
    fold_left (fun d kv => dict_set eqb (fst kv) (snd kv) d) l (pre ++ acc)
    = pre ++ fold_left (fun d kv => dict_set eqb (fst kv) (snd kv) d) l acc.
Proof.
  induction l as [|e l IH]; intros H acc; simpl; [reflexivity|].
  rewrite dict_set_app_skip by (apply H; now left).
  apply IH. intros e' He'. apply H. now right.
Qed.

Lemma dict_keys_set k (v : V) d x :
  In x (dict_keys (dict_set eqb k v d)) -> x = k \/ In x (dict_keys d).
Proof.
  unfold dict_keys. induction d as [|[k' v'] d IH]; simpl.
  - intros [<- | []]. now left.
  - destruct (eqb k k'); simpl; [tauto|].
    intros [<- | H]; [tauto|]. destruct (IH H); tauto.
Qed.

Lemma fold_set_keys (l : list (K * V)) :
  forall acc x,
    In x (dict_keys
            (fold_left (fun d kv => dict_set eqb (fst kv) (snd kv) d) l acc)) ->
    In x (dict_keys acc) \/ In x (map fst l).
Proof.
  induction l as [|e l IH]; intros acc x H; simpl in *; [now left|].
  destruct (IH _ _ H) as [H1 | H1]; [|tauto].
  apply dict_keys_set in H1 as [-> | H1]; tauto.
Qed.

Lemma dict_get_no_key k (d : list (K * V)) :
  ~ In k (dict_keys d) -> dict_get eqb k d = None.
Proof.
  intros H. destruct (dict_get eqb k d) as [v|] eqn:E; [|reflexivity].
  destruct H. exact (dict_get_key eqb eqb_eq k v d E).
Qed.
End DictMore.

Lemma dict_set_map_values {K V W} (eqb : K -> K -> bool) (g : V -> W) k v d :
  dict_set eqb k (g v) (map (fun e => (fst e, g (snd e))) d)
  = map (fun e => (fst e, g (snd e))) (dict_set eqb k v d).
Proof.
  induction d as [|[k' v'] d IH]; simpl; [reflexivity|].
  destruct (eqb k k'); simpl; [reflexivity | now rewrite IH].
Qed.

Lemma dict_of_pairs_map_values {K V W} (eqb : K -> K -> bool) (g : V -> W) l :
  dict_of_pairs eqb (map (fun e => (fst e, g (snd e))) l)
  = map (fun e => (fst e, g (snd e))) (dict_of_pairs eqb l).
Proof.
  unfold dict_of_pairs.
  change (@nil (K * W)) with (map (fun e : K * V => (fst e, g (snd e))) [])
    at 1.
  generalize (@nil (K * V)) as acc. induction l as [|e l IH]; intros acc;
    simpl; [reflexivity|].
  rewrite dict_set_map_values. apply IH.
Qed.

Lemma reloaded_extras_keys n x :
  In x (map fst (extras (reloaded_node n))) ->
  exists k, In k (map fst (extras n)) /\ x = KStr (json_key k).
Proof.
  unfold reloaded_node, dict_of_pairs. cbn [extras]. intros H.
  apply (fold_set_keys pykey_eqb) in H as [[] | H].
  rewrite map_map in H. apply in_map_iff in H as [e [<- He]].
  exists (fst e). split; [now apply in_map | reflexivity].
Qed.

Lemma sound_reloaded_node n : sound_node n -> sound_node (reloaded_node n).
Proof.
  intros [Hnd Hex]. split; [exact Hnd|].
  apply Forall_forall. intros e He.
  destruct (reloaded_extras_keys n (fst e)) as [k [Hk ->]];
    [now apply in_map|].
  apply in_map_iff in Hk as [e' [<- He']].
  rewrite Forall_forall in Hex. exact (Hex e' He').
Qed.

Lemma node_of_py_sound n :
  Forall (fun e => plain_key (fst e)) (extras n) ->
  node_of_py (PDict (node_to_py n)) = Ok n.
Proof.
  destruct n as [bs s ex]. cbn [extras]. intros Hex.
  unfold node_of_py, node_to_py. cbn [branches description extras].
  unfold key_is. cbn [pykey_eqb String.eqb Ascii.eqb Bool.eqb andb].
  assert (forallb (fun kv : pykey * pyval => negb (is_schema_key (fst kv)))
            (map (fun e : pykey * Z => (fst e, PInt (snd e))) ex)
          = true) as ->.
  { induction Hex as [|[k z] ex [_ [Hb Hd]] _ IH]; [reflexivity|].
    cbn [map forallb fst snd]. rewrite IH.
    assert (is_schema_key k = false) as ->; [|reflexivity].
    unfold is_schema_key. destruct k as [t|d]; [|reflexivity].
    cbn [pykey_eqb json_key fst] in *.
    apply String.eqb_neq in Hb, Hd. now rewrite Hb, Hd. }
  rewrite (mapM_map branch_of_py _ (fun b => b))
    by (intros [d [z|]] _; reflexivity).
  cbn [bind]. rewrite map_id.
  rewrite (mapM_map extra_of_py _ (fun e => e))
    by (intros [k z] _; reflexivity).
  cbn [bind]. now rewrite map_id.
Qed.

(** The object written for a sound node, and what loading it gives. *)
Lemma json_dump_named_node_sound n :
  NoDup (branch_keys n) ->
  json_dump (PDict (named_node n))
  = PDict ((KStr "branches", PDict (plain_branches (branches n)))
           :: (KStr "description", PStr (description n))
           :: map (fun e => (fst e, PInt (snd e)))
                (map (fun e => (KStr (json_key (fst e)), snd e)) (extras n))).
Proof.
  intros Hnd. rewrite json_dump_PDict. unfold named_node.
  rewrite (named_branches_plain _ Hnd). cbn [map fst snd json_key].
  rewrite json_dump_plain_branches. cbn [json_dump].
  now rewrite !map_map.
Qed.

Lemma json_load_node_sound n :
  sound_node n ->
  json_load
    (PDict ((KStr "branches", PDict (plain_branches (branches n)))
            :: (KStr "description", PStr (description n))
            :: map (fun e => (fst e, PInt (snd e)))
                 (map (fun e => (KStr (json_key (fst e)), snd e)) (extras n))))
  = Ok (PDict (node_to_py (reloaded_node n))).
Proof.
  intros [Hnd Hex].
  set (E := map (fun e : pykey * Z => (KStr (json_key (fst e)), snd e))
              (extras n)).
  assert (forall e, In e E ->
                    exists k, fst e = KStr (json_key k) /\ plain_key k) as HE.
  { intros e He. unfold E in He. apply in_map_iff in He as [e' [<- He']].
    rewrite Forall_forall in Hex. exists (fst e'). split; [reflexivity|].
    exact (Hex e' He'). }
  rewrite json_load_PDict. cbn [mapM fst snd].
  rewrite (json_load_plain_branches _ Hnd). cbn [bind json_load].
  rewrite (mapM_ok _ _ (map (fun e : pykey * Z => (fst e, PInt (snd e))) E)).
  2:{ clear. induction E as [|e E IH]; simpl; constructor; auto. }
  cbn [bind]. unfold dict_of_pairs at 1.
  cbn [fold_left fst snd dict_set pykey_eqb String.eqb Ascii.eqb Bool.eqb andb].
  change [(KStr "branches", PDict (plain_branches (branches n)));
          (KStr "description", PStr (description n))]
    with ([(KStr "branches", PDict (plain_branches (branches n)));
           (KStr "description", PStr (description n))] ++ []).
  rewrite (fold_set_prefix pykey_eqb).
  2:{ intros e He. apply in_map_iff in He as [e' [<- He']].
      destruct (HE e' He') as [k [Hk [_ [Hb Hd]]]]. cbn [fst]. rewrite Hk.
      cbn [dict_get pykey_eqb]. apply String.eqb_neq in Hb, Hd.
      now rewrite Hb, Hd. }
  fold (dict_of_pairs pykey_eqb
          (map (fun e : pykey * Z => (fst e, PInt (snd e))) E)).
  rewrite (dict_of_pairs_map_values pykey_eqb PInt E).
  set (E' := dict_of_pairs pykey_eqb E).
  assert (py_lookup (KStr "afterturn")
            (map (fun e : pykey * Z => (fst e, PInt (snd e))) E') = None)
    as Hno.
  { apply (dict_get_no_key pykey_eqb pykey_eqb_eq). intros Hin.
    unfold dict_keys in Hin. rewrite map_map in Hin. cbn [fst] in Hin.
    apply (fold_set_keys pykey_eqb) in Hin as [[] | Hin].
    apply in_map_iff in Hin as [e [He1 He2]].
    destruct (HE e He2) as [k [Hk [Ha _]]]. rewrite Hk in He1.
    injection He1 as He1. contradiction. }
  unfold object_hook, dict_mem. cbn [app].
  cbn [dict_get pykey_eqb String.eqb Ascii.eqb Bool.eqb andb].
  rewrite Hno. cbn [of_option bind].
  rewrite (direction_keys_plain _ [] Hnd) by reflexivity.
  cbn [bind app dict_set pykey_eqb String.eqb Ascii.eqb Bool.eqb andb].
  reflexivity.
Qed.

Lemma load_encode_sound db : sound_db db -> load (encode db) = Ok (reloaded db).
Proof.
  intros H. unfold sound_db in H. rewrite Forall_forall in H.
  unfold encode. rewrite json_dump_PDict.
  cbn [map fst snd json_key json_dump]. rewrite !map_map.
  unfold load. rewrite json_load_PDict. cbn [mapM fst snd].
  rewrite !json_load_PList.
  rewrite (mapM_map json_load _
             (fun n => PDict (node_to_py (reloaded_node n)))).
  2:{ intros n Hn. destruct (H n Hn) as [Hnd Hex].
      rewrite (json_dump_named_node_sound n Hnd).
      now apply json_load_node_sound. }
  cbn [bind].
  rewrite (mapM_map json_load _ (fun e => PDict (entry_to_py e))).
  2:{ intros e _. destruct e as [d t n]. destruct d; reflexivity. }
  cbn [bind]. unfold dict_of_pairs, object_hook, dict_mem.
  cbn [fold_left fst snd dict_set dict_get pykey_eqb String.eqb Ascii.eqb
       Bool.eqb andb].
  cbn [bind db_of_py dict_get pykey_eqb String.eqb Ascii.eqb Bool.eqb andb].
  rewrite (mapM_map node_of_py _ reloaded_node).
  2:{ intros n Hn. apply node_of_py_sound.
      now destruct (sound_reloaded_node n (H n Hn)). }
  cbn [bind].
  rewrite (mapM_map entry_of_py _ (fun e => e))
    by (intros e _; apply entry_of_py_entry).
  cbn [bind]. now rewrite map_id.
Qed.

Lemma sound_reloaded db : sound_db db -> sound_db (reloaded db).
Proof.
  unfold sound_db, reloaded. cbn [nodes]. intros H.
  apply Forall_map. eapply Forall_impl; [|exact H].
  intros n. apply sound_reloaded_node.
Qed.

(** [X15] Writing and reading back a database with stray items.  For a
    database whose nodes have one branch slot per direction at most and
    whose other items sit under keys that are not written as ['afterturn'],
    ['branches'] or ['description'], serializing succeeds and loading the
    document gives the same nodes, branches, descriptions and log; but each
    other item comes back under the written name of its key, so the item
    that a fork put under a direction comes back under the decimal string of
    that direction, and of two items whose keys are written alike only the
    later value survives.  What comes back is again such a database, and
    reading it back once more changes nothing further. *)
Theorem stray_items_come_back_renamed (db : DB) :
  sound_db db ->
  serialize db = Ok (encode db) /\
  load (encode db) = Ok (reloaded db) /\
  sound_db (reloaded db) /\
  log (reloaded db) = log db /\
  map branches (nodes (reloaded db)) = map branches (nodes db) /\
  map description (nodes (reloaded db)) = map description (nodes db) /\
  (forall n, In n (nodes db) ->
             extras n = [] -> reloaded_node n = n) /\
  (forall n d z,
      extras n = [(KDir d, z)] ->
      extras (reloaded_node n) = [(KStr (string_of_Z (value d)), z)]).
Proof.
  intros H. split; [apply serialize_spec|].
  split; [now apply load_encode_sound|].
  split; [now apply sound_reloaded|].
  split; [reflexivity|].
  unfold reloaded. cbn [nodes]. rewrite !map_map.
  split; [reflexivity|]. split; [reflexivity|]. split.
  - intros [bs s ex] _. cbn [extras]. now intros ->.
  - intros [bs s ex] d z. cbn [extras]. now intros ->.
Qed.

Lemma stray_items_come_back_renamed_witness :
  let n2 := mkNode [(right, Some 1)] EmptyString
              [(KStr "1", 7); (KDir right, 1)] in
  let db := mkDB [ mkNode [(forward, Some 1)] "root node" [];
                   mkNode [(right, None); (backward, Some 0); (left, Some 2)]
                     "A" [];
                   n2 ]
                 [mkLogEntry forward "T" 0] in
  sound_db db /\
  load (encode db) = Ok (reloaded db) /\
  extras (reloaded_node n2) = [(KStr "1", 1)].
Proof.
  intros n2 db.
  assert (sound_db db) as H.
  { unfold sound_db, sound_node, plain_key. cbn.
    repeat constructor; simpl; intuition discriminate. }
  split; [exact H|].
  destruct (stray_items_come_back_renamed db H) as [_ [E _]].
  split; [exact E | reflexivity].
Defined.

(** ** The file stays loadable *)

Lemma dict_set_NoDup {K V} (eqb : K -> K -> bool)
  (eqb_eq : forall a b, eqb a b = true <-> a = b) k (v : V) d :
  NoDup (dict_keys d) -> NoDup (dict_keys (dict_set eqb k v d)).
Proof.
  unfold dict_keys. induction d as [|[k' v'] d IH]; simpl; intros H.
  - constructor; [tauto | constructor].
  - inversion_clear H as [|? ? Hk' Hd].
    destruct (eqb k k') eqn:E; simpl.
    + apply eqb_eq in E as ->. now constructor.
    + constructor; [|now apply IH].
      intros Hin. apply (dict_keys_set eqb) in Hin as [-> | Hin]; [|tauto].
      now rewrite (eqb_same eqb eqb_eq) in E.
Qed.

Lemma plain_key_KDir d : plain_key (KDir d).
Proof. unfold plain_key. destruct d; repeat split; discriminate. Qed.

Lemma sound_set_item d z n : sound_node n -> sound_node (set_item d z n).
Proof.
  intros [H1 H2]. split; [exact H1|]. unfold set_item. cbn [extras].
  rewrite Forall_forall in *. intros [k v] Hin. cbn [fst].
  assert (In k (dict_keys (dict_set pykey_eqb (KDir d) z (extras n)))) as Hk
    by (apply in_map_iff; now exists (k, v)).
  apply dict_keys_set in Hk as [-> | Hk]; [apply plain_key_KDir|].
  apply in_map_iff in Hk as [e [<- He]]. now apply H2.
Qed.

Lemma sound_set_branch d v n : sound_node n -> sound_node (set_branch d v n).
Proof.
  intros [H1 H2]. split; [|exact H2]. unfold branch_keys, set_branch.
  cbn [branches]. now apply (dict_set_NoDup Direction_eqb Direction_eqb_eq).
Qed.

Lemma sound_new_node abs behind last_node_id descr :
  NoDup abs -> In behind abs ->
  sound_node (new_node abs behind last_node_id descr).
Proof.
  intros H1 H2. split; [now rewrite new_node_keys | constructor].
Qed.

Lemma Forall_update_nth {A} (P : A -> Prop) f p l :
  (forall x, P x -> P (f x)) -> Forall P l -> Forall P (update_nth p f l).
Proof.
  intros Hf. revert p.
  induction l as [|x l IH]; intros p H; [destruct p; constructor|].
  inversion_clear H. destruct p; simpl; constructor; auto.
Qed.

Lemma Forall_removelast {A} (P : A -> Prop) l :
  Forall P l -> Forall P (removelast l).
Proof.
  induction l as [|x [|y l] IH]; intros H; simpl; [constructor ..|].
  inversion_clear H. constructor; auto.
Qed.

Lemma fork_sound dirs ft time choice db out db' :
  sound_db db ->
  fork dirs ft time choice db = (out, Ok (Some db')) ->
  sound_db db'.
Proof.
  intros Hs H.
  destruct (fork_inv _ _ _ _ _ _ _ H)
    as (last & node_id & ns1 & p & prev & d & _ & Hns1 & _ & _ & Hns & _).
  unfold sound_db in *. rewrite Hns.
  apply Forall_update_nth; [intros x; apply sound_set_branch|].
  destruct Hns1 as [[q ->] | (abs & descr & -> & _ & Hnd & Hin)].
  - apply Forall_update_nth; [intros x; apply sound_set_item | exact Hs].
  - apply Forall_app. split; [exact Hs|].
    constructor; [now apply sound_new_node | constructor].
Qed.

Lemma undo_sound db out db' :
  sound_db db -> undo db = (out, Ok db') -> sound_db db'.
Proof.
  intros Hs. unfold undo.
  destruct (py_last (log db)) as [last|]; [|discriminate].
  rewrite io_bind_lift_ok.
  destruct (py_get (nodes db) (node last)); [|discriminate].
  rewrite io_bind_lift_ok.
  destruct (node last =? py_len (nodes db) - 1);
    unfold io_bind, io_ret, print; cbn [fst snd]; intros [= _ <-];
    unfold sound_db in *; cbn [nodes]; [|exact Hs].
  now apply Forall_removelast.
Qed.

Lemma save_loadable b a db : sound_db db -> loadable (db_file (save b a db)).
Proof.
  intros H. unfold save. rewrite serialize_spec. cbn [db_file loadable].
  exists (reloaded db). split; [now apply load_encode_sound|].
  now apply sound_reloaded.
Qed.

Lemma not_read_loadable f e :
  loadable f -> read_db f = Raise e -> db_file (not_read e f) = f.
Proof.
  intros Hf Er. destruct f as [| |j|]; cbn [read_db loadable] in *.
  - now injection Er as <-.
  - destruct Hf.
  - destruct Hf as [db [Hl _]]. congruence.
  - destruct Hf.
Qed.

Lemma main_keeps_loadable argv time choice f :
  loadable f -> loadable (db_file (main argv time choice f)).
Proof.
  intros Hf. unfold main.
  destruct (arg argv 1) as [command|e]; [|exact Hf].
  destruct (String.eqb command "begin").
  { apply save_loadable. unfold sound_db, begin. cbn [nodes].
    repeat constructor. simpl. tauto. }
  destruct (String.eqb command "fork").
  { destruct (match arg argv 3 with
              | Ok s => d <- letter_dir s;; Ok (Some d)
              | Raise _ => Ok None
              end) as [force_turn|e]; [|exact Hf].
    destruct (read_db f) as [db|e] eqn:Er;
      [|now rewrite (not_read_loadable f e)].
    destruct (fork _ force_turn time choice db) as [out [[db'|]|e]] eqn:Ef;
      [|exact Hf ..].
    apply save_loadable. eapply fork_sound; [|exact Ef].
    destruct f as [| |j|]; try discriminate.
    destruct Hf as [db0 [Hl Hs]]. cbn [read_db] in Er. congruence. }
  destruct (String.eqb command "undo").
  { destruct (read_db f) as [db|e] eqn:Er;
      [|now rewrite (not_read_loadable f e)].
    destruct (undo db) as [out [db'|e]] eqn:Eu; [|exact Hf].
    apply save_loadable. eapply undo_sound; [|exact Eu].
    destruct f as [| |j|]; try discriminate.
    destruct Hf as [db0 [Hl Hs]]. cbn [read_db] in Er. congruence. }
  exact Hf.
Qed.

Lemma session_loadable_from time cs :
  forall f, loadable f ->
            loadable (fold_left (fun f c => db_file (invoke time c f)) cs f).
Proof.
  induction cs as [|c cs IH]; intros f Hf; [exact Hf|].
  cbn [fold_left]. apply IH. unfold invoke. apply main_keeps_loadable, Hf.
Qed.

(** [X16] The program can always read what it wrote.  If the database file
    is absent, or holds a document that loads as a database whose nodes have
    one branch slot per direction at most and other items only beside the
    names the program uses, then after any invocation, with whatever
    arguments and reply and whether it fails or not, the file is again
    absent or such a document.  So after any sequence of invocations on a
    file that did not exist at first, every later [fork] and [undo] gets past
    loading the file: neither a stray item of a known node nor an undo that
    leaves stale ids behind makes the document unreadable. *)
Theorem file_stays_loadable (time : string) :
  (forall argv choice f,
      loadable f -> loadable (db_file (main argv time choice f))) /\
  (forall cs, loadable (session time cs)) /\
  (forall cs, session time cs = Absent \/
              exists db, read_db (session time cs) = Ok db).
Proof.
  split; [intros argv choice f Hf; apply main_keeps_loadable, Hf|].
  assert (forall cs, loadable (session time cs)) as H
    by (intros cs; exact (session_loadable_from time cs Absent I)).
  split; [exact H|]. intros cs. specialize (H cs).
  generalize dependent (session time cs). intros [| |j|] H.
  - left. reflexivity.
  - destruct H.
  - destruct H as [db [Hl _]]. right. exists db. exact Hl.
  - destruct H.
Qed.

Lemma file_stays_loadable_witness :
  loadable (Document dangling_document) /\
  loadable
    (db_file (main ["indoor_mapper.py"; "fork"; "wd"] "T" (Text "B")
                (Document dangling_document))).
Proof.
  assert (loadable (Document dangling_document)) as H.
  { cbn [loadable].
    destruct (load dangling_document) as [db|e] eqn:E;
      [|vm_compute in E; discriminate E].
    exists db. split; [reflexivity|].
    vm_compute in E. injection E as <-.
    unfold sound_db, sound_node, plain_key. cbn.
    repeat constructor; simpl; intuition discriminate. }
  split; [exact H|].
  exact (proj1 (file_stays_loadable "T") _ _ _ H).
Defined.

(** ** When the guidance fails *)

Lemma expand_total ns node_id facing ft current nd :
  py_get ns current = Ok nd ->
  reachable ns node_id current ->
  forall ds st,
    (forall d, In d ds -> In d (branch_keys nd)) ->
    dict_mem id_eqb (Some current) (distance st) = true ->
    frontier_sane ns node_id st ->
    exists st',
      expand node_id facing ft current nd ds st = Ok st' /\
      frontier_sane ns node_id st'.
Proof.
  intros Hnd Hreach.
  induction ds as [|x ds IH]; intros st Hds Hcur Hs; cbn [expand].
  - exists st. split; [reflexivity | exact Hs].
  - destruct (dict_get_of_key Direction_eqb Direction_eqb_eq x (branches nd))
      as [v Ev]; [apply Hds; now left|].
    rewrite Ev. cbn [of_option bind].
    assert (forall d, In d ds -> In d (branch_keys nd)) as Hds'
      by (intros d Hd; apply Hds; now right).
    destruct (id_eqb v None || negb (dict_mem id_eqb v (distance st)));
      [|now apply IH].
    pose proof Hcur as Hdc. unfold dict_mem in Hdc.
    destruct (dict_get id_eqb (Some current) (distance st)) as [dc|];
      [|discriminate]. cbn [of_option bind].
    destruct Hs as [H1 [H2 H3]].
    destruct v as [y|]; cbn [id_eqb].
    + apply IH; [exact Hds' | now apply dict_mem_set_mono |].
      unfold frontier_sane. cbn [frontier distance found_unexplored].
      repeat split.
      * apply in_app_or in H as [H | [[= <-] | []]]; [now apply H1|].
        apply (reach_next ns node_id current x y); [exact Hreach|].
        exists nd. split; assumption.
      * apply in_app_or in H as [H | [[= <-] | []]].
        -- apply dict_mem_set_mono. now apply H1.
        -- unfold dict_mem.
           now rewrite (dict_get_set_eq id_eqb id_eqb_eq).
      * intros Hf. apply dict_mem_set_mono. now apply H2.
      * intros Hf Hin. apply in_app_or in Hin as [Hin | [[=] | []]].
        now apply (H3 Hf).
    + assert (dict_mem id_eqb None
                (dict_set id_eqb None (dc + 1) (distance st)) = true) as Hn
        by (unfold dict_mem; now rewrite (dict_get_set_eq id_eqb id_eqb_eq)).
      destruct ((current =? node_id) && is_forced ft (sub x facing)).
      * eexists. split; [reflexivity|].
        unfold frontier_sane. cbn [frontier distance found_unexplored].
      repeat split.
        -- now apply H1.
        -- apply dict_mem_set_mono. now apply H1.
        -- intros _. exact Hn.
        -- discriminate.
      * apply IH; [exact Hds' | now apply dict_mem_set_mono |].
        unfold frontier_sane. cbn [frontier distance found_unexplored].
      repeat split.
        -- apply in_app_or in H as [H | [[=] | []]]. now apply H1.
        -- apply in_app_or in H as [H | [[=] | []]].
           apply dict_mem_set_mono. now apply H1.
        -- intros _. exact Hn.
        -- discriminate.
Qed.

Lemma bfs_loop_sane ns node_id facing ft fuel :
  forall st,
    found_unexplored st = false ->
    frontier_sane ns node_id st ->
    match bfs_loop fuel ns node_id facing ft st with
    | Ok st' => frontier_sane ns node_id st'
    | Raise e =>
        e = OutOfFuel \/
        (e = IndexError /\
         exists x, reachable ns node_id x /\ py_get ns x = Raise IndexError)
    end.
Proof.
  induction fuel as [|fuel IH]; intros st Hf Hs; cbn [bfs_loop].
  - destruct (frontier st); [exact Hs | now left].
  - destruct (frontier st) as [|popped rest] eqn:Efr; [exact Hs|].
    pose proof Hs as [H1 [H2 H3]]. rewrite Efr in H1, H3.
    destruct popped as [current|]; [|destruct (H3 Hf); now left].
    destruct (H1 current (or_introl eq_refl)) as [Hreach Hcur].
    unfold bfs_step. cbn [of_option bind].
    destruct (py_get ns current) as [nd|e] eqn:Eget; cbn [bind].
    2:{ right. pose proof (py_get_raises _ _ _ Eget) as ->.
        split; [reflexivity|]. now exists current. }
    destruct (expand_total ns node_id facing ft current nd Eget Hreach
                (sorted_desc (turn_key facing) (branch_keys nd))
                (mkBfs (distance st) (parent st) rest (found_unexplored st)))
      as [st1 [E Hs1]].
    + intros d Hd. now apply sorted_desc_In in Hd.
    + exact Hcur.
    + unfold frontier_sane. cbn [frontier distance found_unexplored].
      repeat split.
      * apply H1. now right.
      * apply H1. now right.
      * exact H2.
      * intros Hf' Hin. apply (H3 Hf'). now right.
    + rewrite E. cbn [bind].
      destruct (found_unexplored st1) eqn:Ef1; [exact Hs1|].
      now apply IH.
Qed.

Lemma bfs_sane ns node_id facing ft :
  match bfs ns node_id facing ft with
  | Ok st => found_unexplored st = true ->
             dict_mem id_eqb None (distance st) = true
  | Raise e =>
      e = IndexError /\
      exists x, reachable ns node_id x /\ py_get ns x = Raise IndexError
  end.
Proof.
  assert (frontier_sane ns node_id (bfs_init node_id)) as Hinit.
  { unfold frontier_sane, bfs_init. cbn [frontier distance found_unexplored].
    split; [|split; [discriminate | intros _ [[=] | []]]].
    intros x [[= <-] | []]. split; [apply reach_here|].
    unfold dict_mem. cbn [dict_get id_eqb]. now rewrite Z.eqb_refl. }
  pose proof (bfs_loop_sane ns node_id facing ft (bfs_fuel ns)
                (bfs_init node_id) eq_refl Hinit) as H.
  pose proof (bfs_terminates ns node_id facing ft) as Hfuel.
  unfold bfs in *.
  destruct (bfs_loop (bfs_fuel ns) ns node_id facing ft (bfs_init node_id))
    as [st|e].
  - exact (proj1 (proj2 H)).
  - destruct H as [-> | H]; [now destruct Hfuel | exact H].
Qed.

Lemma first_hop_total node_id dist par :
  bfs_wf node_id dist par ->
  forall fuel k d,
    (hops dist k <= fuel)%nat ->
    dict_mem id_eqb k dist = true ->
    exists d', first_hop fuel par node_id k d = Ok d'.
Proof.
  intros Hwf. pose proof Hwf as [_ [_ [H2 _]]].
  induction fuel as [|fuel IH]; intros k d Hfuel Hk; rewrite first_hop_eq;
    (destruct (id_eqb k (Some node_id)) eqn:Ek; [now exists d|]);
    assert (k <> Some node_id) as Hne
      by (intros ->; now rewrite (eqb_same id_eqb id_eqb_eq) in Ek);
    unfold dict_mem in Hk;
    destruct (dict_get id_eqb k dist) as [v|] eqn:Ev; try discriminate;
    destruct (H2 k v Hne Ev) as [c [d' [dc [Hp [Hc [Hpos ->]]]]]];
    rewrite Hp; cbn [of_option bind];
    unfold hops in Hfuel; rewrite Ev in Hfuel.
  - lia.
  - apply IH.
    + unfold hops. rewrite Hc. lia.
    + unfold dict_mem. now rewrite Hc.
Qed.

Lemma path_to_root_total ns node_id dist par :
  bfs_wf node_id dist par ->
  parent_edges ns par ->
  forall fuel x acc,
    (hops dist (Some x) <= fuel)%nat ->
    dict_mem id_eqb (Some x) dist = true ->
    exists l,
      path_to_root fuel par x acc = Ok (acc ++ l) /\
      Forall (fun h => exists nd, py_get ns (fst h) = Ok nd) l.
Proof.
  intros Hwf Hpe. pose proof Hwf as [_ [H1 [H2 _]]].
  induction fuel as [|fuel IH]; intros x acc Hfuel Hx;
    rewrite path_to_root_eq;
    (destruct (Z.eq_dec x node_id) as [-> | Hne];
     [rewrite H1; exists []; rewrite app_nil_r; split;
      [reflexivity | constructor]|]);
    assert (Some x <> Some node_id) as Hne' by congruence;
    unfold dict_mem in Hx;
    destruct (dict_get id_eqb (Some x) dist) as [v|] eqn:Ev;
    try discriminate;
    destruct (H2 _ v Hne' Ev) as [c [d' [dc [Hp [Hc [Hpos ->]]]]]];
    rewrite Hp; cbn [of_option bind];
    unfold hops in Hfuel; rewrite Ev in Hfuel.
  - lia.
  - destruct (IH c (acc ++ [(c, d')])) as [l [E Hl]].
    + unfold hops. rewrite Hc. lia.
    + unfold dict_mem. now rewrite Hc.
    + exists ((c, d') :: l). rewrite E, <- app_assoc. split; [reflexivity|].
      constructor; [|exact Hl].
      destruct (Hpe _ _ _ Hp) as [nd [Hnd _]]. now exists nd.
Qed.

Lemma print_hops_total ns :
  forall hs facing,
    Forall (fun h => exists nd, py_get ns (fst h) = Ok nd) hs ->
    exists out, print_hops ns facing hs = (out, Ok tt).
Proof.
  induction hs as [|[nid t] hs IH]; intros facing H; cbn [print_hops].
  - now exists [].
  - inversion_clear H as [|? ? [nd Hnd] Hhs]. cbn [fst] in Hnd.
    rewrite Hnd, io_bind_lift_ok. unfold io_bind at 1. cbn [print fst snd].
    destruct (IH t Hhs) as [out ->]. cbn [fst snd]. eexists. reflexivity.
Qed.

(** The ways the guidance can end. *)
Lemma guide_cases ns node_id facing ft time :
  (exists out entry, guide ns node_id facing ft time = (out, Ok entry) /\
                     (hd EmptyString out = done_line ->
                      reachable ns node_id 0)) \/
  (guide ns node_id facing ft time = ([], Raise IndexError) /\
   exists x, reachable ns node_id x /\ py_get ns x = Raise IndexError) \/
  (guide ns node_id facing ft time = ([done_line], Raise KeyError) /\
   ~ reachable ns node_id 0).
Proof.
  unfold guide. pose proof (bfs_sane ns node_id facing ft) as Hb.
  destruct (bfs ns node_id facing ft) as [st|e] eqn:Ebfs.
  2:{ right. left. destruct Hb as [-> Hx]. split; [reflexivity | exact Hx]. }
  rewrite io_bind_lift_ok.
  pose proof (bfs_wf_result _ _ _ _ _ Ebfs) as Hwf.
  pose proof (bfs_edges _ _ _ _ _ Ebfs) as Hpe.
  destruct (found_unexplored st) eqn:Ef; cbn [negb].
  - left.
    destruct (first_hop_total node_id _ _ Hwf (hops (distance st) None) None
                facing (Nat.le_refl _) (Hb eq_refl)) as [d ->].
    rewrite io_bind_lift_ok. unfold io_bind, print, io_ret. cbn [fst snd].
    eexists. eexists. split; [reflexivity|].
    cbn [hd app]. unfold done_line. intros H. discriminate H.
  - unfold io_bind at 1. cbn [print fst snd].
    destruct (dict_mem id_eqb (Some 0) (distance st)) eqn:E0.
    + left.
      destruct (path_to_root_total ns node_id _ _ Hwf Hpe
                  (hops (distance st) (Some 0)) 0 [] (Nat.le_refl _) E0)
        as [l [-> Hl]].
      rewrite io_bind_lift_ok. cbn [app].
      destruct (print_hops_total ns (rev l) facing) as [out Hout];
        [now apply Forall_rev|].
      rewrite Hout. unfold io_bind, io_ret. cbn [fst snd].
      eexists. eexists. split; [reflexivity|]. intros _.
      (* node 0 has a distance, so the search reached it *)
      clear - Ebfs E0 Hwf Hpe.
      assert (forall n k,
                 hops (distance st) k = n ->
                 forall x, k = Some x ->
                 dict_mem id_eqb k (distance st) = true ->
                 reachable ns node_id x) as Hr.
      { destruct Hwf as [_ [_ [H2 _]]].
        induction n as [|n IHn]; intros k Hn x -> Hk;
          (destruct (Z.eq_dec x node_id) as [-> | Hne]; [apply reach_here|]);
          assert (Some x <> Some node_id) as Hne' by congruence;
          unfold dict_mem in Hk;
          destruct (dict_get id_eqb (Some x) (distance st)) as [v|] eqn:Ev;
          try discriminate;
          destruct (H2 _ v Hne' Ev) as [c [d' [dc [Hp [Hc [Hpos ->]]]]]];
          unfold hops in Hn; rewrite Ev in Hn.
        - lia.
        - apply (reach_next ns node_id c d' x); [|now apply Hpe].
          apply (IHn (Some c)); [|reflexivity|].
          + unfold hops. rewrite Hc. lia.
          + unfold dict_mem. now rewrite Hc. }
      now apply (Hr _ (Some 0) eq_refl).
    + right. right.
      assert (dict_get id_eqb (Some 0) (parent st) = None) as Hp.
      { destruct Hwf as [_ [_ [_ H3]]]. apply H3. unfold dict_mem in E0.
        now destruct (dict_get id_eqb (Some 0) (distance st)). }
      rewrite path_to_root_eq, Hp. cbn [of_option bind].
      split; [reflexivity|]. intros Hr.
      destruct (bfs_done_explored _ _ _ _ _ Ebfs Ef 0 Hr) as [H _].
      congruence.
Qed.

(** [X17] When the guidance fails.  The search and the walks along the
    parents fail in two ways only.  With [IndexError], before anything is
    printed, when some id that can be reached from the current node along
    branches names no node, as after an undo that deleted a node other nodes
    still lead to.  With [KeyError], right after the line saying that the
    exploration is over, when node 0 cannot be reached from the current
    node.  So when every id that can be reached names a node and node 0 is
    among them, the guidance ends with a log entry; and whenever it says the
    exploration is over and ends with a log entry, node 0 can be reached. *)
Theorem guide_fails_only_on_stale_ids (ns : list Node) (node_id : Z)
  (facing : Direction) (force_turn : option Direction) (time : string) :
  (forall out e,
      guide ns node_id facing force_turn time = (out, Raise e) ->
      (e = IndexError /\ out = [] /\
       exists x, reachable ns node_id x /\ py_get ns x = Raise IndexError) \/
      (e = KeyError /\ out = [done_line] /\ ~ reachable ns node_id 0)) /\
  (closed_from ns node_id ->
   reachable ns node_id 0 ->
   exists out entry,
     guide ns node_id facing force_turn time = (out, Ok entry)) /\
  (forall out entry,
      guide ns node_id facing force_turn time = (out, Ok entry) ->
      hd EmptyString out = done_line ->
      reachable ns node_id 0).
Proof.
  destruct (guide_cases ns node_id facing force_turn time)
    as [[out [entry [E H]]] | [[E Hx] | [E Hr]]]; rewrite E;
    (split; [|split]).
  - intros o e [=].
  - intros _ _. now exists out, entry.
  - intros o e' [= <- _]. exact H.
  - intros o e [= <- <-]. left. auto.
  - intros Hc _. destruct Hx as [x [Hx1 Hx2]].
    destruct (Hc x Hx1) as [nd Hnd]. congruence.
  - intros o e [=].
  - intros o e [= <- <-]. right. auto.
  - intros _ H0. contradiction.
  - intros o e [=].
Qed.

Lemma guide_fails_only_on_stale_ids_witness :
  let stale := [ mkNode [(forward, Some 1)] "root node" [];
                 mkNode [(backward, Some 0); (left, Some 2)] "A" [] ] in
  let sound := [ mkNode [(forward, Some 1)] "root node" [];
                 mkNode [(backward, Some 0); (left, Some 1)] "A" [] ] in
  (exists x, reachable stale 1 x /\ py_get stale x = Raise IndexError) /\
  closed_from sound 1 /\
  reachable sound 1 0 /\
  exists out entry, guide sound 1 left None "T" = (out, Ok entry).
Proof.
  intros stale sound.
  assert (reachable sound 1 0) as H0.
  { apply (reach_next sound 1 1 backward 0); [apply reach_here|].
    eexists. split; reflexivity. }
  assert (closed_from sound 1) as Hc.
  { assert (forall x, reachable sound 1 x -> x = 0 \/ x = 1) as Hx.
    { induction 1 as [|b d c _ IH [nd [Hnd Hd]]]; [now right|].
      destruct IH as [-> | ->]; vm_compute in Hnd; injection Hnd as <-;
        destruct d; vm_compute in Hd; try discriminate Hd;
        injection Hd as <-; auto. }
    intros x Hr. destruct (Hx x Hr) as [-> | ->]; eexists; reflexivity. }
  split.
  - destruct (proj1 (guide_fails_only_on_stale_ids stale 1 left None "T")
                [] IndexError eq_refl)
      as [[_ [_ H]] | [H _]]; [exact H | discriminate H].
  - split; [exact Hc|]. split; [exact H0|].
    exact (proj1 (proj2 (guide_fails_only_on_stale_ids sound 1 left None
                           "T")) Hc H0).
Defined.

(** ** Ids without a node come from undo only *)

Lemma py_get_exists {A} (l : list A) i :
  (exists x, py_get l i = Ok x) <-> (exists p, py_pos (List.length l) i = Ok p).
Proof.
  unfold py_get. split.
  - intros [x H]. destruct (py_pos (List.length l) i) as [p|]; [|discriminate].
    now exists p.
  - intros [p Hp]. rewrite Hp. cbn [bind].
    pose proof (py_pos_lt _ _ _ Hp) as Hlt.
    destruct (nth_error l p) as [x|] eqn:Ex;
      [now exists x | apply nth_error_None in Ex; lia].
Qed.

Lemma py_pos_mono n m i :
  (n <= m)%nat ->
  (exists p, py_pos n i = Ok p) -> exists p, py_pos m i = Ok p.
Proof.
  intros Hnm [p Hp]. unfold py_pos in *.
  destruct ((0 <=? i) && (i <? Z.of_nat n)) eqn:E1.
  - apply andb_true_iff in E1 as [H1 H2].
    apply Z.leb_le in H1. apply Z.ltb_lt in H2.
    replace ((0 <=? i) && (i <? Z.of_nat m)) with true; [eauto|].
    symmetry. apply andb_true_iff. split; [apply Z.leb_le | apply Z.ltb_lt];
      lia.
  - destruct ((i <? 0) && (0 <=? i + Z.of_nat n)) eqn:E2; [|discriminate].
    apply andb_true_iff in E2 as [H1 H2].
    apply Z.ltb_lt in H1. apply Z.leb_le in H2.
    replace ((0 <=? i) && (i <? Z.of_nat m)) with false.
    2:{ symmetry. apply andb_false_iff. left. apply Z.leb_gt. lia. }
    replace ((i <? 0) && (0 <=? i + Z.of_nat m)) with true; [eauto|].
    symmetry. apply andb_true_iff. split; [apply Z.ltb_lt | apply Z.leb_le];
      lia.
Qed.

Lemma In_update_nth {A} (f : A -> A) p l y :
  In y (update_nth p f l) -> In y l \/ exists x, In x l /\ y = f x.
Proof.
  revert p. induction l as [|a l IH]; intros [|p]; simpl; try tauto.
  - intros [<- | H]; [right; exists a | left]; auto.
  - intros [<- | H]; [now left; left|].
    destruct (IH p H) as [H' | [x [Hx ->]]]; [now left; right|].
    right. exists x. auto.
Qed.

(** A change of the node list that keeps its ids valid: the list does not
    shrink, and each id held by a branch was held before or names a node. *)
Lemma ids_valid_change ns ns' :
  (List.length ns <= List.length ns')%nat ->
  (forall nd' d y,
      In nd' ns' ->
      dict_get Direction_eqb d (branches nd') = Some (Some y) ->
      (exists nd, In nd ns /\
                  dict_get Direction_eqb d (branches nd) = Some (Some y)) \/
      exists nd, py_get ns' y = Ok nd) ->
  ids_valid ns -> ids_valid ns'.
Proof.
  intros Hlen Hch Hv nd' d y Hin Hd.
  destruct (Hch nd' d y Hin Hd) as [[nd [Hnd Hy]] | H]; [|exact H].
  apply py_get_exists. apply (py_pos_mono (List.length ns)); [exact Hlen|].
  apply py_get_exists. now apply (Hv nd d y).
Qed.

Lemma fork_ids_valid dirs ft time choice db out db' :
  ids_valid (nodes db) ->
  fork dirs ft time choice db = (out, Ok (Some db')) ->
  ids_valid (nodes db').
Proof.
  intros Hv H.
  destruct (fork_inv _ _ _ _ _ _ _ H)
    as (last & node_id & ns1 & p & prev & d0 & _ & Hns1 & Hp & _ & Hns & _
        & _ & Hhere).
  assert (ids_valid ns1) as Hv1.
  { destruct Hns1 as [[q ->] | (abs & descr & -> & _ & _ & _)].
    - apply (ids_valid_change (nodes db)); [now rewrite length_update_nth | |
                                             exact Hv].
      intros nd' d y Hin Hd. left.
      apply In_update_nth in Hin as [Hin | [x [Hx ->]]]; eauto.
    - apply (ids_valid_change (nodes db));
        [rewrite length_app; lia | | exact Hv].
      intros nd' d y Hin Hd.
      apply in_app_or in Hin as [Hin | [<- | []]]; [left; eauto|].
      right. apply py_get_exists.
      destruct (Direction_eqb d (opposite (afterturn last))) eqn:E.
      + apply Direction_eqb_eq in E. subst d. unfold new_node in Hd.
        cbn [branches] in Hd.
        rewrite (dict_get_set_eq Direction_eqb Direction_eqb_eq) in Hd.
        injection Hd as <-. now exists p.
      + assert (d <> opposite (afterturn last)) as Hne
          by (intros ->;
              now rewrite (eqb_same Direction_eqb Direction_eqb_eq) in E).
        pose proof (new_node_other abs _ (node last) descr d Hne) as Hn.
        unfold branch_get in Hn. rewrite Hd in Hn. discriminate Hn. }
  rewrite Hns in *.
  apply (ids_valid_change ns1); [now rewrite length_update_nth | | exact Hv1].
  intros nd' d y Hin Hd.
  apply In_update_nth in Hin as [Hin | [x [Hx ->]]]; [left; eauto|].
  unfold set_branch in Hd. cbn [branches] in Hd.
  destruct (Direction_eqb d (afterturn last)) eqn:E.
  - apply Direction_eqb_eq in E. subst d.
    rewrite (dict_get_set_eq Direction_eqb Direction_eqb_eq) in Hd.
    injection Hd as <-. right. exact Hhere.
  - rewrite (dict_get_set_ne Direction_eqb Direction_eqb_eq) in Hd;
      [left; eauto|].
    intros ->. now rewrite (eqb_same Direction_eqb Direction_eqb_eq) in E.
Qed.

Lemma ids_valid_closed ns a :
  ids_valid ns -> (exists nd, py_get ns a = Ok nd) -> closed_from ns a.
Proof.
  intros Hv Ha x Hr. induction Hr as [|b d c _ _ [nd [Hnd Hd]]]; [exact Ha|].
  apply (Hv nd d c); [|exact Hd]. now apply py_get_In in Hnd.
Qed.

Lemma reloaded_ids_valid db :
  ids_valid (nodes db) -> ids_valid (nodes (reloaded db)).
Proof.
  unfold reloaded. cbn [nodes].
  apply ids_valid_change; [now rewrite length_map|].
  intros nd' d y Hin Hd. left. apply in_map_iff in Hin as [nd [<- Hin]].
  exists nd. split; [exact Hin | exact Hd].
Qed.

Lemma save_ids_valid b a db :
  sound_db db -> ids_valid (nodes db) ->
  file_ids_valid (db_file (save b a db)).
Proof.
  intros Hs Hv. unfold save. rewrite serialize_spec.
  cbn [db_file file_ids_valid]. exists (reloaded db).
  split; [now apply load_encode_sound|].
  split; [now apply sound_reloaded | now apply reloaded_ids_valid].
Qed.

Lemma main_keeps_ids_valid argv time choice f :
  nth_error argv 1 <> Some "undo" ->
  file_ids_valid f ->
  file_ids_valid (db_file (main argv time choice f)).
Proof.
  intros Hu Hf. unfold main, arg.
  destruct (nth_error argv 1) as [command|]; cbn [of_option]; [|exact Hf].
  destruct (String.eqb command "begin").
  { apply save_ids_valid.
    - unfold sound_db, begin. cbn [nodes]. repeat constructor. simpl. tauto.
    - intros nd d y [<- | []]. unfold begin. cbn [branches dict_get].
      destruct (Direction_eqb d forward); discriminate. }
  destruct (String.eqb command "fork").
  { destruct (match of_option IndexError (nth_error argv 3) with
              | Ok s => d <- letter_dir s;; Ok (Some d)
              | Raise _ => Ok None
              end) as [force_turn|e]; [|exact Hf].
    destruct (read_db f) as [db|e] eqn:Er.
    2:{ destruct f as [| |j|]; cbn [read_db file_ids_valid] in *;
          [now injection Er as <- | destruct Hf | | destruct Hf].
        destruct Hf as [db [Hl _]]. congruence. }
    destruct (fork _ force_turn time choice db) as [out [[db'|]|e]] eqn:Ef;
      [|exact Hf ..].
    destruct f as [| |j|]; try discriminate.
    destruct Hf as [db0 [Hl [Hs Hv]]]. cbn [read_db] in Er.
    assert (db0 = db) as -> by congruence.
    apply save_ids_valid;
      [eapply fork_sound | eapply fork_ids_valid]; eauto. }
  destruct (String.eqb command "undo") eqn:E; [|exact Hf].
  apply String.eqb_eq in E. subst command. now destruct Hu.
Qed.

Lemma session_ids_valid_from time cs :
  never_undone cs ->
  forall f, file_ids_valid f ->
            file_ids_valid
              (fold_left (fun f c => db_file (invoke time c f)) cs f).
Proof.
  induction 1 as [|c cs Hc _ IH]; intros f Hf; [exact Hf|].
  cbn [fold_left]. apply IH. unfold invoke.
  apply main_keeps_ids_valid; [exact Hc | exact Hf].
Qed.

(** [X18] Ids without a node come from undo only.  A fork that ends with a
    database to save never makes a branch hold an id that names no node: if
    no branch did before, none does after.  So in a session on a fresh file
    in which nothing is undone, the file always loads as a database in which
    every branch that is explored leads to a node, and in such a database
    every id that can be reached from a node names a node, so that the
    search cannot fail on a missing one. *)
Theorem stale_ids_come_from_undo (time : string) :
  (forall dirs force_turn choice db out db',
      ids_valid (nodes db) ->
      fork dirs force_turn time choice db = (out, Ok (Some db')) ->
      ids_valid (nodes db')) /\
  (forall cs, never_undone cs -> file_ids_valid (session time cs)) /\
  (forall ns a nd,
      ids_valid ns -> py_get ns a = Ok nd -> closed_from ns a).
Proof.
  split; [intros; eapply fork_ids_valid; eauto|].
  split.
  - intros cs Hcs. exact (session_ids_valid_from time cs Hcs Absent I).
  - intros ns a nd Hv Ha. apply ids_valid_closed; [exact Hv | now exists nd].
Qed.

Lemma stale_ids_come_from_undo_witness :
  never_undone loop_session /\
  file_ids_valid (session "T" loop_session) /\
  ids_valid (nodes (begin "T")) /\
  match fork "da" None "T" (Text "A") (begin "T") with
  | (_, Ok (Some db')) => ids_valid (nodes db')
  | _ => False
  end /\
  closed_from (nodes (begin "T")) 0.
Proof.
  assert (never_undone loop_session) as Hn
    by (repeat constructor; discriminate).
  assert (ids_valid (nodes (begin "T"))) as Hb.
  { intros nd d y [<- | []]. cbn [branches dict_get].
    destruct (Direction_eqb d forward); discriminate. }
  pose proof (stale_ids_come_from_undo "T") as [H1 [H2 H3]].
  split; [exact Hn|]. split; [exact (H2 loop_session Hn)|].
  split; [exact Hb|]. split.
  - destruct (fork "da" None "T" (Text "A") (begin "T"))
      as [out [[db'|]|e]] eqn:E.
    + exact (H1 _ _ _ _ _ _ Hb E).
    + vm_compute in E. discriminate E.
    + vm_compute in E. discriminate E.
  - exact (H3 (nodes (begin "T")) 0 _ Hb eq_refl).
Defined.

(** ** The other commands *)

(** [X19] Starting over.  [begin] asks nothing and reads nothing: whatever
    the file holds, a document that does not load included, and whatever
    arguments follow the command, it prints nothing and replaces the file by
    the database of one node, the root with its forward branch unexplored,
    and one log entry, facing forward at the root at the clock reading; the
    next invocation loads exactly that. *)
Theorem begin_starts_over (prog : string) (rest : list string)
  (time : string) (choice : answer) (f : file) :
  main (prog :: "begin" :: rest) time choice f
  = mkOutcome [] None (Document (encode (begin time))) /\
  read_db (Document (encode (begin time)))
  = Ok (mkDB [mkNode [(forward, None)] "root node" []]
             [mkLogEntry forward time 0]).
Proof.
  split.
  - unfold main, arg. cbn [nth_error of_option].
    cbn [String.eqb Ascii.eqb Bool.eqb andb]. unfold save.
    now rewrite serialize_spec.
  - cbn [read_db]. apply load_encode. unfold conforms, begin. cbn [nodes].
    repeat constructor. simpl. tauto.
Qed.

(** [X20] No command, or another one.  Without a first argument the
    program ends with [IndexError]; with a first argument that is none of
    [begin], [fork] and [undo] it ends without a word.  In both cases the
    file is not read and stays as it is, so that a misspelt command goes
    unnoticed. *)
Theorem other_commands_do_nothing (argv : list string) (time : string)
  (choice : answer) (f : file) :
  (nth_error argv 1 = None ->
   main argv time choice f = mkOutcome [] (Some IndexError) f) /\
  (forall command,
      nth_error argv 1 = Some command ->
      command <> "begin" -> command <> "fork" -> command <> "undo" ->
      main argv time choice f = mkOutcome [] None f).
Proof.
  unfold main, arg. split.
  - intros ->. reflexivity.
  - intros command -> H1 H2 H3. cbn [of_option].
    apply String.eqb_neq in H1, H2, H3. now rewrite H1, H2, H3.
Qed.

Lemma other_commands_do_nothing_witness :
  main ["indoor_mapper.py"] "T" no_reply Truncated
  = mkOutcome [] (Some IndexError) Truncated /\
  main ["indoor_mapper.py"; "Fork"; "wd"] "T" no_reply Absent
  = mkOutcome [] None Absent.
Proof.
  split.
  - exact (proj1 (other_commands_do_nothing ["indoor_mapper.py"] "T" no_reply
                    Truncated) eq_refl).
  - apply (proj2 (other_commands_do_nothing
                    ["indoor_mapper.py"; "Fork"; "wd"] "T" no_reply Absent)
             "Fork" eq_refl); discriminate.
Defined.

(** ** The prompt *)

Lemma possible_from abs behind ns :
  forall n0 n nd,
    In (n, nd) (possible abs behind n0 ns) <->
    exists i,
      n = n0 + Z.of_nat i /\
      nth_error ns i = Some nd /\
      keys_eq_set (branch_keys nd) abs = true /\
      dict_get Direction_eqb behind (branches nd) = Some None.
Proof.
  induction ns as [|x ns IH]; intros n0 n nd; cbn [possible].
  - split; [intros [] | intros [[|i] [_ [H _]]]; discriminate H].
  - assert (In (n, nd) (possible abs behind (n0 + 1) ns) <->
            exists i, n = n0 + Z.of_nat (S i) /\
                      nth_error (x :: ns) (S i) = Some nd /\
                      keys_eq_set (branch_keys nd) abs = true /\
                      dict_get Direction_eqb behind (branches nd) = Some None)
      as Htl.
    { rewrite IH.
      split; intros [i [-> H]]; exists i; (split; [lia | exact H]). }
    destruct (keys_eq_set (branch_keys x) abs) eqn:Ek; cbn [andb].
    + destruct (dict_get Direction_eqb behind (branches x)) as [[z|]|] eqn:Eb.
      * rewrite Htl. split; [intros [i H]; now exists (S i)|].
        intros [[|i] [Hn [Hi H]]]; [|now exists i].
        cbn [nth_error] in Hi. injection Hi as <-. destruct H. congruence.
      * cbn [In]. rewrite Htl. split.
        -- intros [[= <- <-] | [i H]]; [|now exists (S i)].
           exists O. repeat split; [lia | assumption ..].
        -- intros [[|i] [Hn [Hi H]]]; [|right; now exists i].
           cbn [nth_error] in Hi. injection Hi as <-. left. f_equal. lia.
      * rewrite Htl. split; [intros [i H]; now exists (S i)|].
        intros [[|i] [Hn [Hi H]]]; [|now exists i].
        cbn [nth_error] in Hi. injection Hi as <-. destruct H. congruence.
    + rewrite Htl. split; [intros [i H]; now exists (S i)|].
      intros [[|i] [Hn [Hi H]]]; [|now exists i].
      cbn [nth_error] in Hi. injection Hi as <-. destruct H. congruence.
Qed.

Lemma possible_sorted abs behind ns :
  forall n0, StronglySorted Z.lt (map fst (possible abs behind n0 ns)).
Proof.
  induction ns as [|x ns IH]; intros n0; cbn [possible]; [constructor|].
  destruct (keys_eq_set (branch_keys x) abs
            && match dict_get Direction_eqb behind (branches x) with
               | Some None => true
               | _ => false
               end); [|apply IH].
  cbn [map fst]. constructor; [apply IH|].
  apply Forall_forall. intros n Hn. apply in_map_iff in Hn as [[n' nd] [<- Hn]].
  apply possible_from in Hn as [i [-> _]]. cbn [fst]. lia.
Qed.

(** [X21] The prompt.  When no node is known behind the explorer and more
    than one direction was reported, the fork prints the prompt and then one
    line per candidate, the index and the description of the node: the
    candidates are the nodes whose directions are exactly the expected ones
    and whose branch behind is unexplored, each listed once, in ascending
    order of index.  The answer is not checked against that list: any
    number that indexes the node list, a negative one included, is taken as
    the explorer's place, with the database unchanged so far; a number that
    indexes no node ends the fork with [IndexError]. *)
Theorem prompt_lists_candidates (dirs : string) (choice : answer) (db : DB)
  (last : LogEntry) (ls : list Direction) :
  py_last (log db) = Ok last ->
  mapM letter_dir (chars dirs) = Ok ls ->
  find_known (opposite (afterturn last)) (node last) 0 (nodes db) = None ->
  1 < py_len (set_of ls) ->
  let behind := opposite (afterturn last) in
  let abs := abs_branches_of (afterturn last) ls in
  (exists candidates : list (Z * Node),
      fst (identify dirs choice db)
      = "Pick the node you are on, or type a new description:"
        :: map (fun c => String.append (string_of_Z (fst c))
                           (String.append ": " (description (snd c))))
             candidates /\
      StronglySorted Z.lt (map fst candidates) /\
      (forall n nd,
          In (n, nd) candidates <->
          0 <= n /\ py_get (nodes db) n = Ok nd /\
          (forall d, In d (branch_keys nd) <-> In d abs) /\
          dict_get Direction_eqb behind (branches nd) = Some None)) /\
  (forall z,
      choice = Index z ->
      match py_get (nodes db) z with
      | Ok _ => snd (identify dirs choice db) = Ok (Some (db, z))
      | Raise _ => snd (identify dirs choice db) = Raise IndexError
      end).
Proof.
  intros Hlast Hls Hknown Hmany behind abs.
  set (candidates := possible abs behind 0 (nodes db)).
  assert (identify dirs choice db
          = (print "Pick the node you are on, or type a new description:" ;;;
             print_all (map choice_line candidates) ;;;
             match choice with
             | Index node_id =>
                 _ <~ lift (py_get (nodes db) node_id) ;;
                 io_ret (Some (db, node_id))
             | Text descr =>
                 io_ret (Some (mkDB (nodes db
                                       ++ [new_node abs behind (node last)
                                             descr])
                                 (log db),
                               py_len (nodes db)))
             end)) as E.
  { unfold identify.
    rewrite Hlast, io_bind_lift_ok, Hls, io_bind_lift_ok.
    fold behind. unfold behind at 1. rewrite Hknown.
    replace (py_len (set_of ls) <=? 1) with false
      by (symmetry; apply Z.leb_gt; lia).
    reflexivity. }
  rewrite E. unfold io_bind at 1 2. cbn [print fst snd].
  unfold io_bind at 1 2. rewrite print_all_out. cbn [fst snd].
  split.
  - exists candidates. split; [|split].
    + change (fun c : Z * Node =>
                String.append (string_of_Z (fst c))
                  (String.append ": " (description (snd c))))
        with choice_line.
      destruct choice as [z|s]; [|cbn [io_ret fst]; now rewrite !app_nil_r].
      destruct (py_get (nodes db) z); unfold lift, io_bind, io_ret;
        cbn [fst snd]; now rewrite !app_nil_r.
    + apply possible_sorted.
    + intros n nd. unfold candidates. rewrite possible_from.
      rewrite <- keys_eq_set_spec. split.
      * intros [i [-> [Hi [Hk Hb]]]]. rewrite Z.add_0_l.
        split; [lia|]. split; [|split; assumption].
        assert (i < List.length (nodes db))%nat
          by (apply nth_error_Some; congruence).
        unfold py_get, py_pos.
        replace (0 <=? Z.of_nat i) with true
          by (symmetry; apply Z.leb_le; lia).
        replace (Z.of_nat i <? Z.of_nat (List.length (nodes db))) with true
          by (symmetry; apply Z.ltb_lt; lia).
        cbn [andb bind]. now rewrite Nat2Z.id, Hi.
      * intros [Hn [Hget [Hk Hb]]]. exists (Z.to_nat n).
        split; [lia|]. split; [|split; assumption].
        unfold py_get, py_pos in Hget.
        replace (0 <=? n) with true in Hget
          by (symmetry; apply Z.leb_le; lia).
        destruct (n <? Z.of_nat (List.length (nodes db))); cbn [andb] in Hget.
        -- cbn [bind] in Hget.
           destruct (nth_error (nodes db) (Z.to_nat n)); [|discriminate].
           cbn [of_option] in Hget. congruence.
        -- replace (n <? 0) with false in Hget
             by (symmetry; apply Z.ltb_ge; lia).
           discriminate.
  - intros z ->. destruct (py_get (nodes db) z) as [nd|e] eqn:Eget.
    + reflexivity.
    + now rewrite (py_get_raises _ _ _ Eget).
Qed.

Lemma prompt_lists_candidates_witness :
  let crossing := [(forward, None); (right, None); (left, None)] in
  let db := mkDB [ mkNode [(forward, Some 1)] "root node" [];
                   mkNode [(right, None); (backward, Some 0); (left, None)]
                     "A" [];
                   mkNode crossing "B" [];
                   mkNode [(forward, None); (right, Some 7); (left, None)]
                     "C" [];
                   mkNode crossing "D" [] ]
                 [ mkLogEntry forward "T" 0; mkLogEntry left "T" 1 ] in
  fst (identify "wd" (Index (-1)) db)
  = [ "Pick the node you are on, or type a new description:";
      "2: B"; "4: D" ] /\
  snd (identify "wd" (Index (-1)) db) = Ok (Some (db, -1)).
Proof.
  intros crossing db.
  destruct (prompt_lists_candidates "wd" (Index (-1)) db
              (mkLogEntry left "T" 1) [forward; right]
              eq_refl eq_refl eq_refl eq_refl) as [_ H3].
  split; [reflexivity | exact (H3 (-1) eq_refl)].
Defined.

(** ** How an invocation can end *)

Lemma Direction_getitem_raises v e :
  Direction_getitem v = Raise e -> e = KeyError \/ e = TypeError.
Proof.
  destruct v as [|z|s|d|l|m]; cbn [Direction_getitem];
    try (intros [= <-]; auto).
  unfold Direction_of_name.
  repeat match goal with
         | |- context [if ?b then _ else _] => destruct b
         end; try discriminate.
  intros [= <-]. auto.
Qed.

Lemma direction_keys_raises items :
  forall acc e,
    direction_keys items acc = Raise e -> e = KeyError \/ e = TypeError.
Proof.
  induction items as [|[k v] r IH]; intros acc e; cbn [direction_keys];
    [discriminate|].
  destruct (Direction_getitem (pyval_of_key k)) as [d|e'] eqn:E; cbn [bind].
  - apply IH.
  - intros [= <-]. now apply Direction_getitem_raises in E.
Qed.

Lemma object_hook_raises obj e :
  object_hook obj = Raise e ->
  e = KeyError \/ e = TypeError \/ e = AttributeError.
Proof.
  unfold object_hook.
  destruct (dict_mem pykey_eqb (KStr "afterturn") obj).
  - destruct (py_lookup (KStr "afterturn") obj) as [v|]; cbn [of_option bind];
      [|intros [= <-]; auto].
    destruct (Direction_getitem v) as [d|e'] eqn:E; cbn [bind];
      [discriminate|].
    intros [= <-]. apply Direction_getitem_raises in E. tauto.
  - destruct (dict_mem pykey_eqb (KStr "branches") obj); [|discriminate].
    destruct (py_lookup (KStr "branches") obj) as [v|]; cbn [of_option bind];
      [|intros [= <-]; auto].
    destruct v as [|z|s|d|l|m]; try (intros [= <-]; auto).
    destruct (direction_keys m []) as [new|e'] eqn:E; cbn [bind];
      [discriminate|].
    intros [= <-]. apply direction_keys_raises in E. tauto.
Qed.

Lemma json_load_raises :
  forall j e,
    json_load j = Raise e ->
    e = KeyError \/ e = TypeError \/ e = AttributeError.
Proof.
  fix IH 1. intros j e. destruct j as [|z|s|d|l|m]; try discriminate.
  - rewrite json_load_PList.
    assert (forall e', mapM json_load l = Raise e' ->
                       e' = KeyError \/ e' = TypeError \/ e' = AttributeError)
      as Hl.
    { induction l as [|x r IHr]; intros e'; cbn [mapM]; [discriminate|].
      destruct (json_load x) as [x'|e1] eqn:Ex; cbn [bind].
      - destruct (mapM json_load r) as [r'|e2]; cbn [bind]; [discriminate|].
        intros [= <-]. now apply IHr.
      - intros [= <-]. exact (IH x e1 Ex). }
    destruct (mapM json_load l) as [l'|e']; cbn [bind]; [discriminate|].
    intros [= <-]. now apply Hl.
  - rewrite json_load_PDict.
    assert (forall e',
               mapM (fun kv : pykey * pyval =>
                       v' <- json_load (snd kv) ;; Ok (fst kv, v')) m
               = Raise e' ->
               e' = KeyError \/ e' = TypeError \/ e' = AttributeError) as Hm.
    { induction m as [|[k v] r IHr]; intros e'; cbn [mapM]; [discriminate|].
      cbn [fst snd].
      destruct (json_load v) as [v'|e1] eqn:Ev; cbn [bind].
      - destruct (mapM _ r) as [r'|e2]; cbn [bind]; [discriminate|].
        intros [= <-]. now apply IHr.
      - intros [= <-]. exact (IH v e1 Ev). }
    destruct (mapM _ m) as [m'|e']; cbn [bind].
    + apply object_hook_raises.
    + intros [= <-]. now apply Hm.
Qed.

Lemma mapM_raises {A B} (f : A -> result B) (P : exn -> Prop) l e :
  (forall x e', f x = Raise e' -> P e') -> mapM f l = Raise e -> P e.
Proof.
  intros Hf. induction l as [|x l IH]; cbn [mapM]; [discriminate|].
  destruct (f x) as [y|e'] eqn:E; cbn [bind].
  - destruct (mapM f l) as [l'|e2]; cbn [bind]; [discriminate|].
    intros [= <-]. now apply IH.
  - intros [= <-]. now apply (Hf x).
Qed.

Lemma node_of_py_raises v e : node_of_py v = Raise e -> e = NotModelled.
Proof.
  unfold node_of_py.
  destruct v as [|z|s|d|l|[|[kb [| | | | |items]] [|[kd [| |s| | |]] rest]]];
    try (now intros [= <-]).
  destruct (key_is "branches" kb && key_is "description" kd
            && forallb (fun kv => negb (is_schema_key (fst kv))) rest);
    [|now intros [= <-]].
  destruct (mapM branch_of_py items) as [bs|e1] eqn:E1; cbn [bind].
  - destruct (mapM extra_of_py rest) as [ex|e2] eqn:E2; cbn [bind];
      [discriminate|].
    intros [= <-].
    apply (mapM_raises extra_of_py (fun e => e = NotModelled) rest e2);
      [|exact E2].
    intros [k [| | | | |]] e'; cbn [extra_of_py]; now intros [= <-].
  - intros [= <-].
    apply (mapM_raises branch_of_py (fun e => e = NotModelled) items e1);
      [|exact E1].
    intros [[k|k] [| | | | |]] e'; cbn [branch_of_py]; now intros [= <-].
Qed.

Lemma entry_of_py_raises v e : entry_of_py v = Raise e -> e = NotModelled.
Proof.
  unfold entry_of_py.
  destruct v as [|z|s|d|l|m]; try (now intros [= <-]).
  repeat match goal with
         | |- context [match ?x with _ => _ end] =>
             destruct x; try (now intros [= <-])
         end.
Qed.

Lemma db_of_py_raises v e : db_of_py v = Raise e -> e = NotModelled.
Proof.
  unfold db_of_py.
  destruct v as [|z|s|d|l|[|[kn [| | | |ns|]] [|[kl [| | | |es|]] [|]]]];
    try (now intros [= <-]).
  destruct (key_is "nodes" kn && key_is "log" kl); [|now intros [= <-]].
  destruct (mapM node_of_py ns) as [ns'|e1] eqn:E1; cbn [bind].
  - destruct (mapM entry_of_py es) as [es'|e2] eqn:E2; cbn [bind];
      [discriminate|].
    intros [= <-].
    exact (mapM_raises entry_of_py (fun e => e = NotModelled) es e2
             entry_of_py_raises E2).
  - intros [= <-].
    exact (mapM_raises node_of_py (fun e => e = NotModelled) ns e1
             node_of_py_raises E1).
Qed.

Lemma load_raises j e :
  load j = Raise e ->
  e = KeyError \/ e = TypeError \/ e = AttributeError \/ e = NotModelled.
Proof.
  unfold load. destruct (json_load j) as [v|e'] eqn:E; cbn [bind].
  - intros H. apply db_of_py_raises in H. tauto.
  - intros [= <-]. apply json_load_raises in E. tauto.
Qed.

Lemma py_modify_raises {A} (l : list A) i f e :
  py_modify l i f = Raise e -> e = IndexError.
Proof.
  unfold py_modify, py_pos.
  destruct ((0 <=? i) && (i <? Z.of_nat (List.length l))); [discriminate|].
  destruct ((i <? 0) && (0 <=? i + Z.of_nat (List.length l)));
    [discriminate|].
  now intros [= <-].
Qed.

Lemma identify_raises dirs choice db out e :
  identify dirs choice db = (out, Raise e) ->
  e = IndexError \/ e = ValueError.
Proof.
  unfold identify.
  destruct (py_last (log db)) as [last|e1] eqn:Elast.
  2:{ intros [= _ <-]. left. exact (py_get_raises _ _ _ Elast). }
  rewrite io_bind_lift_ok.
  destruct (mapM letter_dir (chars dirs)) as [ls|e2] eqn:Els.
  2:{ intros [= _ <-]. right.
      exact (mapM_raises letter_dir (fun e => e = ValueError) _ e2
               letter_dir_raises Els). }
  rewrite io_bind_lift_ok.
  destruct (find_known _ _ _ _) as [[known nd]|].
  - destruct (negb (keys_eq_set _ _)).
    + rewrite print_all_out. discriminate.
    + unfold io_bind at 1. cbn [print fst snd].
      destruct (py_modify (nodes db) (node last) _) as [ns|e3] eqn:Emod.
      * rewrite io_bind_lift_ok. discriminate.
      * intros [= _ <-]. left. exact (py_modify_raises _ _ _ _ Emod).
  - destruct (py_len (set_of ls) <=? 1); [discriminate|].
    unfold io_bind at 1. cbn [print fst snd]. rewrite print_all_out.
    unfold io_bind at 1. cbn [fst snd]. destruct choice as [z|descr].
    + destruct (py_get (nodes db) z) as [nd|e3] eqn:Eget.
      * rewrite io_bind_lift_ok. discriminate.
      * intros [= _ <-]. left. exact (py_get_raises _ _ _ Eget).
    + discriminate.
Qed.

Lemma guide_raises ns node_id facing ft time out e :
  guide ns node_id facing ft time = (out, Raise e) ->
  e = IndexError \/ e = KeyError.
Proof.
  destruct (guide_cases ns node_id facing ft time)
    as [[o [entry [E _]]] | [[E _] | [E _]]]; rewrite E; intros [= _ <-];
    auto.
Qed.

Lemma fork_raises dirs ft time choice db out e :
  fork dirs ft time choice db = (out, Raise e) ->
  e = IndexError \/ e = ValueError \/ e = KeyError.
Proof.
  unfold fork.
  destruct (identify dirs choice db) as [o1 [[[db1 node_id]|]|e1]] eqn:Eid.
  - unfold io_bind at 1. cbn [fst snd].
    destruct (py_last (log db)) as [last|e2] eqn:Elast.
    2:{ intros [= _ <-]. left. exact (py_get_raises _ _ _ Elast). }
    rewrite io_bind_lift_ok. unfold link_and_guide.
    destruct (py_modify (nodes db1) (node last) _) as [ns2|e3] eqn:Emod.
    2:{ intros [= _ <-]. left. exact (py_modify_raises _ _ _ _ Emod). }
    rewrite io_bind_lift_ok.
    destruct (guide ns2 node_id (afterturn last) ft time)
      as [o2 [entry|e4]] eqn:Eg.
    + discriminate.
    + intros [= _ <-]. apply guide_raises in Eg. tauto.
  - discriminate.
  - intros [= _ <-]. apply identify_raises in Eid. tauto.
Qed.

Lemma undo_raises db out e : undo db = (out, Raise e) -> e = IndexError.
Proof.
  unfold undo.
  destruct (py_last (log db)) as [last|e1] eqn:Elast.
  2:{ intros [= _ <-]. exact (py_get_raises _ _ _ Elast). }
  rewrite io_bind_lift_ok.
  destruct (py_get (nodes db) (node last)) as [nd|e2] eqn:Eget.
  2:{ intros [= _ <-]. exact (py_get_raises _ _ _ Eget). }
  rewrite io_bind_lift_ok.
  destruct (node last =? py_len (nodes db) - 1); discriminate.
Qed.

(** [X4] All or nothing.  Let the file be absent, empty, or hold a document
    that the decoder refuses or that reads as a database.  Then, whatever
    the arguments, the clock and the operator's reply: an invocation that
    ends with an exception leaves the file exactly as it found it; no
    invocation leaves the file emptied half-way through a write; and the
    invocation ends normally or with a Python exception, inside what the
    model covers.  A document that [json.load] accepts and that is no
    database in the typed view is left out: on such a document the program
    can go on to [open(..., 'w')] and fail inside [dump_dbfile]. *)
Theorem main_failure_keeps_file (argv : list string) (time : string)
  (choice : answer) (f : file) :
  read_db f <> Raise NotModelled ->
  (raised (main argv time choice f) <> None ->
   db_file (main argv time choice f) = f) /\
  (db_file (main argv time choice f) = Truncated -> f = Truncated) /\
  raised (main argv time choice f) <> Some NotModelled /\
  raised (main argv time choice f) <> Some OutOfFuel.
Proof.
  intros Hf.
  set (G := fun o : outcome =>
              (raised o <> None -> db_file o = f) /\
              (db_file o = Truncated -> f = Truncated) /\
              raised o <> Some NotModelled /\
              raised o <> Some OutOfFuel).
  change (G (main argv time choice f)).
  assert (forall out e, e <> NotModelled -> e <> OutOfFuel ->
                        G (mkOutcome out (Some e) f)) as Hexn.
  { intros out e Hn Ho. unfold G. cbn [raised db_file].
    repeat split; congruence. }
  assert (forall out, G (mkOutcome out None f)) as Hnone.
  { intros out. unfold G. cbn [raised db_file].
    repeat split; congruence. }
  assert (forall b a db, G (save b a db)) as Hsave.
  { intros b a db. unfold G, save. rewrite serialize_spec.
    cbn [raised db_file]. repeat split; congruence. }
  assert (forall e, read_db f = Raise e -> G (not_read e f)) as Hread.
  { intros e He.
    assert (e <> NotModelled) as Hn by congruence.
    assert (e <> OutOfFuel) as Ho.
    { destruct f as [| |j|]; cbn [read_db] in He; try congruence.
      apply load_raises in He. intros ->.
      destruct He as [He | [He | [He | He]]]; discriminate He. }
    destruct e; try (now apply Hexn). now destruct Hn. }
  unfold main, arg.
  destruct (nth_error argv 1) as [command|]; cbn [of_option];
    [|now apply Hexn].
  destruct (String.eqb command "begin"); [apply Hsave|].
  destruct (String.eqb command "fork").
  { destruct (match of_option IndexError (nth_error argv 3) with
              | Ok s => d <- letter_dir s;; Ok (Some d)
              | Raise _ => Ok None
              end) as [force_turn|e] eqn:Eft.
    2:{ assert (e = ValueError) as ->; [|now apply Hexn].
        destruct (of_option IndexError (nth_error argv 3)) as [s|];
          [|discriminate].
        destruct (letter_dir s) as [d|e'] eqn:El; [discriminate|].
        cbn [bind] in Eft. injection Eft as <-.
        exact (letter_dir_raises _ _ El). }
    destruct (read_db f) as [db|e] eqn:Er; [|now apply Hread].
    destruct (fork _ force_turn time choice db) as [out [[db'|]|e]] eqn:Ef.
    - apply Hsave.
    - apply Hnone.
    - apply fork_raises in Ef.
      destruct Ef as [-> | [-> | ->]]; now apply Hexn. }
  destruct (String.eqb command "undo"); [|apply Hnone].
  destruct (read_db f) as [db|e] eqn:Er; [|now apply Hread].
  destruct (undo db) as [out [db'|e]] eqn:Eu.
  - apply Hsave.
  - apply undo_raises in Eu. subst e. now apply Hexn.
Qed.

Lemma main_failure_keeps_file_witness :
  read_db (Document emptied_document) <> Raise NotModelled /\
  raised (main ["indoor_mapper.py"; "undo"] "T" no_reply
            (Document emptied_document)) = Some IndexError /\
  db_file (main ["indoor_mapper.py"; "undo"] "T" no_reply
             (Document emptied_document)) = Document emptied_document.
Proof.
  assert (read_db (Document emptied_document) <> Raise NotModelled) as H
    by (vm_compute; discriminate).
  split; [exact H|]. split; [reflexivity|].
  apply (proj1 (main_failure_keeps_file ["indoor_mapper.py"; "undo"] "T"
                  no_reply (Document emptied_document) H)).
  vm_compute. discriminate.
Defined.

(** ** The item written next to the branches, and the save *)




